(** * marisa-trie: configuration flags, growable vectors and trie I/O

    A shallow embedding of
    - [lib/marisa/grimoire/trie/config.h]   (class [Config]),
    - [lib/marisa/grimoire/vector/vector.h] (class template [Vector<T>]),
    - the [Trie], [TrieIO] and [TrieSerializer] member functions,
    followed by the properties established about them.

    Conventions.  [int] values are mathematical integers with the
    two's-complement reading of [Z.land], [Z.lor] and [Z.lnot];
    [std::size_t] is a 64-bit unsigned integer, modelled in [N] with the
    wrap-around written out; memory is a store of byte blocks, and the
    vector's buffers live in that store. *)

From Stdlib Require Import ZArith NArith Lia List.
From Stdlib.Strings Require Import Byte.
From stdpp Require Import base list.

Set Default Proof Using "Type".
Local Open Scope N_scope.

(* ===================================================================== *)
(** * Part I: definitions                                                 *)
(* ===================================================================== *)

(** ** Exceptions, assertions and the state monad *)

(** The exception classes of <stdexcept> and <new> the sources throw. *)
Inductive exn : Set :=
  | invalid_argument
  | logic_error
  | runtime_error
  | length_error
  | bad_alloc.

(** How a call ends: normally, by an exception, by a failed [assert], or
    by undefined behaviour (a read or write through a pointer that does
    not designate storage). *)
Inductive res (A : Type) : Type :=
  | Ok (a : A)
  | Throw (e : exn)
  | AssertFail
  | Undefined.
Arguments Ok {A} a.
Arguments Throw {A} e.
Arguments AssertFail {A}.
Arguments Undefined {A}.

(** A member function is a state transformer over the state [S] it can
    touch, and reports how it ended.  When it does not end normally the
    state is the one reached at the point of failure. *)
Definition M (S A : Type) : Type := S -> res A * S.

Definition ret {S A} (a : A) : M S A := fun s => (Ok a, s).

Definition bind {S A B} (m : M S A) (k : A -> M S B) : M S B :=
  fun s =>
    match m s with
    | (Ok a, s') => k a s'
    | (Throw e, s') => (Throw e, s')
    | (AssertFail, s') => (AssertFail, s')
    | (Undefined, s') => (Undefined, s')
    end.

Definition throw {S A} (e : exn) : M S A := fun s => (Throw e, s).
Definition get {S} : M S S := fun s => (Ok s, s).
Definition put {S} (s : S) : M S unit := fun _ => (Ok tt, s).
Definition modify {S} (f : S -> S) : M S unit := fun s => (Ok tt, f s).

Declare Scope cpp_scope.
Delimit Scope cpp_scope with cpp.
Notation "x <- m ;; k" := (bind m (fun x => k))
  (at level 100, m at next level, right associativity) : cpp_scope.
Notation "m ;;; k" := (bind m (fun _ => k))
  (at level 100, right associativity) : cpp_scope.
Local Open Scope cpp_scope.

(** [MARISA_THROW_IF(cond, error_type)]. *)
Definition MARISA_THROW_IF {S} (cond : bool) (e : exn) : M S unit :=
  if cond then throw e else ret tt.

(** [assert(cond)] of <cassert>, assertions enabled. *)
Definition assert {S} (cond : bool) : M S unit :=
  fun s => if cond then (Ok tt, s) else (AssertFail, s).

(** ** [marisa/base.h]: the configuration constants *)

(** The enumerators [config.h] takes from [marisa/base.h]. *)
Record base_h : Set := {
  MARISA_DEFAULT_NUM_TRIES : Z;
  MARISA_HUGE_CACHE : Z;
  MARISA_LARGE_CACHE : Z;
  MARISA_NORMAL_CACHE : Z;
  MARISA_SMALL_CACHE : Z;
  MARISA_TINY_CACHE : Z;
  MARISA_DEFAULT_CACHE : Z;
  MARISA_TEXT_TAIL : Z;
  MARISA_BINARY_TAIL : Z;
  MARISA_DEFAULT_TAIL : Z;
  MARISA_LABEL_ORDER : Z;
  MARISA_WEIGHT_ORDER : Z;
  MARISA_DEFAULT_ORDER : Z;
  MARISA_NUM_TRIES_MASK : Z;
  MARISA_CACHE_LEVEL_MASK : Z;
  MARISA_TAIL_MODE_MASK : Z;
  MARISA_NODE_ORDER_MASK : Z;
  MARISA_CONFIG_MASK : Z
  }.

(** Modelled from the spec: the enumerators of [marisa/base.h], which is
    not among the sources.  The groups and defaults are those of the
    specification's table of configuration flags: [num_tries] in 1..7
    with default 3, five cache levels with default normal, two tail
    modes with default binary, two node orders with default weight; the
    reserved mask is the union of the four group masks. *)
Definition spec_base_h : base_h := {|
  MARISA_DEFAULT_NUM_TRIES := 0x00003;
  MARISA_HUGE_CACHE := 0x00080;
  MARISA_LARGE_CACHE := 0x00100;
  MARISA_NORMAL_CACHE := 0x00200;
  MARISA_SMALL_CACHE := 0x00400;
  MARISA_TINY_CACHE := 0x00800;
  MARISA_DEFAULT_CACHE := 0x00200;
  MARISA_TEXT_TAIL := 0x01000;
  MARISA_BINARY_TAIL := 0x02000;
  MARISA_DEFAULT_TAIL := 0x02000;
  MARISA_LABEL_ORDER := 0x10000;
  MARISA_WEIGHT_ORDER := 0x20000;
  MARISA_DEFAULT_ORDER := 0x20000;
  MARISA_NUM_TRIES_MASK := 0x00007;
  MARISA_CACHE_LEVEL_MASK := 0x00F80;
  MARISA_TAIL_MODE_MASK := 0x0F000;
  MARISA_NODE_ORDER_MASK := 0xF0000;
  MARISA_CONFIG_MASK := 0xFFF87
  |}.

(** ** [config.h]: class [Config] *)

Module Config.
Section WithConstants.
Variable k : base_h.

Record Config : Set := mkConfig { flags_ : Z }.

(** [Config() = default], with the default member initialiser. *)
Definition Config_default : Config :=
  {| flags_ := Z.lor (Z.lor (Z.lor (MARISA_DEFAULT_NUM_TRIES k)
                                   (MARISA_DEFAULT_CACHE k))
                            (MARISA_DEFAULT_TAIL k))
                     (MARISA_DEFAULT_ORDER k) |}.

(** [flags_ |= bits]. *)
Definition or_flags (bits : Z) : M Config unit :=
  modify (fun c => {| flags_ := Z.lor (flags_ c) bits |}).

Definition parse_num_tries (config_flags : Z) : M Config unit :=
  ret tt.

Definition parse_cache_level (config_flags : Z) : M Config unit :=
  let x := Z.land config_flags (MARISA_CACHE_LEVEL_MASK k) in
  if Z.eqb x 0 then or_flags (MARISA_DEFAULT_CACHE k)
  else if Z.eqb x (MARISA_HUGE_CACHE k) then ret tt
  else if Z.eqb x (MARISA_LARGE_CACHE k) then ret tt
  else if Z.eqb x (MARISA_NORMAL_CACHE k) then ret tt
  else if Z.eqb x (MARISA_SMALL_CACHE k) then ret tt
  else if Z.eqb x (MARISA_TINY_CACHE k) then ret tt
  else throw invalid_argument.

Definition parse_tail_mode (config_flags : Z) : M Config unit :=
  let x := Z.land config_flags (MARISA_TAIL_MODE_MASK k) in
  if Z.eqb x 0 then or_flags (MARISA_DEFAULT_TAIL k)
  else if Z.eqb x (MARISA_TEXT_TAIL k) then ret tt
  else if Z.eqb x (MARISA_BINARY_TAIL k) then ret tt
  else throw invalid_argument.

Definition parse_node_order (config_flags : Z) : M Config unit :=
  let x := Z.land config_flags (MARISA_NODE_ORDER_MASK k) in
  if Z.eqb x 0 then or_flags (MARISA_DEFAULT_ORDER k)
  else if Z.eqb x (MARISA_LABEL_ORDER k) then ret tt
  else if Z.eqb x (MARISA_WEIGHT_ORDER k) then ret tt
  else throw invalid_argument.

Definition parse (config_flags : Z) : M Config unit :=
  MARISA_THROW_IF
    (negb (Z.eqb (Z.land config_flags (Z.lnot (MARISA_CONFIG_MASK k))) 0))
    invalid_argument ;;;
  parse_num_tries config_flags ;;;
  parse_cache_level config_flags ;;;
  parse_tail_mode config_flags ;;;
  parse_node_order config_flags.

(** [explicit Config(int flags)]. *)
Definition Config_of_flags (flags : Z) : res unit * Config :=
  parse flags Config_default.

(** [swap(rhs)]: the two objects exchange their [flags_]. *)

Definition swap (lhs rhs : Config) : Config * Config := (rhs, lhs).


(** [clear()]: [Config().swap( *this)]. *)

Definition clear : M Config unit := put Config_default.


Definition flags (c : Config) : Z := flags_ c.
Definition num_tries (c : Config) : Z :=
  Z.land (flags_ c) (MARISA_NUM_TRIES_MASK k).
Definition cache_level (c : Config) : Z :=
  Z.land (flags_ c) (MARISA_CACHE_LEVEL_MASK k).
Definition tail_mode (c : Config) : Z :=
  Z.land (flags_ c) (MARISA_TAIL_MODE_MASK k).
Definition node_order (c : Config) : Z :=
  Z.land (flags_ c) (MARISA_NODE_ORDER_MASK k).

(** The cache-level, tail-mode and node-order fields of [config_flags]
    as the three [switch] statements accept them: zero, or one of the
    enumerators with a [case] label. *)
Definition cache_level_accepted (config_flags : Z) : Prop :=
  let x := Z.land config_flags (MARISA_CACHE_LEVEL_MASK k) in
  x = 0%Z \/ x = MARISA_HUGE_CACHE k \/ x = MARISA_LARGE_CACHE k \/
  x = MARISA_NORMAL_CACHE k \/ x = MARISA_SMALL_CACHE k \/
  x = MARISA_TINY_CACHE k.

Definition tail_mode_accepted (config_flags : Z) : Prop :=
  let x := Z.land config_flags (MARISA_TAIL_MODE_MASK k) in
  x = 0%Z \/ x = MARISA_TEXT_TAIL k \/ x = MARISA_BINARY_TAIL k.

Definition node_order_accepted (config_flags : Z) : Prop :=
  let x := Z.land config_flags (MARISA_NODE_ORDER_MASK k) in
  x = 0%Z \/ x = MARISA_LABEL_ORDER k \/ x = MARISA_WEIGHT_ORDER k.

Definition inside_mask (config_flags : Z) : Prop :=
  Z.land config_flags (Z.lnot (MARISA_CONFIG_MASK k)) = 0%Z.

(** Validity of a flags value in the specification's words: no bit
    outside the reserved mask, no undefined combination in a group, and
    a [num_tries] field that is neither 0 nor greater than 7. *)
Definition spec_valid (config_flags : Z) : Prop :=
  inside_mask config_flags /\
  cache_level_accepted config_flags /\
  tail_mode_accepted config_flags /\
  node_order_accepted config_flags /\
  (1 <= Z.land config_flags (MARISA_NUM_TRIES_MASK k) <= 7)%Z.

(** The calls that change a [Config], and a sequence of them on one
    object, made by a caller that catches what [parse] throws and goes
    on. *)
Inductive call : Set :=
  | Parse (config_flags : Z)
  | Clear.

Definition run (c : call) : M Config unit :=
  match c with
  | Parse config_flags => parse config_flags
  | Clear => clear
  end.

Fixpoint run_all (cs : list call) (c : Config) : Config :=
  match cs with
  | [] => c
  | x :: cs' => run_all cs' (snd (run x c))
  end.

End WithConstants.
End Config.

(** ** [std::size_t] and [uint64_t] *)

Definition SIZE_MAX : N := 2 ^ 64 - 1.

(** Reduction of a result to the 64 bits of [std::size_t]. *)
Definition size_t (n : N) : N := n mod 2 ^ 64.

(** Unsigned subtraction [a - b] on [std::size_t]. *)
Definition size_sub (a b : N) : N := size_t (a + 2 ^ 64 - size_t b).

Definition byte_of_N (n : N) : byte :=
  match Byte.of_N (n mod 256) with
  | Some b => b
  | None => x00
  end.

(** The [n] low-order bytes of [x], least significant first. *)
Fixpoint le_encode (n : nat) (x : N) : list byte :=
  match n with
  | O => []
  | S n' => byte_of_N x :: le_encode n' (x / 256)
  end.

Fixpoint le_decode (bs : list byte) : N :=
  match bs with
  | [] => 0
  | b :: bs' => Byte.to_N b + 256 * le_decode bs'
  end.

(** ** Memory: blocks of bytes, pointers into them *)

(** An address: a block and a byte offset in it.  A pointer is an address
    or [nullptr] ([None]). *)
Record addr : Set := mkAddr { blk : nat; off : N }.
Abbreviation pointer := (option addr).

(** The store: block [b] is live with contents [bs] when the [b]-th entry
    is [Some bs], and has been released when it is [None]. *)
Abbreviation heap := (list (option (list byte))).

(** [p + n], in bytes. *)
Definition ptr_add (p : pointer) (n : N) : pointer :=
  match p with
  | None => None
  | Some a => Some (mkAddr (blk a) (off a + n))
  end.

(** Reading [n] bytes through [p]; nothing is dereferenced when [n = 0]. *)
Definition load (h : heap) (p : pointer) (n : N) : option (list byte) :=
  if n =? 0 then Some []
  else
    match p with
    | None => None
    | Some a =>
        match h !! blk a with
        | Some (Some bs) =>
            if off a + n <=? N.of_nat (length bs)
            then Some (take (N.to_nat n) (drop (N.to_nat (off a)) bs))
            else None
        | _ => None
        end
    end.

(** Writing the bytes [bs] through [p]; nothing is dereferenced when
    [bs] is empty. *)
Definition store (h : heap) (p : pointer) (bs : list byte) : option heap :=
  match bs with
  | [] => Some h
  | _ :: _ =>
      match p with
      | None => None
      | Some a =>
          match h !! blk a with
          | Some (Some old) =>
              if off a + N.of_nat (length bs) <=? N.of_nat (length old)
              then Some (<[blk a :=
                     Some (take (N.to_nat (off a)) old ++ bs ++
                           drop (N.to_nat (off a) + length bs) old)]> h)
              else None
          | _ => None
          end
      end
  end.

(** [new char[n]]: a fresh block of [n] bytes.  The bytes of a new array
    are indeterminate; the vector overwrites every one of them before
    it reads any, and the model starts them at zero. *)
Definition alloc (h : heap) (n : N) : nat * heap :=
  (length h, h ++ [Some (replicate (N.to_nat n) x00)]).

(** [delete[]] of a block; of [nullptr] it does nothing. *)
Definition release (h : heap) (b : option nat) : heap :=
  match b with
  | None => h
  | Some b => <[b := None]> h
  end.

(** ** Element types *)

(** What [Vector<T>] needs of [T]: a trivially copyable and trivially
    destructible type of [sizeof] bytes, known by its object
    representation.  [default_init] is the value default-initialisation
    [new (p) T] writes, or [None] when that leaves the storage as it
    is. *)
Class Trivial (T : Type) : Type := {
  sizeof : N;
  to_bytes : T -> list byte;
  of_bytes : list byte -> T;
  default_init : option T;
  sizeof_pos : 0 < sizeof;
  sizeof_max : sizeof <= SIZE_MAX;
  to_bytes_length : forall x, N.of_nat (length (to_bytes x)) = sizeof;
  of_to_bytes : forall x, of_bytes (to_bytes x) = x
  }.
Arguments sizeof T {_}.
Arguments default_init T {_}.

(** [Vector<UInt8>] and [Vector<char>]: one byte per element. *)
#[export, refine] Instance Trivial_byte : Trivial byte := {|
  sizeof := 1;
  to_bytes := fun b => [b];
  of_bytes := fun bs => match bs with b :: _ => b | [] => x00 end;
  default_init := None
  |}.
Proof. all: intros; first [reflexivity | discriminate]. Defined.

(** [UInt32], by its object representation: four bytes. *)
Record UInt32 : Set := mkUInt32 { b0 : byte; b1 : byte; b2 : byte; b3 : byte }.

#[export, refine] Instance Trivial_UInt32 : Trivial UInt32 := {|
  sizeof := 4;
  to_bytes := fun x => [b0 x; b1 x; b2 x; b3 x];
  of_bytes := fun bs =>
    match bs with
    | a :: b :: c :: d :: _ => mkUInt32 a b c d
    | _ => mkUInt32 x00 x00 x00 x00
    end;
  default_init := None
  |}.
Proof.
  all: intros; first [reflexivity | discriminate | by destruct x].
Defined.

(** ** [marisa/grimoire/io.h]: [Writer], [Reader] and [Mapper] *)

(** Modelled from the spec: class [Writer] of [marisa/grimoire/io.h], which
    is not among the sources.  A writer is a byte sink; the bytes it has
    emitted so far are its state.  Multi-byte integers are little-endian,
    and [seek] emits padding bytes. *)
Record Writer : Set := mkWriter { emitted : list byte }.

(** Modelled from the spec: class [Reader] of [marisa/grimoire/io.h], which
    is not among the sources.  A reader is a byte source positioned in a
    stream; the bytes from its position on are its state.  Reading past
    the end of the source is an I/O failure. *)
Record Reader : Set := mkReader { remaining : list byte }.

(** Modelled from the spec: class [Mapper] of [marisa/grimoire/io.h], which
    is not among the sources.  A mapper walks a region of memory it does
    not own: [ptr_] is its position and [avail_] the number of bytes left
    in the region.  It hands out pointers into the region (borrowed
    slices) and copies nothing. *)
Record Mapper : Set := mkMapper { ptr_ : pointer; avail_ : N }.

Module Writer_.
(** Modelled from the spec: [Writer::write(uint64_t)], eight bytes,
    little-endian. *)
Definition write_u64 (x : N) : M Writer unit :=
  modify (fun w => mkWriter (emitted w ++ le_encode 8 x)).

(** Modelled from the spec: [Writer::write] of [n] objects at [objs], the
    [nbytes = sizeof(T) * n] bytes of storage at [objs]. *)
Definition write_objs (h : heap) (objs : pointer) (nbytes : N)
  : M Writer unit :=
  fun w =>
    match load h objs nbytes with
    | Some bs => (Ok tt, mkWriter (emitted w ++ bs))
    | None => (Undefined, w)
    end.

(** Modelled from the spec: [Writer::seek(n)], [n] bytes of padding. *)
Definition seek (n : N) : M Writer unit :=
  modify (fun w => mkWriter (emitted w ++ replicate (N.to_nat n) x00)).
End Writer_.

Module Reader_.
(** The next [n] bytes of the source, and the reader moved past them. *)
Definition read_data (n : N) : M Reader (list byte) :=
  fun r =>
    if n <=? N.of_nat (length (remaining r))
    then (Ok (take (N.to_nat n) (remaining r)),
          mkReader (drop (N.to_nat n) (remaining r)))
    else (Throw runtime_error, r).

(** Modelled from the spec: [Reader::read] of a [uint64_t]. *)
Definition read_u64 : M Reader N :=
  bs <- read_data 8 ;; ret (le_decode bs).

(** Modelled from the spec: [Reader::seek(n)], skipping [n] bytes. *)
Definition seek (n : N) : M Reader unit :=
  _ <- read_data n ;; ret tt.
End Reader_.

Module Mapper_.
(** The current position, and the mapper moved [n] bytes on. *)
Definition map_data (n : N) : M Mapper pointer :=
  fun m =>
    match ptr_ m with
    | None => (Throw logic_error, m)
    | Some a =>
        if n <=? avail_ m
        then (Ok (Some a), mkMapper (ptr_add (Some a) n) (avail_ m - n))
        else (Throw runtime_error, m)
    end.

(** Modelled from the spec: [Mapper::map] of a [uint64_t], the integer at
    the current position. *)
Definition map_u64 (h : heap) : M Mapper N :=
  p <- map_data 8 ;;
  match load h p 8 with
  | Some bs => ret (le_decode bs)
  | None => fun m => (Undefined, m)
  end.

(** Modelled from the spec: [Mapper::map] of [n] objects, a pointer to
    the current position, which then moves [nbytes = sizeof(T) * n] bytes
    on; the objects stay where they are. *)
Definition map_objs (nbytes : N) : M Mapper pointer := map_data nbytes.

(** Modelled from the spec: [Mapper::seek(n)]. *)
Definition seek (n : N) : M Mapper unit :=
  _ <- map_data n ;; ret tt.

(** Modelled from the spec: [Mapper::open(ptr, size)] on a region of
    [size] bytes at [ptr]. *)
Definition open (ptr : pointer) (size : N) : Mapper := mkMapper ptr size.
End Mapper_.

(** ** [vector.h]: class template [Vector<T>] *)

Module Vector.

(** The data members.  [buf_] is the [std::unique_ptr<char[]>]: the
    block it owns, or [None] when it is null. *)
Record Vector : Set := mkVector {
  buf_ : option nat;
  const_objs_ : pointer;
  size_ : N;
  capacity_ : N
  }.

(** [Vector() = default]. *)
Definition Vector_default : Vector :=
  {| buf_ := None; const_objs_ := None; size_ := 0; capacity_ := 0 |}.

(** What a member function runs on: the object and the store. *)
Record vstate : Set := mkState { this : Vector; mem : heap }.

Definition set_const_objs (p : pointer) : M vstate unit :=
  modify (fun s => mkState (mkVector (buf_ (this s)) p (size_ (this s))
                                     (capacity_ (this s))) (mem s)).
Definition set_size (n : N) : M vstate unit :=
  modify (fun s => mkState (mkVector (buf_ (this s)) (const_objs_ (this s))
                                     n (capacity_ (this s))) (mem s)).
Definition set_capacity (n : N) : M vstate unit :=
  modify (fun s => mkState (mkVector (buf_ (this s)) (const_objs_ (this s))
                                     (size_ (this s)) n) (mem s)).

(** [buf_ = std::move(new_buf)]: the old array is deleted. *)
Definition set_buf (b : option nat) : M vstate unit :=
  modify (fun s => mkState (mkVector b (const_objs_ (this s))
                                     (size_ (this s)) (capacity_ (this s)))
                           (release (mem s) (buf_ (this s)))).

(** [new char[n]]. *)
Definition new_char (n : N) : M vstate nat :=
  fun s => let '(b, h) := alloc (mem s) n in (Ok b, mkState (this s) h).

(** A write of [bs] through [p]. *)
Definition poke (p : pointer) (bs : list byte) : M vstate unit :=
  fun s =>
    match store (mem s) p bs with
    | Some h => (Ok tt, mkState (this s) h)
    | None => (Undefined, s)
    end.

(** A read of [n] bytes through [p]. *)
Definition peek (p : pointer) (n : N) : M vstate (list byte) :=
  fun s =>
    match load (mem s) p n with
    | Some bs => (Ok bs, s)
    | None => (Undefined, s)
    end.

(** [for (i = from; i < to; ++i) body(i)], [n] iterations left. *)
Fixpoint for_loop {S} (n : nat) (i : N) (body : N -> M S unit)
  : M S unit :=
  match n with
  | O => ret tt
  | S n' => body i ;;; for_loop n' (i + 1) body
  end.

Section WithT.
Context {T : Type} `{Trivial T}.

(** [sizeof(T) * n] on [std::size_t]. *)
Definition bytes_of (n : N) : N := size_t (sizeof T * n).

(** [&p[i]] for [p] of type [T *]. *)
Definition index (p : pointer) (i : N) : pointer :=
  ptr_add p (bytes_of i).

Definition max_size : N := SIZE_MAX / sizeof T.

Definition size (v : Vector) : N := size_ v.
Definition capacity (v : Vector) : N := capacity_ v.
(** [buf_ == nullptr && const_objs_ != nullptr]. *)
Definition fixed (v : Vector) : bool :=
  match buf_ v, const_objs_ v with
  | None, Some _ => true
  | _, _ => false
  end.
Definition empty (v : Vector) : bool := size_ v =? 0.
Definition total_size (v : Vector) : N := bytes_of (size_ v).
(** [sizeof(uint64_t) + ((total_size() + 7) & ~0x07U)]: the mask is the
    complement of an [unsigned int], [0xFFFFFFF8], widened with zeros. *)
Definition io_size (v : Vector) : N :=
  size_t (8 + N.land (size_t (total_size v + 7)) 0xFFFFFFF8).

(** [T *objs()]. *)
Definition objs : M vstate pointer :=
  s <- get ;;
  ret (match buf_ (this s) with Some b => Some (mkAddr b 0) | None => None end).

(** [std::copy_n(src, n, dst)]. *)
Definition copy_n (src : pointer) (n : N) (dst : pointer) : M vstate unit :=
  bs <- peek src (bytes_of n) ;; poke dst bs.

(** [std::memset(p, 0, n)]. *)
Definition memset0 (p : pointer) (n : N) : M vstate unit :=
  poke p (replicate (N.to_nat n) x00).

(** [std::fill_n(p, n, x)]. *)
Definition fill_n (p : pointer) (n : N) (x : T) : M vstate unit :=
  poke p (mjoin (replicate (N.to_nat n) (to_bytes x))).

(** [new (p) T(x)]. *)
Definition construct (p : pointer) (x : T) : M vstate unit :=
  poke p (to_bytes x).

(** [new (p) T]. *)
Definition construct_default (p : pointer) : M vstate unit :=
  match default_init T with
  | Some d => poke p (to_bytes d)
  | None => ret tt
  end.

Definition realloc (new_capacity : N) : M vstate unit :=
  s <- get ;;
  assert (size_ (this s) <=? new_capacity) ;;;
  assert (new_capacity <=? max_size) ;;;
  new_buf <- new_char (bytes_of new_capacity) ;;
  let new_objs := Some (mkAddr new_buf 0) in
  old_objs <- objs ;;
  copy_n old_objs (size_ (this s)) new_objs ;;;
  memset0 (index new_objs (size_ (this s)))
          (size_t (size_sub new_capacity (size_ (this s)) * sizeof T)) ;;;
  set_buf (Some new_buf) ;;;
  set_const_objs new_objs ;;;
  set_capacity new_capacity.

Definition reserve (capacity : N) : M vstate unit :=
  s <- get ;;
  assert (negb (fixed (this s))) ;;;
  if capacity <=? capacity_ (this s) then ret tt
  else
    assert (capacity <=? max_size) ;;;
    let new_capacity :=
      if capacity / 2 <? capacity_ (this s) then
        if max_size / 2 <? capacity_ (this s) then max_size
        else size_t (capacity_ (this s) * 2)
      else capacity in
    realloc new_capacity.

Definition push_back (x : T) : M vstate unit :=
  s <- get ;;
  assert (negb (fixed (this s))) ;;;
  assert (size_ (this s) <? max_size) ;;;
  reserve (size_t (size_ (this s) + 1)) ;;;
  p <- objs ;;
  s <- get ;;
  construct (index p (size_ (this s))) x ;;;
  set_size (size_t (size_ (this s) + 1)).

Definition pop_back : M vstate unit :=
  s <- get ;;
  assert (negb (fixed (this s))) ;;;
  assert (negb (size_ (this s) =? 0)) ;;;
  set_size (size_sub (size_ (this s)) 1).

(** [resize(size)]. *)
Definition resize (size : N) : M vstate unit :=
  s <- get ;;
  assert (negb (fixed (this s))) ;;;
  reserve size ;;;
  p <- objs ;;
  s <- get ;;
  for_loop (N.to_nat (size - size_ (this s))) (size_ (this s))
           (fun i => construct_default (index p i)) ;;;
  set_size size.

(** [resize(size, x)]. *)
Definition resize_fill (size : N) (x : T) : M vstate unit :=
  s <- get ;;
  assert (negb (fixed (this s))) ;;;
  reserve size ;;;
  p <- objs ;;
  s <- get ;;
  (if size_ (this s) <? size
   then fill_n (index p (size_ (this s))) (size_sub size (size_ (this s))) x
   else ret tt) ;;;
  set_size size.

Definition shrink : M vstate unit :=
  s <- get ;;
  MARISA_THROW_IF (fixed (this s)) logic_error ;;;
  if negb (size_ (this s) =? capacity_ (this s))
  then realloc (size_ (this s))
  else ret tt.

(** The const accessors: [begin() const], [end() const],
    [operator[](i) const], [front() const], [back() const]. *)
Definition begin_const (v : Vector) : pointer := const_objs_ v.
Definition end_const (v : Vector) : pointer :=
  index (const_objs_ v) (size_ v).
Definition at_const (i : N) : M vstate T :=
  s <- get ;;
  assert (i <? size_ (this s)) ;;;
  bs <- peek (index (const_objs_ (this s)) i) (sizeof T) ;;
  ret (of_bytes bs).
Definition front_const : M vstate T :=
  s <- get ;;
  assert (negb (size_ (this s) =? 0)) ;;;
  bs <- peek (index (const_objs_ (this s)) 0) (sizeof T) ;;
  ret (of_bytes bs).
Definition back_const : M vstate T :=
  s <- get ;;
  assert (negb (size_ (this s) =? 0)) ;;;
  bs <- peek (index (const_objs_ (this s)) (size_sub (size_ (this s)) 1))
             (sizeof T) ;;
  ret (of_bytes bs).

(** The non-const accessors [begin()], [end()], [operator[](i)],
    [front()], [back()]: each returns a pointer or reference into the
    buffer, here the address. *)
Definition begin_ : M vstate pointer :=
  s <- get ;; assert (negb (fixed (this s))) ;;; objs.
Definition end_ : M vstate pointer :=
  s <- get ;; assert (negb (fixed (this s))) ;;;
  p <- objs ;; ret (index p (size_ (this s))).
Definition at_ (i : N) : M vstate pointer :=
  s <- get ;; assert (negb (fixed (this s))) ;;;
  assert (i <? size_ (this s)) ;;;
  p <- objs ;; ret (index p i).
Definition front : M vstate pointer :=
  s <- get ;; assert (negb (fixed (this s))) ;;;
  assert (negb (size_ (this s) =? 0)) ;;;
  p <- objs ;; ret (index p 0).
Definition back : M vstate pointer :=
  s <- get ;; assert (negb (fixed (this s))) ;;;
  assert (negb (size_ (this s) =? 0)) ;;;
  p <- objs ;; ret (index p (size_sub (size_ (this s)) 1)).

(** [swap(rhs)]: the two objects exchange their members. *)
Definition swap (lhs rhs : Vector) : Vector * Vector := (rhs, lhs).

(** [clear()]: [Vector().swap( *this)], and the temporary, which now
    holds the old members, is destroyed. *)
Definition clear : M vstate unit :=
  modify (fun s => mkState Vector_default (release (mem s) (buf_ (this s)))).

Definition copyInit (src : pointer) (size capacity : N) : M vstate unit :=
  s <- get ;;
  assert (size_ (this s) =? 0) ;;;
  b <- new_char (bytes_of capacity) ;;
  set_buf (Some b) ;;;
  new_objs <- objs ;;
  copy_n src size new_objs ;;;
  s <- get ;;
  memset0 (index new_objs (size_ (this s)))
          (size_t (size_sub capacity (size_ (this s)) * sizeof T)) ;;;
  set_const_objs new_objs ;;;
  set_size size ;;;
  set_capacity capacity.

(** The body shared by the copy constructor and copy assignment. *)
Definition copy_from (other : Vector) : M vstate unit :=
  match buf_ other with
  | None =>
      set_const_objs (const_objs_ other) ;;;
      set_size (size_ other) ;;;
      set_capacity (capacity_ other)
  | Some _ => copyInit (const_objs_ other) (size_ other) (capacity_ other)
  end.

(** [Vector(const Vector<T> &other)], run on the store [h]: the new
    object starts from its default member initialisers. *)
Definition Vector_copy (other : Vector) (h : heap) : res unit * vstate :=
  copy_from other (mkState Vector_default h).

(** [operator=(const Vector<T> &other)], for [other] an object other
    than [*this]. *)
Definition assign (other : Vector) : M vstate unit :=
  clear ;;; copy_from other.

(** [write(Writer &writer) const]. *)
Definition write (v : Vector) (h : heap) : M Writer unit :=
  Writer_.write_u64 (total_size v) ;;;
  Writer_.write_objs h (const_objs_ v) (bytes_of (size_ v)) ;;;
  Writer_.seek (size_sub 8 (total_size v mod 8)).


(** A member function of the object, run next to an I/O object [IO]. *)
Definition liftV {IO A} (m : M vstate A) : M (vstate * IO) A :=
  fun st => let '(r, s') := m (fst st) in (r, (s', snd st)).

(** A member function of the I/O object, run next to the vector. *)
Definition liftIO {IO A} (m : M IO A) : M (vstate * IO) A :=
  fun st => let '(r, io') := m (snd st) in (r, (fst st, io')).

(** Modelled from the spec: [Reader::read] of [n] objects into [objs],
    the next [nbytes = sizeof(T) * n] bytes of the source copied to the
    storage at [objs]. *)
Definition read_objs (objs : pointer) (nbytes : N)
  : M (vstate * Reader) unit :=
  bs <- liftIO (Reader_.read_data nbytes) ;; liftV (poke objs bs).

(** [Mapper::map] of a [uint64_t], which reads mapped memory. *)
Definition map_u64 : M (vstate * Mapper) N :=
  fun st =>
  let '(r, m') := Mapper_.map_u64 (mem (fst st)) (snd st) in
  (r, (fst st, m')).

(** The body of [explicit Vector(Mapper &mapper)]. *)
Definition ctor_Mapper : M (vstate * Mapper) unit :=
  total_size <- map_u64 ;;
  MARISA_THROW_IF (SIZE_MAX <? total_size) runtime_error ;;;
  MARISA_THROW_IF (negb (total_size mod sizeof T =? 0)) runtime_error ;;;
  let size := size_t (total_size / sizeof T) in
  p <- liftIO (Mapper_.map_objs (bytes_of size)) ;;
  liftV (set_const_objs p) ;;;
  liftIO (Mapper_.seek (size_t (size_sub 8 (total_size mod 8)))) ;;;
  liftV (set_size size).

(** The body of [explicit Vector(Reader &reader)]. *)
Definition ctor_Reader : M (vstate * Reader) unit :=
  total_size <- liftIO Reader_.read_u64 ;;
  MARISA_THROW_IF (SIZE_MAX <? total_size) runtime_error ;;;
  MARISA_THROW_IF (negb (total_size mod sizeof T =? 0)) runtime_error ;;;
  let size := size_t (total_size / sizeof T) in
  liftV (resize size) ;;;
  p <- liftV objs ;;
  read_objs p (bytes_of size) ;;;
  liftIO (Reader_.seek (size_t (size_sub 8 (total_size mod 8)))).

(** A constructor run on the store [h] with the I/O object [io]: the new
    object starts from its default member initialisers, and when the
    body throws, the members are destroyed, [buf_] releasing its
    array. *)
Definition construct_with {IO} (body : M (vstate * IO) unit)
  (h : heap) (io : IO) : res unit * (vstate * IO) :=
  match body (mkState Vector_default h, io) with
  | (Throw e, (s, io')) =>
    (Throw e, (mkState Vector_default (release (mem s) (buf_ (this s))), io'))
  | other => other
  end.

Definition Vector_of_Mapper (h : heap) (mapper : Mapper)
  : res unit * (vstate * Mapper) := construct_with ctor_Mapper h mapper.

Definition Vector_of_Reader (h : heap) (reader : Reader)
  : res unit * (vstate * Reader) := construct_with ctor_Reader h reader.

(** [Vector temp(io); swap(temp);] and the destruction of [temp]. *)
Definition construct_and_swap {IO} (body : M (vstate * IO) unit)
  : M (vstate * IO) unit :=
  fun st =>
  match construct_with body (mem (fst st)) (snd st) with
  | (Ok _, (temp, io')) =>
      (Ok tt, (mkState (this temp)
                       (release (mem temp) (buf_ (this (fst st)))), io'))
  | (r, (temp, io')) => (r, (mkState (this (fst st)) (mem temp), io'))
  end.

(** [map(Mapper &mapper)]. *)
Definition map : M (vstate * Mapper) unit := construct_and_swap ctor_Mapper.

(** [read(Reader &reader)]. *)
Definition read : M (vstate * Reader) unit := construct_and_swap ctor_Reader.

(** The representation of a vector that owns its storage, as the
    constructors and the mutators leave it: [size_ <= capacity_ <=
    max_size()], and either [buf_] is null, [const_objs_] is null and the
    capacity is 0, or [const_objs_] is the start of the array [buf_]
    owns, which is live and [sizeof(T) * capacity_] bytes long. *)
Definition owned_wf (s : vstate) : Prop :=
  size_ (this s) <= capacity_ (this s) /\
  capacity_ (this s) <= max_size /\
  match buf_ (this s) with
  | None => const_objs_ (this s) = None /\ capacity_ (this s) = 0
  | Some b =>
    const_objs_ (this s) = Some (mkAddr b 0) /\
    exists bs, mem s !! b = Some (Some bs) /\
               N.of_nat (length bs) = sizeof T * capacity_ (this s)
  end.

(** The bytes of the [size_] elements, as read through [const_objs_]. *)
Definition payload (s : vstate) : list byte :=
  match load (mem s) (const_objs_ (this s)) (bytes_of (size_ (this s))) with
  | Some bs => bs
  | None => []
  end.

(** The state [realloc(n)] leaves: a new array, holding the elements and
    then zeros, in a new block; the old array released. *)
Definition realloc_state (n : N) (s : vstate) : vstate :=
  let b := length (mem s) in
  mkState (mkVector (Some b) (Some (mkAddr b 0)) (size_ (this s)) n)
  (release (mem s ++ [Some (payload s ++
      replicate (N.to_nat (sizeof T * (n - size_ (this s)))) x00)])
     (buf_ (this s))).

(** The capacity [reserve(n)] asks [realloc] for when the capacity is
    [cur < n]. *)
Definition grown (cur n : N) : N :=
  if n / 2 <? cur then
  if max_size / 2 <? cur then max_size else size_t (cur * 2)
  else n.

(** The block [write] emits for a vector whose elements are the bytes
    [bs]: their number, the bytes, the padding. *)
Definition frame (bs : list byte) : list byte :=
  le_encode 8 (N.of_nat (length bs)) ++ bs ++
  replicate (N.to_nat (8 - N.of_nat (length bs) mod 8)) x00.

(** The shape of a serialised vector as the two constructors accept it:
    an eight-byte header holding the number of payload bytes, a multiple
    of [sizeof(T)]; the payload; and the padding the constructors skip. *)
Definition framed (hdr bs pad : list byte) : Prop :=
  length hdr = 8%nat /\
  le_decode hdr = N.of_nat (length bs) /\
  N.of_nat (length bs) mod sizeof T = 0 /\
  N.of_nat (length pad) = 8 - N.of_nat (length bs) mod 8.

(** A vector whose elements can be read: its size is one a vector can
    have, and [const_objs_] designates storage for that many elements. *)
Definition readable (v : Vector) (h : heap) : Prop :=
  size_ v <= max_size /\
  is_Some (load h (const_objs_ v) (bytes_of (size_ v))).

(** The state [copyInit] leaves when run on a new object in the store
    [h]: a new block of [sizeof(T) * capacity] bytes, all zero. *)
Definition copied_state (other : Vector) (h : heap) : vstate :=
  mkState (mkVector (Some (length h)) (Some (mkAddr (length h) 0))
                  (size_ other) (capacity_ other))
        (h ++ [Some (replicate (N.to_nat (sizeof T * capacity_ other)) x00)]).

(** The mutators, as values, and sequences of calls to them. *)
Inductive op : Type :=
  | PushBack (x : T)
  | PopBack
  | Resize (size : N)
  | ResizeFill (size : N) (x : T)
  | Reserve (capacity : N)
  | Shrink.

Definition run_op (o : op) : M vstate unit :=
  match o with
  | PushBack x => push_back x
  | PopBack => pop_back
  | Resize size => resize size
  | ResizeFill size x => resize_fill size x
  | Reserve capacity => reserve capacity
  | Shrink => shrink
  end.

Fixpoint run_ops (os : list op) : M vstate unit :=
  match os with
  | [] => ret tt
  | o :: os' => run_op o ;;; run_ops os'
  end.

(** The element at index [i], read as [operator[](i) const] reads it,
    [None] when that call does not return normally. *)
Definition nth (v : Vector) (h : heap) (i : N) : option T :=
  match at_const i (mkState v h) with
  | (Ok x, _) => Some x
  | _ => None
  end.

(** *** Notions used to state what the member functions do *)

(** The blocks of the store [s0] that are not the buffer of the vector. *)
Definition foreign (s0 : vstate) (b : nat) : Prop :=
  (b < length (mem s0))%nat /\ buf_ (this s0) <> Some b.

(** What the vector of [s0] may have done to the store by the time the
    state is [s]: the foreign blocks are as they were, and a live block
    is a foreign one or the buffer the vector owns now. *)
Definition confined (s0 s : vstate) : Prop :=
  (length (mem s0) <= length (mem s))%nat /\
  (forall b, foreign s0 b -> mem s !! b = mem s0 !! b) /\
  (forall b bs, mem s !! b = Some (Some bs) ->
     foreign s0 b \/ buf_ (this s) = Some b) /\
  (forall b, buf_ (this s) = Some b -> ~ foreign s0 b).

(** The limits inside which a mutator returns: the conditions of its
    [assert]s on a vector that is not fixed. *)
Definition within_limits (o : op) (v : Vector) : Prop :=
  match o with
  | PushBack _ => size_ v < max_size
  | PopBack => 0 < size_ v
  | Resize n | ResizeFill n _ | Reserve n => n <= max_size
  | Shrink => True
  end.

(** The vector with its [size_] set to [n]. *)
Definition with_size (n : N) (s : vstate) : vstate :=
  mkState (mkVector (buf_ (this s)) (const_objs_ (this s)) n
                    (capacity_ (this s))) (mem s).

(** The size a mutator that returns leaves. *)
Definition size_after (o : op) (n : N) : N :=
  match o with
  | PushBack _ => n + 1
  | PopBack => n - 1
  | Resize n' | ResizeFill n' _ => n'
  | Reserve _ | Shrink => n
  end.

(** [operator=(const Vector<T> &other)] with [other] the object itself:
    after [clear()], [other.buf_] is the member of the cleared object. *)
Definition assign_self : M vstate unit :=
  clear ;;; s <- get ;; copy_from (this s).

(** [Vector(Vector &&) noexcept = default]: the members are moved one by
    one.  The new object has the members [other] had; the moved-from
    [unique_ptr] of [other] is null, and its pointer and two sizes, being
    scalars, are as they were.  The result is the new object and [other]
    as it is left. *)
Definition Vector_move (other : Vector) : Vector * Vector :=
  (other,
   mkVector None (const_objs_ other) (size_ other) (capacity_ other)).

End WithT.
End Vector.

(** ** Sample vectors *)

(** The owned vector of bytes after [push_back] of 1, 2 and 3 on a new
    vector in an empty store. *)
Definition sample3 : Vector.vstate :=
  snd ((Vector.push_back x01 ;;; Vector.push_back x02 ;;;
      Vector.push_back x03)
       (Vector.mkState Vector.Vector_default [])).

(** An owned vector of eight bytes. *)
Definition sample8 : Vector.vstate :=
  snd (Vector.resize_fill 8 x2a (Vector.mkState Vector.Vector_default [])).

(** A store whose block 0 is a mapped region: one byte, then a
    serialised vector of the bytes 1, 2, 3, then one more byte; and the
    vector a mapper constructs on it from offset 1. *)
Definition mapped3 : Vector.vstate :=
  Vector.mkState
  (Vector.mkVector None (Some (mkAddr 0 9)) 3 0)
  [Some ([xff] ++ le_encode 8 3 ++ [x01; x02; x03] ++ replicate 5 x00
         ++ [xee])].

(** ** [Trie], [TrieIO] and [TrieSerializer] *)

(** [grimoire::LoudsTrie], [Keyset] and [Agent] are not among the
    sources, nor is the opening of a [Reader] or [Mapper] on a file, a
    descriptor, a stream or a region of memory.  They are the members of
    an interface here: any type of tries, with any construction,
    deserialisation and mapping, each free to succeed or to end in any
    other way. *)
Class Grimoire : Type := {
  LoudsTrie : Type;
  Keyset : Type;
  Agent : Type;
  FILE : Type;
  istream : Type;
  (** A reader and a mapper, once opened. *)
  ReaderT : Type;
  MapperT : Type;
  (** [new grimoire::LoudsTrie]. *)
  LoudsTrie_new : res LoudsTrie;
  (** [new grimoire::LoudsTrie(keyset, config_flags)]. *)
  LoudsTrie_build : Keyset -> Z -> res LoudsTrie;
  (** [reader.open(...)] and [mapper.open(...)]; a pointer argument is
      [None] when it is null. *)
  Reader_open_file : option FILE -> res ReaderT;
  Reader_open_stream : istream -> res ReaderT;
  Reader_open_filename : option (list byte) -> res ReaderT;
  Reader_open_fd : Z -> res ReaderT;
  Mapper_open_filename : option (list byte) -> Z -> res MapperT;
  Mapper_open_memory : pointer -> N -> res MapperT;
  (** [temp->read(reader)] and [temp->map(mapper)]. *)
  LoudsTrie_read : ReaderT -> M LoudsTrie unit;
  LoudsTrie_map : MapperT -> M LoudsTrie unit;
  (** Two observations of a trie: [num_keys()] and [lookup(agent)]. *)
  LoudsTrie_num_keys : LoudsTrie -> N;
  LoudsTrie_lookup : LoudsTrie -> Agent -> res (bool * Agent)
}.

Module Trie.
Section WithLoudsTrie.
Context {G : Grimoire}.

(** [trie_] is the [std::unique_ptr<grimoire::LoudsTrie>]. *)
Record Trie : Type := mkTrie { trie_ : option LoudsTrie }.

(** A computation that does not touch the state [S]. *)
Definition pure_res {S A} (r : res A) : M S A := fun s => (r, s).

(** [Trie::Trie()]. *)
Definition Trie_new : res Trie :=
  match LoudsTrie_new with
  | Ok l => Ok (mkTrie (Some l))
  | Throw e => Throw e
  | AssertFail => AssertFail
  | Undefined => Undefined
  end.

(** A member function of [temp], run while [S] is left alone; [temp]
    as it is afterwards is the result. *)
Definition on_temp {S} (temp : LoudsTrie) (m : M LoudsTrie unit)
  : M S LoudsTrie :=
  fun s =>
  match m temp with
  | (Ok _, temp') => (Ok temp', s)
  | (Throw e, _) => (Throw e, s)
  | (AssertFail, _) => (AssertFail, s)
  | (Undefined, _) => (Undefined, s)
  end.

(** [trie_.swap(temp)], after which [temp] goes out of scope. *)
Definition swap_in (temp : LoudsTrie) : M Trie unit :=
  put (mkTrie (Some temp)).

Definition build (keyset : Keyset) (config_flags : Z) : M Trie unit :=
  temp <- pure_res (LoudsTrie_build keyset config_flags) ;;
  swap_in temp.

(** [trie_->num_keys()] and [trie_->lookup(agent)]; a null [trie_] is
    dereferenced. *)
Definition num_keys (t : Trie) : res N :=
  match trie_ t with
  | Some l => Ok (LoudsTrie_num_keys l)
  | None => Undefined
  end.

Definition lookup (t : Trie) (agent : Agent) : res (bool * Agent) :=
  match trie_ t with
  | Some l => LoudsTrie_lookup l agent
  | None => Undefined
  end.

(** [Trie::clear()]: [Trie().swap( *this)]. *)
Definition clear : M Trie unit :=
  fresh <- pure_res Trie_new ;; put fresh.

(** The functions taking a [Trie *trie] run on [option Trie]: [None] is
    the null pointer. *)
Definition is_null {A} (p : option A) : bool :=
  match p with None => true | Some _ => false end.

(** [trie->trie_.swap(temp)] through a pointer known not to be null. *)
Definition swap_in_ptr (temp : LoudsTrie) : M (option Trie) unit :=
  fun p =>
  match p with
  | Some _ => (Ok tt, Some (mkTrie (Some temp)))
  | None => (Undefined, None)
  end.

(** [TrieIO::fread(std::FILE *file, Trie *trie)]. *)
Definition TrieIO_fread (file : option FILE) : M (option Trie) unit :=
  p <- get ;;
  MARISA_THROW_IF (is_null p) invalid_argument ;;;
  temp <- pure_res LoudsTrie_new ;;
  reader <- pure_res (Reader_open_file file) ;;
  temp <- on_temp temp (LoudsTrie_read reader) ;;
  swap_in_ptr temp.

(** [TrieIO::read(std::istream &stream, Trie *trie)]. *)
Definition TrieIO_read (stream : istream) : M (option Trie) unit :=
  p <- get ;;
  MARISA_THROW_IF (is_null p) invalid_argument ;;;
  temp <- pure_res LoudsTrie_new ;;
  reader <- pure_res (Reader_open_stream stream) ;;
  temp <- on_temp temp (LoudsTrie_read reader) ;;
  swap_in_ptr temp.

(** [fread(std::FILE *file, Trie *trie)]. *)
Definition fread (file : option FILE) : M (option Trie) unit :=
  p <- get ;;
  MARISA_THROW_IF (is_null file) invalid_argument ;;;
  MARISA_THROW_IF (is_null p) invalid_argument ;;;
  TrieIO_fread file.

(** [read(std::istream &stream, Trie *trie)]. *)
Definition read (stream : istream) : M (option Trie) unit :=
  p <- get ;;
  MARISA_THROW_IF (is_null p) invalid_argument ;;;
  TrieIO_read stream.

(** [operator>>(std::istream &stream, Trie &trie)]. *)
Definition extract (stream : istream) : M Trie unit :=
  fun t =>
  match read stream (Some t) with
  | (r, Some t') => (r, t')
  | (r, None) => (r, t)
  end.

(** [TrieSerializer::mmap(const char *filename, int flags)]. *)
Definition mmap (filename : option (list byte)) (flags : Z) : M Trie unit :=
  MARISA_THROW_IF (is_null filename) invalid_argument ;;;
  temp <- pure_res LoudsTrie_new ;;
  mapper <- pure_res (Mapper_open_filename filename flags) ;;
  temp <- on_temp temp (LoudsTrie_map mapper) ;;
  swap_in temp.

(** The argument check that opens [TrieSerializer::map]. *)
Definition map_check (ptr : pointer) (size : N) : M Trie unit :=
  MARISA_THROW_IF (is_null ptr && negb (size =? 0)) invalid_argument.

(** What follows the argument check in [TrieSerializer::map]. *)
Definition map_body (ptr : pointer) (size : N) : M Trie unit :=
  temp <- pure_res LoudsTrie_new ;;
  mapper <- pure_res (Mapper_open_memory ptr size) ;;
  temp <- on_temp temp (LoudsTrie_map mapper) ;;
  swap_in temp.

(** [TrieSerializer::map(const void *ptr, std::size_t size)]. *)
Definition map (ptr : pointer) (size : N) : M Trie unit :=
  map_check ptr size ;;; map_body ptr size.

(** [TrieSerializer::load(const char *filename)]. *)
Definition load (filename : option (list byte)) : M Trie unit :=
  MARISA_THROW_IF (is_null filename) invalid_argument ;;;
  temp <- pure_res LoudsTrie_new ;;
  reader <- pure_res (Reader_open_filename filename) ;;
  temp <- on_temp temp (LoudsTrie_read reader) ;;
  swap_in temp.

(** [TrieSerializer::read(int fd)]. *)
Definition read_fd (fd : Z) : M Trie unit :=
  MARISA_THROW_IF (Z.eqb fd (-1)) invalid_argument ;;;
  temp <- pure_res LoudsTrie_new ;;
  reader <- pure_res (Reader_open_fd fd) ;;
  temp <- on_temp temp (LoudsTrie_read reader) ;;
  swap_in temp.

(** The calls that replace the contents of a trie [T]: [T.build], the
    free functions [fread] and [read] applied to [&T], [stream >> T],
    and the [TrieSerializer] members [mmap], [map], [load] and [read] of
    a serializer bound to [T]. *)
Inductive call : Type :=
  | Build (keyset : Keyset) (config_flags : Z)
  | Fread (file : option FILE)
  | Read (stream : istream)
  | Extract (stream : istream)
  | Mmap (filename : option (list byte)) (flags : Z)
  | Map (ptr : pointer) (size : N)
  | Load (filename : option (list byte))
  | ReadFd (fd : Z).

(** A function taking [Trie *trie], called with [&T]. *)
Definition at_address (m : M (option Trie) unit) : M Trie unit :=
  fun t =>
  match m (Some t) with
  | (r, Some t') => (r, t')
  | (r, None) => (r, t)
  end.

Definition run (c : call) : M Trie unit :=
  match c with
  | Build keyset config_flags => build keyset config_flags
  | Fread file => at_address (fread file)
  | Read stream => at_address (read stream)
  | Extract stream => extract stream
  | Mmap filename flags => mmap filename flags
  | Map ptr size => map ptr size
  | Load filename => load filename
  | ReadFd fd => read_fd fd
  end.

End WithLoudsTrie.
End Trie.

(** ** A small instance of the parameters of [Trie]

    A trie that is the list of its keys, built only from flags that
    [Config::parse] accepts, and read from a source that starts with a
    well-formed vector of bytes. *)
Module ToyTrie.

Definition build_keys (keyset : list (list byte)) (config_flags : Z)
  : res (list (list byte)) :=
  match fst (Config.Config_of_flags spec_base_h config_flags) with
  | Ok _ => Ok keyset
  | Throw e => Throw e
  | AssertFail => AssertFail
  | Undefined => Undefined
  end.

Definition read_keys (reader : Reader) : M (list (list byte)) unit :=
  fun l =>
  match Vector.Vector_of_Reader (T := byte) [] reader with
  | (Ok _, (s, _)) =>
      match load (Vector.mem s) (Vector.const_objs_ (Vector.this s))
                 (Vector.size_ (Vector.this s)) with
      | Some bs => (Ok tt, [bs])
      | None => (Undefined, l)
      end
  | (Throw e, _) => (Throw e, l)
  | (AssertFail, _) => (AssertFail, l)
  | (Undefined, _) => (Undefined, l)
  end.

#[export] Instance toy : Grimoire := {|
  LoudsTrie := list (list byte);
  Keyset := list (list byte);
  Agent := nat;
  FILE := unit;
  istream := list byte;
  ReaderT := Reader;
  MapperT := Mapper;
  LoudsTrie_new := Ok [];
  LoudsTrie_build := build_keys;
  Reader_open_file := fun _ => Throw runtime_error;
  Reader_open_stream := fun s => Ok (mkReader s);
  Reader_open_filename := fun _ => Throw runtime_error;
  Reader_open_fd := fun _ => Throw runtime_error;
  Mapper_open_filename := fun _ _ => Throw runtime_error;
  Mapper_open_memory := fun p n => Ok (Mapper_.open p n);
  LoudsTrie_read := read_keys;
  LoudsTrie_map := fun _ => throw runtime_error;
  LoudsTrie_num_keys := fun l => N.of_nat (length l);
  LoudsTrie_lookup := fun l agent => Ok (Nat.ltb agent (length l), agent)
  |}.

End ToyTrie.

(** ** Writing a trie out, and moving one *)

(** [grimoire::Writer], its opening on a file, a stream, a file name or
    a descriptor, and [LoudsTrie::write] are not among the sources
    either.  They are the members of a second interface: any output
    stream and writer, each opening and the const member
    [LoudsTrie::write] free to end in any way; what they do to the
    outside world is not part of the state. *)
Class GrimoireOut (G : Grimoire) : Type := {
  ostream : Type;
  WriterT : Type;
  Writer_open_file : option FILE -> res WriterT;
  Writer_open_stream : ostream -> res WriterT;
  Writer_open_filename : option (list byte) -> res WriterT;
  Writer_open_fd : Z -> res WriterT;
  LoudsTrie_write : LoudsTrie -> WriterT -> res unit
}.

Module TrieOut.
Import Trie.
Section WithWriter.
Context {G : Grimoire} {GO : GrimoireOut G}.

(** [trie.trie_->write(writer)]. *)
Definition write_to (writer : WriterT) : M Trie unit :=
  t <- get ;;
  match trie_ t with
  | Some l => pure_res (LoudsTrie_write l writer)
  | None => fun s => (Undefined, s)
  end.

(** [TrieIO::fwrite(std::FILE *file, const Trie &trie)]. *)
Definition TrieIO_fwrite (file : option FILE) : M Trie unit :=
  MARISA_THROW_IF (is_null file) invalid_argument ;;;
  t <- get ;;
  MARISA_THROW_IF (is_null (trie_ t)) logic_error ;;;
  writer <- pure_res (Writer_open_file file) ;;
  write_to writer.

(** [TrieIO::write(std::ostream &stream, const Trie &trie)]. *)
Definition TrieIO_write (stream : ostream) : M Trie unit :=
  t <- get ;;
  MARISA_THROW_IF (is_null (trie_ t)) logic_error ;;;
  writer <- pure_res (Writer_open_stream stream) ;;
  write_to writer.

(** [fwrite(std::FILE *file, const Trie &trie)]. *)
Definition fwrite (file : option FILE) : M Trie unit :=
  MARISA_THROW_IF (is_null file) invalid_argument ;;;
  TrieIO_fwrite file.

(** [write(std::ostream &stream, const Trie &trie)]. *)
Definition write (stream : ostream) : M Trie unit := TrieIO_write stream.

(** [operator<<(std::ostream &stream, const Trie &trie)]. *)
Definition insert (stream : ostream) : M Trie unit := write stream.

(** [TrieSerializer::save(const char *filename) const]. *)
Definition save (filename : option (list byte)) : M Trie unit :=
  t <- get ;;
  MARISA_THROW_IF (is_null (trie_ t)) logic_error ;;;
  MARISA_THROW_IF (is_null filename) invalid_argument ;;;
  writer <- pure_res (Writer_open_filename filename) ;;
  write_to writer.

(** [TrieSerializer::write(int fd) const]. *)
Definition write_fd (fd : Z) : M Trie unit :=
  t <- get ;;
  MARISA_THROW_IF (is_null (trie_ t)) logic_error ;;;
  MARISA_THROW_IF (Z.eqb fd (-1)) invalid_argument ;;;
  writer <- pure_res (Writer_open_fd fd) ;;
  write_to writer.

(** [Trie(Trie &&other) noexcept = default]: the new object takes
    [other.trie_], and [other.trie_] is left null.  The result is the new
    object and [other] as it is left. *)
Definition Trie_move (other : Trie) : Trie * Trie := (other, mkTrie None).

(** The calls that write a trie out. *)
Inductive out_call : Type :=
  | Fwrite (file : option FILE)
  | Write (stream : ostream)
  | Insert (stream : ostream)
  | Save (filename : option (list byte))
  | WriteFd (fd : Z).

Definition run_out (c : out_call) : M Trie unit :=
  match c with
  | Fwrite file => fwrite file
  | Write stream => write stream
  | Insert stream => insert stream
  | Save filename => save filename
  | WriteFd fd => write_fd fd
  end.

End WithWriter.
End TrieOut.

Module ToyOut.
(** The writers of the key-list tries: every opening succeeds and
    [write] returns. *)
#[export] Instance toy_out : GrimoireOut ToyTrie.toy := {|
  ostream := unit;
  WriterT := unit;
  Writer_open_file := fun _ => Ok tt;
  Writer_open_stream := fun _ => Ok tt;
  Writer_open_filename := fun _ => Ok tt;
  Writer_open_fd := fun _ => Ok tt;
  LoudsTrie_write := fun _ _ => Ok tt
  |}.
End ToyOut.

(* ===================================================================== *)
(** * Part II: properties                                                 *)
(* ===================================================================== *)

(** ** [Config] *)

Module ConfigProps.
Import Config.

Section WithConstants.
Variable k : base_h.

Lemma lor4_absorb (a b c d : Z) :
  Z.lor (Z.lor (Z.lor (Z.lor a b) c) d) b = Z.lor (Z.lor (Z.lor a b) c) d
  /\ Z.lor (Z.lor (Z.lor (Z.lor a b) c) d) c
     = Z.lor (Z.lor (Z.lor a b) c) d
  /\ Z.lor (Z.lor (Z.lor (Z.lor a b) c) d) d
     = Z.lor (Z.lor (Z.lor a b) c) d.
Proof.
  repeat split; apply Z.bits_inj'; intros n _; rewrite !Z.lor_spec;
    destruct (Z.testbit a n), (Z.testbit b n), (Z.testbit c n),
      (Z.testbit d n); reflexivity.
Qed.

Lemma or_flags_default (bits : Z) :
  bits = MARISA_DEFAULT_CACHE k \/ bits = MARISA_DEFAULT_TAIL k \/
  bits = MARISA_DEFAULT_ORDER k ->
  or_flags bits (Config_default k) = (Ok tt, Config_default k).
Proof.
  intros Hb. unfold or_flags, modify, Config_default; cbn. do 2 f_equal.
  destruct (lor4_absorb (MARISA_DEFAULT_NUM_TRIES k)
    (MARISA_DEFAULT_CACHE k) (MARISA_DEFAULT_TAIL k)
    (MARISA_DEFAULT_ORDER k)) as (H1 & H2 & H3).
  destruct Hb as [-> | [-> | ->]]; assumption.
Qed.

(** Whatever the flags, and whether it throws or not, [parse] leaves a
    default-initialised [Config] with its default [flags_]. *)
Lemma parse_keeps_default (config_flags : Z) :
  snd (parse k config_flags (Config_default k)) = Config_default k.
Proof.
  unfold parse, bind, MARISA_THROW_IF, parse_num_tries, ret, throw.
  destruct (negb _); [reflexivity |].
  unfold parse_cache_level, parse_tail_mode, parse_node_order, ret, throw.
  repeat first
    [ rewrite or_flags_default by auto
    | match goal with
      | |- context [if ?b then _ else _] => destruct b
      end
    | reflexivity ].
Qed.

(** The result of [parse] does not depend on the object it is run on. *)
Lemma parse_result (config_flags : Z) (c : Config) :
  fst (parse k config_flags c) =
    if negb (Z.eqb (Z.land config_flags (Z.lnot (MARISA_CONFIG_MASK k))) 0)
    then Throw invalid_argument
    else if negb (existsb
              (Z.eqb (Z.land config_flags (MARISA_CACHE_LEVEL_MASK k)))
              [0%Z; MARISA_HUGE_CACHE k; MARISA_LARGE_CACHE k;
               MARISA_NORMAL_CACHE k; MARISA_SMALL_CACHE k;
               MARISA_TINY_CACHE k])
    then Throw invalid_argument
    else if negb (existsb
              (Z.eqb (Z.land config_flags (MARISA_TAIL_MODE_MASK k)))
              [0%Z; MARISA_TEXT_TAIL k; MARISA_BINARY_TAIL k])
    then Throw invalid_argument
    else if negb (existsb
              (Z.eqb (Z.land config_flags (MARISA_NODE_ORDER_MASK k)))
              [0%Z; MARISA_LABEL_ORDER k; MARISA_WEIGHT_ORDER k])
    then Throw invalid_argument
    else Ok tt.
Proof.
  unfold parse, bind, MARISA_THROW_IF, parse_num_tries, ret, throw.
  destruct (negb _); [reflexivity |].
  unfold parse_cache_level, parse_tail_mode, parse_node_order, or_flags,
    modify, ret, throw; cbn [existsb].
  repeat match goal with
         | |- context [Z.eqb ?a ?b] => destruct (Z.eqb a b); cbn
         end; reflexivity.
Qed.

Lemma existsb_eqb_cache (x : Z) :
  existsb (Z.eqb x)
    [0%Z; MARISA_HUGE_CACHE k; MARISA_LARGE_CACHE k; MARISA_NORMAL_CACHE k;
     MARISA_SMALL_CACHE k; MARISA_TINY_CACHE k] = true <->
  (x = 0%Z \/ x = MARISA_HUGE_CACHE k \/ x = MARISA_LARGE_CACHE k \/
   x = MARISA_NORMAL_CACHE k \/ x = MARISA_SMALL_CACHE k \/
   x = MARISA_TINY_CACHE k).
Proof.
  cbn [existsb]. rewrite !orb_true_iff, !Z.eqb_eq. intuition discriminate.
Qed.

Lemma existsb_eqb_3 (x a b : Z) :
  existsb (Z.eqb x) [0%Z; a; b] = true <-> (x = 0%Z \/ x = a \/ x = b).
Proof.
  cbn [existsb]. rewrite !orb_true_iff, !Z.eqb_eq. intuition discriminate.
Qed.

(** A flags value that is valid in the specification's sense is
    accepted. *)
Lemma parse_spec_valid (config_flags : Z) (c : Config) :
  spec_valid k config_flags -> fst (parse k config_flags c) = Ok tt.
Proof.
  intros (Hm & Hc & Ht & Ho & _). rewrite parse_result.
  unfold inside_mask in Hm. apply Z.eqb_eq in Hm. rewrite Hm.
  apply existsb_eqb_cache in Hc. apply existsb_eqb_3 in Ht, Ho.
  rewrite Hc, Ht, Ho. reflexivity.
Qed.

(** C2 (amended): [parse] throws [std::invalid_argument] exactly when
    [config_flags] has a bit outside the reserved mask or its
    cache-level, tail-mode or node-order field is neither zero nor one
    of the enumerators; otherwise it returns normally.  A zero field,
    that of [num_tries] included, is accepted and stands for the
    default. *)
Theorem parse_throws_iff (config_flags : Z) (c : Config) :
  (fst (parse k config_flags c) = Ok tt <->
     inside_mask k config_flags /\ cache_level_accepted k config_flags /\
     tail_mode_accepted k config_flags /\
     node_order_accepted k config_flags) /\
  (fst (parse k config_flags c) = Throw invalid_argument <->
     ~ (inside_mask k config_flags /\ cache_level_accepted k config_flags /\
        tail_mode_accepted k config_flags /\
        node_order_accepted k config_flags)).
Proof.
  rewrite parse_result.
  unfold inside_mask, cache_level_accepted, tail_mode_accepted,
    node_order_accepted; cbv zeta.
  rewrite <- existsb_eqb_cache, <- !existsb_eqb_3, <- Z.eqb_eq.
  destruct (Z.eqb (Z.land config_flags _) 0); cbn [negb];
    [| split; split; [discriminate | intros (? & _); discriminate
                     | intros _ (? & _); discriminate | reflexivity]].
  repeat match goal with
         | |- context [existsb ?f ?l] => destruct (existsb f l); cbn [negb]
         end;
    split; split; intros; try discriminate; try reflexivity;
    try tauto; try (intuition discriminate).
Qed.

(** After [parse] on a default-initialised [Config] every accessor
    still answers from the default member initialiser. *)
Lemma accessors_after_parse (config_flags : Z) :
  let c := snd (Config_of_flags k config_flags) in
  num_tries k c = num_tries k (Config_default k) /\
  cache_level k c = cache_level k (Config_default k) /\
  tail_mode k c = tail_mode k (Config_default k) /\
  node_order k c = node_order k (Config_default k).
Proof.
  cbv zeta. unfold Config_of_flags. rewrite parse_keeps_default. tauto.
Qed.

(** X22: whatever [parse] and [clear] calls are made on a
    default-constructed [Config], returning or throwing, the object keeps
    the flags of its default member initialiser, and [flags()] and the
    four accessors keep answering from them. *)
Theorem config_keeps_defaults (cs : list call) :
  let c := run_all k cs (Config_default k) in
  c = Config_default k /\
  flags c = flags (Config_default k) /\
  num_tries k c = num_tries k (Config_default k) /\
  cache_level k c = cache_level k (Config_default k) /\
  tail_mode k c = tail_mode k (Config_default k) /\
  node_order k c = node_order k (Config_default k).
Proof.
  cbv zeta.
  assert (E : run_all k cs (Config_default k) = Config_default k).
  { induction cs as [| x cs IH]; [reflexivity |]. cbn [run_all].
    destruct x as [config_flags |]; cbn [run].
    - rewrite parse_keeps_default. exact IH.
    - exact IH. }
  rewrite E. tauto.
Qed.

End WithConstants.

(** C2, as stated, fails at [config_flags = 0]: the [num_tries] field is
    0, which the specification counts as invalid, yet [parse] returns
    normally. *)
Lemma parse_zero_flags_accepted :
  ~ (fst (parse spec_base_h 0 (Config_default spec_base_h))
     = Throw invalid_argument
   <-> ~ spec_valid spec_base_h 0).
Proof.
  intros [_ H].
  assert (Hinv : ~ spec_valid spec_base_h 0).
  { intros (_ & _ & _ & _ & Hn). change (1 <= 0 <= 7)%Z in Hn. lia. }
  specialize (H Hinv). vm_compute in H. discriminate H.
Qed.

(** C1: with the constants of the specification's table, [parse]
  accepts flags asking for one trie, the huge cache, the text tail and
  the label order ([0x11081]), and the four accessors then answer
  3, normal, binary and weight: the requested values are not stored. *)
Theorem parse_drops_requested_values :
  let flags := 0x11081%Z in
  let c := snd (Config_of_flags spec_base_h flags) in
  fst (Config_of_flags spec_base_h flags) = Ok tt /\
  Z.land flags (MARISA_NUM_TRIES_MASK spec_base_h) = 1%Z /\
  num_tries spec_base_h c = 3%Z /\
  Z.land flags (MARISA_CACHE_LEVEL_MASK spec_base_h)
  = MARISA_HUGE_CACHE spec_base_h /\
  cache_level spec_base_h c = MARISA_NORMAL_CACHE spec_base_h /\
  Z.land flags (MARISA_TAIL_MODE_MASK spec_base_h)
  = MARISA_TEXT_TAIL spec_base_h /\
  tail_mode spec_base_h c = MARISA_BINARY_TAIL spec_base_h /\
  Z.land flags (MARISA_NODE_ORDER_MASK spec_base_h)
  = MARISA_LABEL_ORDER spec_base_h /\
  node_order spec_base_h c = MARISA_WEIGHT_ORDER spec_base_h.
Proof. vm_compute. repeat split. Qed.

End ConfigProps.

(** ** Memory and [Vector<T>] *)

Module VectorProps.
Import Vector.

(** *** Little-endian integers *)

Lemma to_N_byte_of_N (n : N) : Byte.to_N (byte_of_N n) = n mod 256.
Proof.
  unfold byte_of_N. destruct (Byte.of_N (n mod 256)) as [b |] eqn:E.
  - apply Byte.to_of_N in E. exact E.
  - apply Byte.of_N_None_iff in E.
    pose proof (N.mod_upper_bound n 256). lia.
Qed.

Lemma le_decode_encode (n : nat) (x : N) :
  le_decode (le_encode n x) = x mod 256 ^ N.of_nat n.
Proof.
  revert x. induction n as [| n IH]; intros x.
  - cbn. rewrite N.mod_1_r. reflexivity.
  - cbn [le_encode le_decode]. rewrite to_N_byte_of_N, IH.
    rewrite Nat2N.inj_succ, N.pow_succ_r'.
    rewrite N.Div0.mod_mul_r. lia.
Qed.

Lemma length_le_encode (n : nat) (x : N) : length (le_encode n x) = n.
Proof. revert x; induction n; intros; cbn; auto. Qed.

Lemma le_decode_bound (bs : list byte) :
  le_decode bs < 256 ^ N.of_nat (length bs).
Proof.
  induction bs as [| b bs IH].
  - cbn. lia.
  - cbn [le_decode length]. rewrite Nat2N.inj_succ, N.pow_succ_r'.
    pose proof (Byte.to_N_bounded b). lia.
Qed.

(** *** Stepping through a member function *)

Lemma bind_ok {S A B} (m : M S A) (k : A -> M S B) s a s' :
  m s = (Ok a, s') -> bind m k s = k a s'.
Proof. unfold bind. intros ->. reflexivity. Qed.

Lemma bind_inv {S A B} (m : M S A) (k : A -> M S B) s b s'' :
  bind m k s = (Ok b, s'') ->
  exists a s', m s = (Ok a, s') /\ k a s' = (Ok b, s'').
Proof.
  unfold bind. destruct (m s) as [[a | e | |] s']; try discriminate.
  intros Hk. exists a, s'. auto.
Qed.

Lemma throw_if_inv {S} (c : bool) (e : exn) (s s' : S) (u : unit) :
  MARISA_THROW_IF c e s = (Ok u, s') -> c = false /\ s' = s.
Proof.
  unfold MARISA_THROW_IF. destruct c; [discriminate |].
  intros [= _ <-]. auto.
Qed.

Lemma assert_true {S} (c : bool) (s : S) :
  c = true -> assert c s = (Ok tt, s).
Proof. intros ->. reflexivity. Qed.

(** *** Loads and stores *)

Lemma load_block (h : heap) (b : nat) (o n : N) (bs : list byte) :
  h !! b = Some (Some bs) -> o + n <= N.of_nat (length bs) ->
  load h (Some (mkAddr b o)) n
  = Some (take (N.to_nat n) (drop (N.to_nat o) bs)).
Proof.
  intros Hb Hle. unfold load. destruct (N.eqb_spec n 0) as [-> | Hn].
  - reflexivity.
  - cbn. rewrite Hb.
    destruct (N.leb_spec (o + n) (N.of_nat (length bs)));
      [reflexivity | lia].
Qed.

Lemma load_length (h : heap) (p : pointer) (n : N) (bs : list byte) :
  load h p n = Some bs -> N.of_nat (length bs) = n.
Proof.
  unfold load. destruct (N.eqb_spec n 0) as [-> | Hn].
  - intros [= <-]. reflexivity.
  - destruct p as [a |]; [| discriminate].
    destruct (h !! blk a) as [[old |] |]; try discriminate.
    destruct (N.leb_spec (off a + n) (N.of_nat (length old))); [| discriminate].
    intros [= <-]. rewrite length_take, length_drop. lia.
Qed.

Lemma load_sub (h : heap) (p : pointer) (n o m : N) (bs : list byte) :
  load h p n = Some bs -> o + m <= n ->
  load h (ptr_add p o) m = Some (take (N.to_nat m) (drop (N.to_nat o) bs)).
Proof.
  intros Hl Hle. unfold load in *.
  destruct (N.eqb_spec m 0) as [-> | Hm]; [reflexivity |].
  destruct (N.eqb_spec n 0) as [-> | Hn]; [lia |].
  destruct p as [a |]; [| discriminate]. cbn.
  destruct (h !! blk a) as [[old |] |]; try discriminate.
  destruct (N.leb_spec (off a + n) (N.of_nat (length old))); [| discriminate].
  injection Hl as <-.
  destruct (N.leb_spec (off a + o + m) (N.of_nat (length old))); [| lia].
  f_equal. rewrite skipn_firstn_comm, take_take, drop_drop.
  f_equal; [lia | f_equal; lia].
Qed.

Lemma load_app (h k : heap) (p : pointer) (n : N) (bs : list byte) :
  load h p n = Some bs -> load (h ++ k) p n = Some bs.
Proof.
  unfold load. destruct (n =? 0); [auto |].
  destruct p as [a |]; [| discriminate].
  destruct (h !! blk a) as [[old |] |] eqn:E; try discriminate.
  rewrite (lookup_app_l_Some _ _ _ _ E). auto.
Qed.

Lemma store_block (h : heap) (b : nat) (o : N) (bs old : list byte) :
  h !! b = Some (Some old) ->
  o + N.of_nat (length bs) <= N.of_nat (length old) ->
  store h (Some (mkAddr b o)) bs =
    Some (<[b := Some (take (N.to_nat o) old ++ bs ++
                       drop (N.to_nat o + length bs) old)]> h).
Proof.
  intros Hb Hle. unfold store. destruct bs as [| x bs].
  - cbn. rewrite Nat.add_0_r, take_drop, list_insert_id by assumption.
    reflexivity.
  - cbn [blk off]. rewrite Hb.
    destruct (N.leb_spec (o + N.of_nat (length (x :: bs)))
                         (N.of_nat (length old)));
      [reflexivity | lia].
Qed.

Lemma store_fresh (h : heap) (o : N) (bs old : list byte) :
  o + N.of_nat (length bs) <= N.of_nat (length old) ->
  store (h ++ [Some old]) (Some (mkAddr (length h) o)) bs =
    Some (h ++ [Some (take (N.to_nat o) old ++ bs ++
                      drop (N.to_nat o + length bs) old)]).
Proof.
  intros Hle. rewrite (store_block _ _ _ _ old).
  - f_equal. replace (length h) with (length h + 0)%nat at 1 by lia.
    rewrite insert_app_r. reflexivity.
  - apply list_lookup_middle. reflexivity.
  - assumption.
Qed.

(** *** The mask of [io_size] *)

Lemma land_mask32 (x : N) :
  x < 2 ^ 32 -> N.land x 0xFFFFFFF8 = 8 * (x / 8).
Proof.
  intros Hx. apply N.bits_inj. intros i.
  change 0xFFFFFFF8 with (N.shiftl (N.ones 29) 3).
  change 8 with (2 ^ 3).
  rewrite N.mul_comm, <- N.shiftl_mul_pow2, <- N.shiftr_div_pow2.
  rewrite N.land_spec.
  destruct (N.lt_ge_cases i 3) as [Hi | Hi].
  - rewrite !N.shiftl_spec_low by assumption. apply andb_false_r.
  - rewrite !N.shiftl_spec_high' by assumption.
    rewrite N.shiftr_spec', N.sub_add by assumption.
    destruct (N.lt_ge_cases (i - 3) 29) as [Hj | Hj].
    + rewrite N.ones_spec_low by assumption. apply andb_true_r.
    + rewrite N.ones_spec_high by assumption. rewrite andb_false_r.
      symmetry. destruct (N.eq_dec x 0) as [-> | Hx0]; [apply N.bits_0 |].
      apply N.bits_above_log2.
      apply N.lt_le_trans with 32; [apply N.log2_lt_pow2; lia | lia].
Qed.

Section WithT.
Context {T : Type} `{Trivial T}.

(** *** Arithmetic on [std::size_t] *)

Lemma size_t_small n : n <= SIZE_MAX -> size_t n = n.
Proof. unfold size_t, SIZE_MAX. intros. apply N.mod_small. lia. Qed.

Lemma max_size_bytes n : n <= max_size -> sizeof T * n <= SIZE_MAX.
Proof.
  unfold max_size. intros Hn. pose proof sizeof_pos.
  pose proof (N.Div0.mul_div_le SIZE_MAX (sizeof T)). nia.
Qed.

Lemma bytes_of_small n : n <= max_size -> bytes_of n = sizeof T * n.
Proof.
  intros. unfold bytes_of. apply size_t_small, max_size_bytes; assumption.
Qed.

Lemma max_size_le : max_size <= SIZE_MAX.
Proof.
  unfold max_size. pose proof sizeof_pos.
  apply N.Div0.div_le_upper_bound. unfold SIZE_MAX in *. nia.
Qed.

Lemma size_sub_small a b : b <= a -> a <= SIZE_MAX -> size_sub a b = a - b.
Proof.
  unfold size_sub, size_t, SIZE_MAX. intros.
  rewrite (N.mod_small b) by lia.
  replace (a + 2^64 - b) with ((a - b) + 1 * 2^64) by lia.
  rewrite N.Div0.mod_add. apply N.mod_small. lia.
Qed.

(** *** [realloc] *)

(** The elements of an owned vector can be read, through [const_objs_]
    as well as through [objs()]. *)
Lemma owned_payload (s : vstate) :
  owned_wf s ->
  load (mem s) (const_objs_ (this s)) (bytes_of (size_ (this s)))
    = Some (payload s) /\
  load (mem s)
       (match buf_ (this s) with
        | Some b => Some (mkAddr b 0)
        | None => None
        end)
       (bytes_of (size_ (this s)))
    = Some (payload s).
Proof.
  intros (Hsz & Hcap & Hbuf). unfold payload.
  rewrite bytes_of_small by lia.
  destruct (buf_ (this s)) as [b |].
  - destruct Hbuf as (-> & bs & Hb & Hlen).
    rewrite (load_block _ _ _ _ bs) by (assumption || nia). auto.
  - destruct Hbuf as (-> & Hc0). replace (size_ (this s)) with 0 by lia.
    rewrite N.mul_0_r. auto.
Qed.

Lemma peek_ok (p : pointer) (n : N) (bs : list byte) (s : vstate) :
  load (mem s) p n = Some bs -> peek p n s = (Ok bs, s).
Proof. unfold peek. intros ->. reflexivity. Qed.

Lemma poke_ok (p : pointer) (bs : list byte) (h' : heap) (s : vstate) :
  store (mem s) p bs = Some h' -> poke p bs s = (Ok tt, mkState (this s) h').
Proof. unfold poke. intros ->. reflexivity. Qed.

Lemma realloc_ok (n : N) (s : vstate) :
  owned_wf s -> size_ (this s) <= n -> n <= max_size ->
  realloc n s = (Ok tt, realloc_state n s).
Proof.
  intros Hwf Hsz Hn.
  destruct (owned_payload s Hwf) as [_ Hload].
  pose proof (load_length _ _ _ _ Hload) as Hlen.
  pose proof max_size_le as Hmax.
  pose proof (max_size_bytes n Hn) as Hbn.
  rewrite bytes_of_small in Hload, Hlen by lia.
  unfold realloc.
  erewrite bind_ok by reflexivity.
  erewrite bind_ok by (apply assert_true, N.leb_le; assumption).
  erewrite bind_ok by (apply assert_true, N.leb_le; assumption).
  erewrite bind_ok by reflexivity.
  erewrite bind_ok by reflexivity.
  erewrite bind_ok.
  2:{ unfold copy_n. cbn [this mem buf_].
      rewrite (bytes_of_small (size_ (this s))) by lia.
      erewrite bind_ok by (apply peek_ok, load_app, Hload).
      apply poke_ok. cbn [mem]. apply store_fresh.
      rewrite length_replicate, bytes_of_small by lia. nia. }
  erewrite bind_ok.
  2:{ unfold memset0, index, ptr_add. cbn [blk off].
      rewrite bytes_of_small, size_sub_small, size_t_small by (lia || nia).
      apply poke_ok. cbn [mem]. apply store_fresh.
      rewrite !length_replicate, length_app, length_app, length_drop,
        length_replicate, bytes_of_small by lia. nia. }
  unfold set_buf, set_const_objs, set_capacity, modify, bind.
  cbn [this mem buf_ const_objs_ size_ capacity_].
  unfold realloc_state. do 4 f_equal.
  change (N.to_nat 0) with 0%nat. cbn [take app Nat.add]. rewrite N.add_0_l.
  assert (Hl : N.to_nat (sizeof T * size_ (this s)) = length (payload s))
    by lia.
  rewrite Hl, !take_0, !app_nil_l, take_app_length, drop_ge, app_nil_r.
  2:{ rewrite !length_replicate, length_app, length_drop, length_replicate,
        bytes_of_small by lia. nia. }
  rewrite (N.mul_comm (sizeof T)). reflexivity.
Qed.
Lemma owned_not_fixed (s : vstate) : owned_wf s -> fixed (this s) = false.
Proof.
  intros (_ & _ & Hb). unfold fixed.
  destruct (buf_ (this s)); [reflexivity |]. destruct Hb as [-> _]. reflexivity.
Qed.

Lemma owned_buf_lt (s : vstate) (b : nat) :
  owned_wf s -> buf_ (this s) = Some b -> (b < length (mem s))%nat.
Proof.
  intros (_ & _ & Hb) E. rewrite E in Hb. destruct Hb as (_ & bs & Hl & _).
  apply lookup_lt_Some in Hl. exact Hl.
Qed.

Lemma release_snoc_lookup (h : heap) (x : option (list byte)) (b : option nat) :
  (forall b', b = Some b' -> (b' < length h)%nat) ->
  release (h ++ [x]) b !! length h = Some x.
Proof.
  intros Hb. destruct b as [b' |]; cbn.
  - specialize (Hb b' eq_refl). rewrite list_lookup_insert_ne by lia.
    apply list_lookup_middle. reflexivity.
  - apply list_lookup_middle. reflexivity.
Qed.

Lemma payload_length (s : vstate) :
  owned_wf s -> N.of_nat (length (payload s)) = sizeof T * size_ (this s).
Proof.
  intros Hwf. destruct (owned_payload s Hwf) as [Hl _].
  apply load_length in Hl. rewrite Hl.
  destruct Hwf as (? & ? & _). apply bytes_of_small. lia.
Qed.

Lemma realloc_state_block (n : N) (s : vstate) :
  owned_wf s ->
  mem (realloc_state n s) !! length (mem s)
  = Some (Some (payload s ++
        replicate (N.to_nat (sizeof T * (n - size_ (this s)))) x00)).
Proof.
  intros Hwf. unfold realloc_state; cbn [mem].
  apply release_snoc_lookup. intros b' Hb'. eapply owned_buf_lt; eassumption.
Qed.

Lemma realloc_state_wf (n : N) (s : vstate) :
  owned_wf s -> size_ (this s) <= n -> n <= max_size ->
  owned_wf (realloc_state n s).
Proof.
  intros Hwf Hsz Hn. pose proof (payload_length s Hwf) as Hlen.
  pose proof (realloc_state_block n s Hwf) as Hblk.
  unfold owned_wf. cbn [realloc_state this buf_ const_objs_ size_ capacity_].
  repeat split; try assumption.
  eexists. split; [exact Hblk |].
  rewrite length_app, length_replicate. nia.
Qed.

Lemma realloc_state_payload (n : N) (s : vstate) :
  owned_wf s -> size_ (this s) <= n -> n <= max_size ->
  payload (realloc_state n s) = payload s.
Proof.
  intros Hwf Hsz Hn. pose proof (payload_length s Hwf) as Hlen.
  pose proof (realloc_state_block n s Hwf) as Hblk.
  unfold payload at 1. cbn [realloc_state this const_objs_ size_].
  rewrite bytes_of_small by lia.
  erewrite load_block;
    [| exact Hblk | rewrite length_app, length_replicate; nia].
  change (N.to_nat 0) with 0%nat. rewrite drop_0.
  replace (N.to_nat (sizeof T * size_ (this s))) with (length (payload s))
    by lia.
  rewrite take_app_length. reflexivity.
Qed.

(** What the elements are, in terms of the payload. *)
Lemma nth_payload (v : Vector) (h : heap) (bs : list byte) (i : N) :
  load h (const_objs_ v) (bytes_of (size_ v)) = Some bs ->
  size_ v <= max_size -> i < size_ v ->
  nth v h i = Some (of_bytes (take (N.to_nat (sizeof T))
                                   (drop (N.to_nat (sizeof T * i)) bs))).
Proof.
  intros Hl Hsz Hi. unfold nth, at_const.
  erewrite bind_ok by reflexivity.
  erewrite bind_ok by (apply assert_true, N.ltb_lt; assumption).
  cbn [this].
  erewrite bind_ok.
  2:{ apply peek_ok. cbn [mem]. unfold index. rewrite bytes_of_small by lia.
      eapply load_sub; [exact Hl |]. rewrite bytes_of_small by lia. nia. }
  reflexivity.
Qed.

Lemma nth_owned (s : vstate) (i : N) :
  owned_wf s -> i < size_ (this s) ->
  nth (this s) (mem s) i
  = Some (of_bytes (take (N.to_nat (sizeof T))
                         (drop (N.to_nat (sizeof T * i)) (payload s)))).
Proof.
  intros Hwf Hi. destruct (owned_payload s Hwf) as [Hl _].
  destruct Hwf as (? & ? & _).
  apply nth_payload; [assumption | lia | assumption].
Qed.


(** *** [reserve] and [shrink] *)

Lemma grown_bounds (cur n : N) :
  cur < n -> n <= max_size -> cur <= max_size ->
  n <= grown cur n /\ grown cur n <= max_size.
Proof.
  intros Hlt Hn Hc. unfold grown. pose proof max_size_le as Hm.
  destruct (N.ltb_spec (n / 2) cur) as [H1 | H1]; [| lia].
  destruct (N.ltb_spec (max_size / 2) cur) as [H2 | H2]; [lia |].
  pose proof (N.Div0.mul_div_le max_size 2).
  rewrite size_t_small by lia.
  pose proof (N.div_mod n 2 ltac:(lia)).
  pose proof (N.mod_upper_bound n 2 ltac:(lia)).
  lia.
Qed.

Lemma reserve_unfold (n : N) (s : vstate) :
  owned_wf s ->
  reserve n s =
    if n <=? capacity_ (this s) then (Ok tt, s)
    else if n <=? max_size
         then (Ok tt, realloc_state (grown (capacity_ (this s)) n) s)
         else (AssertFail, s).
Proof.
  intros Hwf. unfold reserve.
  erewrite bind_ok by reflexivity.
  erewrite bind_ok by (apply assert_true; rewrite owned_not_fixed; auto).
  destruct (N.leb_spec n (capacity_ (this s))) as [Hle | Hgt]; [reflexivity |].
  destruct (N.leb_spec n max_size) as [Hn | Hn].
  - erewrite bind_ok by (apply assert_true; reflexivity).
    fold (grown (capacity_ (this s)) n).
    destruct Hwf as (Hs & Hc & Hb).
    destruct (grown_bounds (capacity_ (this s)) n) as [? ?]; try lia.
    apply realloc_ok; [repeat split; assumption | lia | lia].
  - reflexivity.
Qed.

(** [reserve(n)] on an owned vector either trips its assertion, with
    nothing changed, or returns with room for [n] elements and the same
    elements. *)
Lemma reserve_cases (n : N) (s : vstate) :
  owned_wf s ->
  (max_size < n /\ reserve n s = (AssertFail, s)) \/
  (n <= max_size /\ exists s',
     reserve n s = (Ok tt, s') /\ owned_wf s' /\
     size_ (this s') = size_ (this s) /\ payload s' = payload s /\
     n <= capacity_ (this s')).
Proof.
  intros Hwf. rewrite (reserve_unfold n s Hwf).
  pose proof Hwf as (Hs & Hc & Hb).
  destruct (N.leb_spec n (capacity_ (this s))) as [Hle | Hgt].
  - right. split; [lia |]. exists s. auto.
  - destruct (N.leb_spec n max_size) as [Hn | Hn]; [right | left; auto].
    destruct (grown_bounds (capacity_ (this s)) n) as [? ?]; try lia.
    split; [assumption |]. eexists. split; [reflexivity |].
    split; [apply realloc_state_wf; auto; lia |].
    split; [reflexivity |].
    split; [apply realloc_state_payload; auto; lia | assumption].
Qed.

Lemma shrink_unfold (s : vstate) :
  owned_wf s ->
  shrink s = (Ok tt, if size_ (this s) =? capacity_ (this s)
                     then s else realloc_state (size_ (this s)) s).
Proof.
  intros Hwf. unfold shrink.
  erewrite bind_ok by reflexivity.
  erewrite bind_ok by (unfold MARISA_THROW_IF; rewrite owned_not_fixed; auto).
  destruct (N.eqb_spec (size_ (this s)) (capacity_ (this s))); cbn [negb];
    [reflexivity |].
  destruct Hwf as (Hs & Hc & Hb).
  apply realloc_ok; [repeat split; assumption | lia | lia].
Qed.

Lemma shrink_ok (s : vstate) :
  owned_wf s ->
  exists s', shrink s = (Ok tt, s') /\ owned_wf s' /\
    size_ (this s') = size_ (this s) /\ payload s' = payload s /\
    capacity_ (this s') = size_ (this s).
Proof.
  intros Hwf. rewrite (shrink_unfold s Hwf).
  pose proof Hwf as (Hs & Hc & Hb).
  eexists. split; [reflexivity |].
  destruct (N.eqb_spec (size_ (this s)) (capacity_ (this s))) as [E | E].
  - auto.
  - split; [apply realloc_state_wf; auto; lia |].
    split; [reflexivity |].
    split; [apply realloc_state_payload; auto; lia | reflexivity].
Qed.

(** *** Writes into the owned array *)

Lemma poke_block (s : vstate) (b : nat) (o : N) (bs old : list byte) :
  mem s !! b = Some (Some old) ->
  o + N.of_nat (length bs) <= N.of_nat (length old) ->
  poke (Some (mkAddr b o)) bs s =
    (Ok tt, mkState (this s)
       (<[b := Some (take (N.to_nat o) old ++ bs ++
                     drop (N.to_nat o + length bs) old)]> (mem s))).
Proof. intros Hb Hle. apply poke_ok, store_block; assumption. Qed.

(** A non-empty owned array: where it is and what it holds. *)
Lemma owned_block (s : vstate) :
  owned_wf s -> 0 < capacity_ (this s) ->
  exists b old, buf_ (this s) = Some b /\
    const_objs_ (this s) = Some (mkAddr b 0) /\
    mem s !! b = Some (Some old) /\
    N.of_nat (length old) = sizeof T * capacity_ (this s) /\
    payload s = take (N.to_nat (sizeof T * size_ (this s))) old.
Proof.
  intros Hwf Hc. pose proof Hwf as (Hs & Hm & Hb). unfold payload.
  destruct (buf_ (this s)) as [b |]; [| lia].
  destruct Hb as (Hp & old & Hl & Hlen). exists b, old.
  rewrite Hp, bytes_of_small by lia.
  rewrite (load_block _ _ _ _ old) by (assumption || nia).
  change (N.to_nat 0) with 0%nat. rewrite drop_0. auto.
Qed.

(** Overwriting bytes of the owned array at or after the end of the
    elements keeps the representation and the elements. *)
Lemma poke_tail (s : vstate) (b : nat) (o : N) (bs : list byte) :
  owned_wf s -> buf_ (this s) = Some b ->
  sizeof T * size_ (this s) <= o ->
  o + N.of_nat (length bs) <= sizeof T * capacity_ (this s) ->
  exists s', poke (Some (mkAddr b o)) bs s = (Ok tt, s') /\
    this s' = this s /\ owned_wf s' /\ payload s' = payload s /\
    length (mem s') = length (mem s) /\
    exists old, mem s !! b = Some (Some old) /\
      mem s' !! b = Some (Some (take (N.to_nat o) old ++ bs ++
                                drop (N.to_nat o + length bs) old)).
Proof.
  intros Hwf Hbuf Ho Hle. pose proof Hwf as (Hs & Hm & Hb).
  rewrite Hbuf in Hb. destruct Hb as (Hp & old & Hl & Hlen).
  pose proof (lookup_lt_Some _ _ _ Hl) as Hlt.
  assert (Hsc : sizeof T * size_ (this s) <= sizeof T * capacity_ (this s))
    by (apply N.mul_le_mono_l; assumption).
  eexists. split; [apply (poke_block s b o bs old); [assumption | lia] |].
  cbn [this mem].
  assert (Hnew : length (take (N.to_nat o) old ++ bs ++
                         drop (N.to_nat o + length bs) old) = length old).
  { rewrite !length_app, length_take, length_drop.
    clear - Hle Hlen. lia. }
  split; [reflexivity |].
  split.
  { unfold owned_wf; cbn [this mem]. rewrite Hbuf.
    repeat split; try assumption.
    eexists. split; [apply list_lookup_insert_eq; assumption |].
    rewrite Hnew. assumption. }
  split.
  { unfold payload; cbn [this mem]. rewrite Hp, bytes_of_small by lia.
    rewrite (load_block (mem s) _ _ _ old)
      by (assumption || (clear - Hsc Hlen; lia)).
    erewrite load_block;
      [| apply list_lookup_insert_eq; assumption
       | rewrite Hnew; clear - Hsc Hlen; lia].
    change (N.to_nat 0) with 0%nat. rewrite !drop_0.
    rewrite take_app_le by (rewrite length_take; clear - Hsc Hlen Ho Hle; lia).
    rewrite take_take. do 2 f_equal. clear - Ho. lia. }
  split; [apply length_insert |].
  exists old. split; [assumption | apply list_lookup_insert_eq; assumption].
Qed.

(** *** [pop_back] *)

Lemma pop_back_unfold (s : vstate) :
  owned_wf s ->
  pop_back s =
    if size_ (this s) =? 0 then (AssertFail, s)
    else (Ok tt, mkState (mkVector (buf_ (this s)) (const_objs_ (this s))
                            (size_ (this s) - 1) (capacity_ (this s)))
                         (mem s)).
Proof.
  intros Hwf. unfold pop_back.
  erewrite bind_ok by reflexivity.
  erewrite bind_ok by (apply assert_true; rewrite owned_not_fixed; auto).
  destruct (N.eqb_spec (size_ (this s)) 0) as [E | E]; [reflexivity |].
  erewrite bind_ok by reflexivity.
  unfold set_size, modify. do 3 f_equal.
  destruct Hwf as (Hs & Hm & _). pose proof max_size_le.
  apply size_sub_small; lia.
Qed.

Lemma pop_back_wf (s s' : vstate) :
  owned_wf s -> pop_back s = (Ok tt, s') ->
  owned_wf s' /\ size_ (this s') = size_ (this s) - 1 /\ 0 < size_ (this s).
Proof.
  intros Hwf. rewrite (pop_back_unfold s Hwf).
  destruct (N.eqb_spec (size_ (this s)) 0) as [E | E]; [discriminate |].
  intros [= <-]. cbn [this mem size_]. split; [| lia].
  destruct Hwf as (Hs & Hm & Hb).
  unfold owned_wf; cbn [this mem buf_ const_objs_ size_ capacity_].
  repeat split; [lia | assumption | exact Hb].
Qed.

(** *** [push_back] *)

Lemma push_back_cases (x : T) (s : vstate) :
  owned_wf s ->
  (max_size <= size_ (this s) /\ push_back x s = (AssertFail, s)) \/
  (size_ (this s) < max_size /\ exists s',
     push_back x s = (Ok tt, s') /\ owned_wf s' /\
     size_ (this s') = size_ (this s) + 1 /\
     payload s' = payload s ++ to_bytes x).
Proof.
  intros Hwf. pose proof Hwf as (Hs & Hm & Hb). pose proof max_size_le as Hmax.
  unfold push_back.
  erewrite bind_ok by reflexivity.
  erewrite bind_ok by (apply assert_true; rewrite owned_not_fixed; auto).
  destruct (N.ltb_spec (size_ (this s)) max_size) as [Hlt | Hge];
    [right | left; auto].
  split; [assumption |].
  erewrite bind_ok by reflexivity.
  rewrite size_t_small by lia.
  destruct (reserve_cases (size_ (this s) + 1) s Hwf)
    as [[? _] | (_ & s1 & Hr & Hwf1 & Hsz1 & Hpl1 & Hcap1)]; [lia |].
  erewrite bind_ok by exact Hr.
  destruct (owned_block s1 Hwf1 ltac:(lia))
    as (b & old & Hbuf1 & Hp1 & Hl1 & Hlen1 & Hpay1).
  unfold objs. erewrite (bind_ok (get ;;; _)) .
  2:{ erewrite bind_ok by reflexivity. rewrite Hbuf1. reflexivity. }
  erewrite bind_ok by reflexivity.
  pose proof (to_bytes_length x) as Hx.
  pose proof Hwf1 as (Hs1 & Hm1 & _).
  destruct (poke_tail s1 b (sizeof T * size_ (this s1)) (to_bytes x) Hwf1 Hbuf1)
    as (s2 & Hpoke & Hthis & Hwf2 & Hpay2 & _ & old' & Hold' & Hblk2);
    [lia | nia |].
  unfold construct, index, ptr_add; cbn [blk off].
  rewrite bytes_of_small, N.add_0_l by lia.
  erewrite bind_ok by exact Hpoke.
  rewrite size_t_small by lia.
  eexists. split; [reflexivity |].
  cbn [set_size modify snd this mem size_].
  pose proof Hwf2 as (Hs2 & Hm2 & Hb2). rewrite Hthis in *.
  rewrite Hbuf1 in Hb2.
  split.
  { unfold owned_wf; cbn [this mem buf_ const_objs_ size_ capacity_].
    rewrite Hbuf1. repeat split; [lia | assumption | apply Hb2 | apply Hb2]. }
  split; [lia |].
  rewrite <- Hpl1, Hpay1.
  unfold payload; cbn [this mem const_objs_ size_].
  rewrite Hp1, bytes_of_small by lia.
  assert (old' = old) by congruence. subst old'.
  erewrite load_block; [| exact Hblk2 |].
  2:{ rewrite !length_app, length_take, length_drop. nia. }
  change (N.to_nat 0) with 0%nat. rewrite drop_0.
  rewrite app_assoc, take_app_length'; [reflexivity |].
  rewrite length_app, length_take. nia.
Qed.


(** *** [resize] *)

Lemma for_loop_inv {S} (P : S -> Prop) (body : N -> M S unit)
    (k : nat) (i : N) (s : S) :
  P s ->
  (forall j s0, i <= j < i + N.of_nat k -> P s0 ->
     exists s1, body j s0 = (Ok tt, s1) /\ P s1) ->
  exists s', for_loop k i body s = (Ok tt, s') /\ P s'.
Proof.
  revert i s. induction k as [| k IH]; intros i s HP Hbody.
  - exists s. split; [reflexivity | assumption].
  - destruct (Hbody i s ltac:(lia) HP) as (s1 & Hb & HP1).
    destruct (IH (i + 1) s1 HP1) as (s' & Hl & HP').
    { intros j s0 Hj. apply Hbody. lia. }
    exists s'. split; [| assumption].
    cbn [for_loop]. erewrite bind_ok by exact Hb. exact Hl.
Qed.

Lemma objs_owned (s : vstate) :
  objs s = (Ok (match buf_ (this s) with
                | Some b => Some (mkAddr b 0)
                | None => None
                end), s).
Proof. reflexivity. Qed.

Lemma construct_default_tail (s : vstate) (i : N) :
  owned_wf s -> size_ (this s) <= i -> i < capacity_ (this s) ->
  exists s', construct_default
               (index (match buf_ (this s) with
                       | Some b => Some (mkAddr b 0)
                       | None => None
                       end) i) s = (Ok tt, s') /\
    this s' = this s /\ owned_wf s' /\ payload s' = payload s.
Proof.
  intros Hwf Hi Hc. unfold construct_default.
  destruct (default_init T) as [d |]; [| exists s; auto].
  destruct (owned_block s Hwf ltac:(lia)) as (b & old & Hbuf & _).
  rewrite Hbuf. unfold index, ptr_add; cbn [blk off].
  pose proof Hwf as (Hs & Hm & _). pose proof (to_bytes_length d) as Hd.
  rewrite bytes_of_small, N.add_0_l by lia.
  assert (sizeof T * size_ (this s) <= sizeof T * i)
    by (apply N.mul_le_mono_l; assumption).
  assert (sizeof T * (i + 1) <= sizeof T * capacity_ (this s))
    by (apply N.mul_le_mono_l; lia).
  destruct (poke_tail s b (sizeof T * i) (to_bytes d) Hwf Hbuf)
    as (s' & Hp & Ht & Hw & Hpl & _); [assumption | lia |].
  exists s'. auto.
Qed.

Lemma resize_cases (n : N) (s : vstate) :
  owned_wf s ->
  (max_size < n /\ resize n s = (AssertFail, s)) \/
  (n <= max_size /\ exists s',
     resize n s = (Ok tt, s') /\ owned_wf s' /\ size_ (this s') = n).
Proof.
  intros Hwf. unfold resize.
  erewrite bind_ok by reflexivity.
  erewrite bind_ok by (apply assert_true; rewrite owned_not_fixed; auto).
  destruct (reserve_cases n s Hwf)
    as [[Hn Hr] | (Hn & s1 & Hr & Hwf1 & Hsz1 & Hpl1 & Hcap1)].
  - left. split; [assumption |]. unfold bind at 1. rewrite Hr. reflexivity.
  - right. split; [assumption |].
    erewrite bind_ok by exact Hr.
    erewrite bind_ok by apply objs_owned.
    erewrite bind_ok by reflexivity.
    destruct (for_loop_inv
                (fun s' => this s' = this s1 /\ owned_wf s')
                (fun i => construct_default
                   (index (match buf_ (this s1) with
                           | Some b => Some (mkAddr b 0)
                           | None => None
                           end) i))
                (N.to_nat (n - size_ (this s1))) (size_ (this s1)) s1)
      as (s2 & Hloop & Hthis & Hwf2); [auto | |].
    { intros j s0 Hj [Ht0 Hw0]. rewrite <- Ht0.
      destruct (construct_default_tail s0 j Hw0) as (s3 & Hc & Ht3 & Hw3 & _);
        [rewrite Ht0; lia | rewrite Ht0; lia |].
      exists s3. rewrite Ht3. auto. }
    erewrite bind_ok by exact Hloop.
    eexists. split; [reflexivity |].
    cbn [set_size modify snd this mem size_]. split; [| reflexivity].
    destruct Hwf2 as (Hs2 & Hm2 & Hb2). rewrite Hthis in *.
    unfold owned_wf; cbn [this mem buf_ const_objs_ size_ capacity_].
    repeat split; assumption.
Qed.

(** *** [resize] with a fill value *)

Lemma length_mjoin_replicate (k : nat) (bs : list byte) :
  length (mjoin (replicate k bs)) = (k * length bs)%nat.
Proof.
  induction k as [| k IH]; [reflexivity |].
  change (length (bs ++ mjoin (replicate k bs)) = (S k * length bs)%nat).
  rewrite length_app, IH. lia.
Qed.

Lemma resize_fill_cases (n : N) (x : T) (s : vstate) :
  owned_wf s ->
  (max_size < n /\ resize_fill n x s = (AssertFail, s)) \/
  (n <= max_size /\ exists s',
     resize_fill n x s = (Ok tt, s') /\ owned_wf s' /\ size_ (this s') = n).
Proof.
  intros Hwf. unfold resize_fill. pose proof max_size_le as Hmax.
  erewrite bind_ok by reflexivity.
  erewrite bind_ok by (apply assert_true; rewrite owned_not_fixed; auto).
  destruct (reserve_cases n s Hwf)
    as [[Hn Hr] | (Hn & s1 & Hr & Hwf1 & Hsz1 & Hpl1 & Hcap1)].
  - left. split; [assumption |]. unfold bind at 1. rewrite Hr. reflexivity.
  - right. split; [assumption |].
    erewrite bind_ok by exact Hr.
    erewrite bind_ok by apply objs_owned.
    erewrite bind_ok by reflexivity.
    assert (Hfill : exists s2,
      (if size_ (this s1) <? n
       then fill_n (index (match buf_ (this s1) with
                           | Some b => Some (mkAddr b 0)
                           | None => None
                           end) (size_ (this s1)))
                   (size_sub n (size_ (this s1))) x
       else ret tt) s1 = (Ok tt, s2) /\ this s2 = this s1 /\ owned_wf s2).
    { destruct (N.ltb_spec (size_ (this s1)) n) as [Hlt | Hge];
        [| exists s1; auto].
      destruct (owned_block s1 Hwf1 ltac:(lia)) as (b & old & Hbuf & _).
      rewrite Hbuf. unfold fill_n, index, ptr_add; cbn [blk off].
      pose proof Hwf1 as (Hs1 & Hm1 & _). pose proof (to_bytes_length x) as Hx.
      rewrite bytes_of_small, N.add_0_l, size_sub_small by lia.
      assert (sizeof T * size_ (this s1) + sizeof T * (n - size_ (this s1))
              <= sizeof T * capacity_ (this s1))
        by (rewrite <- N.mul_add_distr_l; apply N.mul_le_mono_l; lia).
      destruct (poke_tail s1 b (sizeof T * size_ (this s1))
                  (mjoin (replicate (N.to_nat (n - size_ (this s1)))
                                    (to_bytes x))) Hwf1 Hbuf)
        as (s2 & Hp & Ht & Hw & _); [lia | |].
      { rewrite length_mjoin_replicate. nia. }
      exists s2. auto. }
    destruct Hfill as (s2 & Hf & Hthis & Hwf2).
    erewrite bind_ok by exact Hf.
    eexists. split; [reflexivity |].
    cbn [set_size modify snd this mem size_]. split; [| reflexivity].
    destruct Hwf2 as (Hs2 & Hm2 & Hb2). rewrite Hthis in *.
    unfold owned_wf; cbn [this mem buf_ const_objs_ size_ capacity_].
    repeat split; assumption.
Qed.

(** *** Sequences of mutators *)

Lemma run_op_wf (o : op) (s s' : vstate) :
  owned_wf s -> run_op o s = (Ok tt, s') -> owned_wf s'.
Proof.
  intros Hwf. destruct o as [x | | n | n x | n |]; cbn [run_op].
  - destruct (push_back_cases x s Hwf) as [[_ E] | (_ & s1 & E & Hw & _)];
      rewrite E; [discriminate | intros [= <-]; assumption].
  - intros E. apply (pop_back_wf s s' Hwf E).
  - destruct (resize_cases n s Hwf) as [[_ E] | (_ & s1 & E & Hw & _)];
      rewrite E; [discriminate | intros [= <-]; assumption].
  - destruct (resize_fill_cases n x s Hwf) as [[_ E] | (_ & s1 & E & Hw & _)];
      rewrite E; [discriminate | intros [= <-]; assumption].
  - destruct (reserve_cases n s Hwf) as [[_ E] | (_ & s1 & E & Hw & _)];
      rewrite E; [discriminate | intros [= <-]; assumption].
  - destruct (shrink_ok s Hwf) as (s1 & E & Hw & _).
    rewrite E. intros [= <-]. assumption.
Qed.

Lemma run_ops_wf (os : list op) (s s' : vstate) :
  owned_wf s -> run_ops os s = (Ok tt, s') -> owned_wf s'.
Proof.
  revert s. induction os as [| o os IH]; intros s Hwf; cbn [run_ops].
  - intros [= <-]. assumption.
  - unfold bind. destruct (run_op o s) as [[[] | e | |] s1] eqn:E;
      try discriminate.
    intros Hrest. apply (IH s1); [| assumption].
    apply (run_op_wf o s s1 Hwf E).
Qed.

Lemma default_wf (h : heap) : owned_wf (mkState Vector_default h).
Proof.
  unfold owned_wf; cbn. repeat split; first [lia | apply N.le_0_l].
Qed.

Lemma same_payload_same_elements (s s' : vstate) (i : N) :
  owned_wf s -> owned_wf s' ->
  size_ (this s') = size_ (this s) -> payload s' = payload s ->
  i < size_ (this s) ->
  is_Some (nth (this s) (mem s) i) /\
  nth (this s') (mem s') i = nth (this s) (mem s) i.
Proof.
  intros Hwf Hwf' Hsz Hpl Hi.
  rewrite (nth_owned s i Hwf Hi), (nth_owned s' i Hwf') by lia.
  rewrite Hpl. split; [eexists; reflexivity | reflexivity].
Qed.

Lemma pad_small (n : N) : size_sub 8 (n mod 8) = 8 - n mod 8.
Proof.
  pose proof (N.mod_upper_bound n 8 ltac:(lia)).
  apply size_sub_small; unfold SIZE_MAX; lia.
Qed.

Lemma pad_size_t (n : N) : size_t (size_sub 8 (n mod 8)) = 8 - n mod 8.
Proof.
  rewrite pad_small. pose proof (N.mod_upper_bound n 8 ltac:(lia)) as Hb.
  apply size_t_small. unfold SIZE_MAX.
  generalize dependent (n mod 8). intros m Hb. lia.
Qed.

Lemma write_ok (v : Vector) (h : heap) (w : Writer) (bs : list byte) :
  size_ v <= max_size ->
  load h (const_objs_ v) (bytes_of (size_ v)) = Some bs ->
  write v h w = (Ok tt, mkWriter (emitted w ++ frame bs)).
Proof.
  intros Hsz Hl. pose proof (load_length _ _ _ _ Hl) as Hlen.
  unfold write, total_size.
  erewrite bind_ok by reflexivity.
  erewrite bind_ok
    by (unfold Writer_.write_objs; cbn [emitted]; rewrite Hl; reflexivity).
  unfold Writer_.seek, modify, frame. cbn [emitted].
  rewrite pad_small, <- Hlen, <- !app_assoc. reflexivity.
Qed.

(** *** Construction from a [Reader] *)

Lemma liftIO_ok {IO A} (m : M IO A) (s : vstate) (io io' : IO) (a : A) :
  m io = (Ok a, io') -> liftIO m (s, io) = (Ok a, (s, io')).
Proof. unfold liftIO; cbn. intros ->. reflexivity. Qed.

Lemma liftV_ok {IO A} (m : M vstate A) (s s' : vstate) (io : IO) (a : A) :
  m s = (Ok a, s') -> liftV m (s, io) = (Ok a, (s', io)).
Proof. unfold liftV; cbn. intros ->. reflexivity. Qed.

Lemma read_data_app (n : N) (xs ys : list byte) :
  N.of_nat (length xs) = n ->
  Reader_.read_data n (mkReader (xs ++ ys)) = (Ok xs, mkReader ys).
Proof.
  intros Hn. unfold Reader_.read_data; cbn [remaining].
  destruct (N.leb_spec n (N.of_nat (length (xs ++ ys)))) as [_ | Hlt].
  - replace (N.to_nat n) with (length xs) by lia.
    rewrite take_app_length, drop_app_length. reflexivity.
  - rewrite length_app in Hlt. lia.
Qed.

(** Filling the elements of an owned vector from its first byte on. *)
Lemma poke_front (s : vstate) (bs : list byte) :
  owned_wf s -> N.of_nat (length bs) = sizeof T * size_ (this s) ->
  exists s',
    poke (match buf_ (this s) with
          | Some b => Some (mkAddr b 0)
          | None => None
          end) bs s = (Ok tt, s') /\
    owned_wf s' /\ this s' = this s /\ payload s' = bs.
Proof.
  intros Hwf Hlen. pose proof Hwf as (Hs & Hm & Hb).
  destruct (N.eq_dec (capacity_ (this s)) 0) as [Hc0 | Hc0].
  - assert (size_ (this s) = 0) as Hs0 by lia.
    rewrite Hs0, N.mul_0_r in Hlen. destruct bs; [| discriminate].
    exists s. split; [destruct s; reflexivity |].
    split; [assumption |]. split; [reflexivity |].
    unfold payload. rewrite Hs0. unfold bytes_of, size_t.
    rewrite N.mul_0_r. reflexivity.
  - destruct (owned_block s Hwf ltac:(lia))
      as (b & old & Hbuf & Hp & Hl & Hlo & _).
    assert (Hsc : sizeof T * size_ (this s) <= sizeof T * capacity_ (this s))
      by (apply N.mul_le_mono_l; assumption).
    rewrite Hbuf.
    eexists. split; [apply (poke_block s b 0 bs old Hl); lia |].
    change (N.to_nat 0) with 0%nat. rewrite take_0, app_nil_l, Nat.add_0_l.
    assert (Hnew : length (bs ++ drop (length bs) old) = length old).
    { rewrite length_app, length_drop. clear - Hlen Hlo Hsc. lia. }
    pose proof (lookup_lt_Some _ _ _ Hl) as Hlt.
    split.
    { unfold owned_wf; cbn [this mem]. rewrite Hbuf.
      repeat split; try assumption.
      eexists. split; [apply list_lookup_insert_eq; assumption |].
      rewrite Hnew. assumption. }
    split; [reflexivity |].
    unfold payload; cbn [this mem]. rewrite Hp, bytes_of_small by lia.
    erewrite load_block;
      [| apply list_lookup_insert_eq; assumption
       | rewrite Hnew; clear - Hsc Hlo; lia].
    change (N.to_nat 0) with 0%nat. rewrite drop_0.
    apply take_app_length'. clear - Hlen. lia.
Qed.

Lemma framed_bounds (hdr bs pad : list byte) :
  framed hdr bs pad ->
  N.of_nat (length bs) <= SIZE_MAX /\
  N.of_nat (length bs) / sizeof T <= max_size /\
  sizeof T * (N.of_nat (length bs) / sizeof T) = N.of_nat (length bs).
Proof.
  intros (Hh & Hd & Hm & Hp). pose proof sizeof_pos.
  pose proof (le_decode_bound hdr) as Hb. rewrite Hh, Hd in Hb.
  assert (N.of_nat (length bs) <= SIZE_MAX)
    by (unfold SIZE_MAX; cbn in Hb; lia).
  split; [assumption |]. split.
  - unfold max_size. apply N.Div0.div_le_mono. assumption.
  - pose proof (N.div_mod (N.of_nat (length bs)) (sizeof T) ltac:(lia)). lia.
Qed.

Lemma ctor_Reader_ok (h : heap) (hdr bs pad rest : list byte) :
  framed hdr bs pad ->
  exists s',
    Vector_of_Reader h (mkReader (hdr ++ bs ++ pad ++ rest))
      = (Ok tt, (s', mkReader rest)) /\
    owned_wf s' /\
    size_ (this s') = N.of_nat (length bs) / sizeof T /\
    payload s' = bs.
Proof.
  intros Hfr. destruct (framed_bounds _ _ _ Hfr) as (Hmax & Hn & Hmul).
  destruct Hfr as (Hh & Hd & Hm & Hp). pose proof max_size_le as Hms.
  set (L := N.of_nat (length bs)) in *.
  unfold Vector_of_Reader, construct_with, ctor_Reader.
  erewrite bind_ok.
  2:{ apply liftIO_ok. unfold Reader_.read_u64.
      erewrite bind_ok by (apply read_data_app; rewrite Hh; reflexivity).
      reflexivity. }
  rewrite Hd.
  erewrite bind_ok.
  2:{ unfold MARISA_THROW_IF.
      destruct (N.ltb_spec SIZE_MAX L); [lia | reflexivity]. }
  erewrite bind_ok.
  2:{ unfold MARISA_THROW_IF. rewrite Hm. reflexivity. }
  rewrite size_t_small by lia.
  destruct (resize_cases (L / sizeof T) (mkState Vector_default h)
              (default_wf h)) as [[? _] | (_ & s1 & Hr & Hwf1 & Hsz1)];
    [lia |].
  erewrite bind_ok by (apply liftV_ok; exact Hr).
  erewrite bind_ok by (apply liftV_ok, objs_owned).
  destruct (poke_front s1 bs Hwf1) as (s2 & Hpk & Hwf2 & Hth2 & Hpl2);
    [rewrite Hsz1; lia |].
  erewrite bind_ok.
  2:{ unfold read_objs. rewrite bytes_of_small, Hmul by lia.
      erewrite bind_ok by (apply liftIO_ok, read_data_app; reflexivity).
      apply liftV_ok. exact Hpk. }
  rewrite pad_size_t.
  erewrite liftIO_ok.
  2:{ unfold Reader_.seek.
      erewrite bind_ok by (apply read_data_app; exact Hp). reflexivity. }
  exists s2. split; [reflexivity |]. split; [assumption |].
  split; [rewrite Hth2; assumption | assumption].
Qed.

(** *** Construction from a [Mapper] *)

Lemma load_segment (h : heap) (b : nat) (xs ys zs : list byte) :
  h !! b = Some (Some (xs ++ ys ++ zs)) ->
  load h (Some (mkAddr b (N.of_nat (length xs)))) (N.of_nat (length ys))
  = Some ys.
Proof.
  intros Hb. erewrite load_block; [| exact Hb |].
  - rewrite !Nat2N.id, drop_app_length, take_app_length. reflexivity.
  - rewrite !length_app. lia.
Qed.

Lemma map_data_ok (a : addr) (avail n : N) :
  n <= avail ->
  Mapper_.map_data n (mkMapper (Some a) avail)
  = (Ok (Some a), mkMapper (Some (mkAddr (blk a) (off a + n))) (avail - n)).
Proof.
  intros Hn. unfold Mapper_.map_data; cbn [ptr_ avail_ ptr_add].
  destruct (N.leb_spec n avail); [reflexivity | lia].
Qed.

Lemma ctor_Mapper_ok (h : heap) (b : nat)
    (pre hdr bs pad rest post : list byte) :
  framed hdr bs pad ->
  h !! b = Some (Some (pre ++ hdr ++ bs ++ pad ++ rest ++ post)) ->
  exists m',
    Vector_of_Mapper h
      (Mapper_.open (Some (mkAddr b (N.of_nat (length pre))))
                    (N.of_nat (length (hdr ++ bs ++ pad ++ rest))))
    = (Ok tt,
       (mkState (mkVector None
                   (Some (mkAddr b (N.of_nat (length pre) + 8)))
                   (N.of_nat (length bs) / sizeof T) 0) h, m')) /\
    avail_ m' = N.of_nat (length rest) /\
    load h (Some (mkAddr b (N.of_nat (length pre) + 8)))
           (bytes_of (N.of_nat (length bs) / sizeof T)) = Some bs.
Proof.
  intros Hfr Hb. destruct (framed_bounds _ _ _ Hfr) as (Hmax & Hn & Hmul).
  destruct Hfr as (Hh & Hd & Hm & Hp).
  set (L := N.of_nat (length bs)) in *.
  set (o := N.of_nat (length pre)) in *.
  assert (Hav : N.of_nat (length (hdr ++ bs ++ pad ++ rest))
                = 8 + L + N.of_nat (length pad) + N.of_nat (length rest)).
  { rewrite !length_app. subst L. clear - Hh. lia. }
  rewrite Hav.
  assert (Hl8 : load h (Some (mkAddr b o)) 8 = Some hdr).
  { pose proof (load_segment h b pre hdr _ Hb) as X. rewrite Hh in X.
    exact X. }
  unfold Vector_of_Mapper, construct_with, ctor_Mapper, Mapper_.open.
  erewrite bind_ok.
  2:{ unfold map_u64, Mapper_.map_u64; cbn [fst snd mem].
      erewrite bind_ok by (apply map_data_ok; lia).
      rewrite Hl8. reflexivity. }
  rewrite Hd. cbn [blk off].
  erewrite bind_ok.
  2:{ unfold MARISA_THROW_IF.
      destruct (N.ltb_spec SIZE_MAX L); [lia | reflexivity]. }
  erewrite bind_ok.
  2:{ unfold MARISA_THROW_IF. rewrite Hm. reflexivity. }
  rewrite size_t_small by (pose proof max_size_le; lia).
  rewrite bytes_of_small, Hmul by assumption.
  erewrite bind_ok by (apply liftIO_ok, map_data_ok; lia).
  erewrite bind_ok by (apply liftV_ok; reflexivity).
  rewrite pad_size_t, <- Hp. cbn [blk off].
  erewrite bind_ok.
  2:{ apply liftIO_ok. unfold Mapper_.seek.
      erewrite bind_ok by (apply map_data_ok; lia). reflexivity. }
  eexists. split; [reflexivity |]. cbn [avail_ blk off].
  split; [cbn [snd avail_]; clear; lia |].
  assert (Hb' : h !! b
                = Some (Some ((pre ++ hdr) ++ bs ++ pad ++ rest ++ post)))
    by (rewrite <- app_assoc; exact Hb).
  pose proof (load_segment h b (pre ++ hdr) bs _ Hb') as Hl.
  rewrite length_app, Nat2N.inj_add, Hh in Hl. exact Hl.
Qed.

(** *** Copies *)

(** Copying a vector without a buffer of its own copies the three
    members: the copy designates the very storage of the source, and the
    store is untouched. *)
Lemma copy_of_borrowed (other : Vector) (h : heap) :
  buf_ other = None ->
  Vector_copy other h
  = (Ok tt, mkState (mkVector None (const_objs_ other) (size_ other)
                              (capacity_ other)) h).
Proof. intros Hb. unfold Vector_copy, copy_from. rewrite Hb. reflexivity. Qed.

Lemma assign_of_borrowed (other : Vector) (s : vstate) :
  buf_ other = None ->
  assign other s
  = (Ok tt, mkState (mkVector None (const_objs_ other) (size_ other)
                              (capacity_ other))
                    (release (mem s) (buf_ (this s)))).
Proof. intros Hb. unfold assign, copy_from. rewrite Hb. reflexivity. Qed.

Lemma copyInit_zeroes (other : Vector) (h : heap) (bs : list byte) :
  size_ other <= capacity_ other -> capacity_ other <= max_size ->
  load h (const_objs_ other) (bytes_of (size_ other)) = Some bs ->
  copyInit (const_objs_ other) (size_ other) (capacity_ other)
           (mkState Vector_default h)
  = (Ok tt, copied_state other h).
Proof.
  intros Hs Hc Hl. pose proof (load_length _ _ _ _ Hl) as Hlen.
  pose proof max_size_le as Hmax.
  pose proof (max_size_bytes _ Hc) as Hbc.
  assert (Hsc : sizeof T * size_ other <= sizeof T * capacity_ other)
    by (apply N.mul_le_mono_l; assumption).
  rewrite bytes_of_small in Hl, Hlen by lia.
  unfold copyInit.
  erewrite bind_ok by reflexivity.
  erewrite bind_ok by reflexivity.
  erewrite bind_ok by reflexivity.
  erewrite bind_ok by reflexivity.
  erewrite bind_ok by reflexivity.
  cbn [this mem buf_ const_objs_ size_ capacity_ Vector_default release].
  erewrite bind_ok.
  2:{ unfold copy_n. rewrite (bytes_of_small (size_ other)) by lia.
      erewrite bind_ok by (apply peek_ok, load_app, Hl).
      apply poke_ok. cbn [mem]. apply store_fresh.
      rewrite length_replicate, bytes_of_small by lia. lia. }
  erewrite bind_ok by reflexivity.
  erewrite bind_ok.
  2:{ unfold memset0, index, ptr_add. cbn [blk off this mem size_].
      rewrite bytes_of_small by (apply N.le_0_l).
      rewrite N.mul_0_r, N.add_0_l, size_sub_small, N.sub_0_r, size_t_small
        by (rewrite ?(N.mul_comm (capacity_ other)); lia || apply N.le_0_l).
      apply poke_ok. cbn [mem]. apply store_fresh.
      rewrite !length_replicate, !length_app, length_drop, length_replicate,
        take_0, bytes_of_small by lia.
      cbn [length]. lia. }
  unfold set_const_objs, set_size, set_capacity, modify, bind.
  cbn [this mem buf_ const_objs_ size_ capacity_].
  unfold copied_state. do 4 f_equal.
  change (N.to_nat 0) with 0%nat.
  rewrite !take_0, !app_nil_l, Nat.add_0_l, drop_ge, app_nil_r.
  - rewrite (N.mul_comm (capacity_ other)). reflexivity.
  - rewrite length_app, length_drop, !length_replicate, bytes_of_small by lia.
    lia.
Qed.

Lemma copy_of_owned (s : vstate) (b : nat) :
  owned_wf s -> buf_ (this s) = Some b ->
  Vector_copy (this s) (mem s) = (Ok tt, copied_state (this s) (mem s)) /\
  payload (copied_state (this s) (mem s))
  = replicate (N.to_nat (sizeof T * size_ (this s))) x00.
Proof.
  intros Hwf Hb. pose proof Hwf as (Hs & Hc & _).
  destruct (owned_payload s Hwf) as [Hl _].
  assert (Hsc : sizeof T * size_ (this s) <= sizeof T * capacity_ (this s))
    by (apply N.mul_le_mono_l; assumption).
  split.
  - unfold Vector_copy, copy_from. rewrite Hb.
    apply (copyInit_zeroes _ _ _ Hs Hc Hl).
  - unfold payload, copied_state; cbn [this mem const_objs_ size_].
    rewrite bytes_of_small by lia.
    erewrite load_block;
      [| apply list_lookup_middle; reflexivity
       | rewrite length_replicate; lia].
    change (N.to_nat 0) with 0%nat.
    rewrite drop_0, take_replicate. f_equal. lia.
Qed.

(** *** Sizes on disk *)

Lemma length_frame (bs : list byte) :
  N.of_nat (length (frame bs))
  = 8 + N.of_nat (length bs) + (8 - N.of_nat (length bs) mod 8).
Proof.
  unfold frame. rewrite !length_app, length_le_encode, length_replicate.
  generalize (N.of_nat (length bs) mod 8). intros. lia.
Qed.

Lemma length_frame_mod8 (bs : list byte) :
  N.of_nat (length (frame bs)) mod 8 = 0.
Proof.
  rewrite length_frame. set (L := N.of_nat (length bs)).
  pose proof (N.div_mod L 8 ltac:(lia)) as Hd.
  pose proof (N.mod_upper_bound L 8 ltac:(lia)) as Hb.
  replace (8 + L + (8 - L mod 8)) with ((L / 8 + 2) * 8)
    by (generalize dependent (L mod 8); generalize dependent (L / 8);
        intros; lia).
  apply N.Div0.mod_mul.
Qed.

(** What [write] emits, and how long it is: header, elements, and a
    padding of 1 to 8 bytes that brings the total to a multiple of 8. *)
Lemma write_emits (v : Vector) (h : heap) (w : Writer) :
  readable v h ->
  exists bs,
    load h (const_objs_ v) (bytes_of (size_ v)) = Some bs /\
    write v h w = (Ok tt, mkWriter (emitted w ++ frame bs)) /\
    N.of_nat (length (frame bs))
      = 8 + total_size v + (8 - total_size v mod 8) /\
    N.of_nat (length (frame bs)) mod 8 = 0.
Proof.
  intros (Hsz & bs & Hl). exists bs. split; [assumption |].
  split; [apply write_ok; assumption |].
  split; [| apply length_frame_mod8].
  rewrite length_frame. unfold total_size.
  rewrite (load_length _ _ _ _ Hl). reflexivity.
Qed.

(** [io_size()] rounds [total_size()] up to a multiple of 8, as long as
    the sum stays below [2^32]. *)
Lemma io_size_small (v : Vector) :
  total_size v + 7 < 2 ^ 32 ->
  io_size v = 8 + 8 * ((total_size v + 7) / 8).
Proof.
  intros Hlt. unfold io_size.
  assert (He : size_t (total_size v + 7) = total_size v + 7).
  { apply size_t_small. unfold SIZE_MAX.
    generalize dependent (total_size v). intros. lia. }
  rewrite He, land_mask32 by assumption.
  apply size_t_small. unfold SIZE_MAX.
  pose proof (N.Div0.mul_div_le (total_size v + 7) 8).
  generalize dependent (8 * ((total_size v + 7) / 8)).
  generalize dependent (total_size v). intros. lia.
Qed.

(** When [total_size()] is a multiple of 8, [write] emits 8 bytes more
    than [io_size()] says. *)
Lemma write_exceeds_io_size (v : Vector) (h : heap) (w : Writer) :
  readable v h -> total_size v mod 8 = 0 -> total_size v + 7 < 2 ^ 32 ->
  exists out,
    write v h w = (Ok tt, mkWriter (emitted w ++ out)) /\
    N.of_nat (length out) = io_size v + 8.
Proof.
  intros Hr Hm Hlt.
  destruct (write_emits v h w Hr) as (bs & _ & Hw & Hlen & _).
  exists (frame bs). split; [assumption |].
  rewrite Hlen, io_size_small, Hm by assumption.
  pose proof (N.div_mod (total_size v) 8 ltac:(lia)) as Hd.
  rewrite Hm, N.add_0_r in Hd.
  assert (Hq : (total_size v + 7) / 8 = total_size v / 8).
  { rewrite Hd at 1. rewrite N.mul_comm, N.div_add_l by lia.
    change (7 / 8) with 0. apply N.add_0_r. }
  rewrite Hq, <- Hd. generalize (total_size v). intros. lia.
Qed.

(** *** Round trip and mapping *)

Lemma frame_framed (bs : list byte) :
  N.of_nat (length bs) <= SIZE_MAX ->
  N.of_nat (length bs) mod sizeof T = 0 ->
  framed (le_encode 8 (N.of_nat (length bs))) bs
         (replicate (N.to_nat (8 - N.of_nat (length bs) mod 8)) x00).
Proof.
  intros Hmax Hm. unfold framed.
  split; [apply length_le_encode |].
  split.
  { rewrite le_decode_encode. apply N.mod_small.
    change (256 ^ N.of_nat 8) with (2 ^ 64). unfold SIZE_MAX in Hmax. lia. }
  split; [assumption |].
  rewrite length_replicate. apply N2Nat.id.
Qed.

Lemma readable_payload (v : Vector) (h : heap) (bs : list byte) :
  size_ v <= max_size ->
  load h (const_objs_ v) (bytes_of (size_ v)) = Some bs ->
  N.of_nat (length bs) = sizeof T * size_ v /\
  N.of_nat (length bs) <= SIZE_MAX /\
  N.of_nat (length bs) mod sizeof T = 0 /\
  N.of_nat (length bs) / sizeof T = size_ v.
Proof.
  intros Hsz Hl. pose proof (load_length _ _ _ _ Hl) as Hlen.
  rewrite bytes_of_small in Hlen by assumption.
  pose proof (max_size_bytes _ Hsz). pose proof sizeof_pos.
  rewrite Hlen. split; [reflexivity |]. split; [assumption |].
  rewrite N.mul_comm. split; [apply N.Div0.mod_mul | apply N.div_mul; lia].
Qed.

Lemma owned_readable (s : vstate) : owned_wf s -> readable (this s) (mem s).
Proof.
  intros Hwf. destruct (owned_payload s Hwf) as [Hl _].
  destruct Hwf as (? & ? & _). split; [lia | eexists; exact Hl].
Qed.

(** *** Serialisation, mapping, mutation and copies *)

(** C5: a vector whose elements can be read is written by [write] as a
    run of bytes [out]; a vector constructed from a reader positioned at
    the start of [out] has the same [size()] and, at every index below
    it, the same element, and the reader is left just after [out],
    whatever follows it in the source. *)
Theorem write_then_read (v : Vector) (h h' : heap) (w : Writer)
    (rest : list byte) :
  readable v h ->
  exists out s',
    write v h w = (Ok tt, mkWriter (emitted w ++ out)) /\
    Vector_of_Reader h' (mkReader (out ++ rest))
      = (Ok tt, (s', mkReader rest)) /\
    size (this s') = size v /\
    forall i, i < size v ->
      is_Some (nth v h i) /\ nth (this s') (mem s') i = nth v h i.
Proof.
  intros (Hsz & bs & Hl).
  destruct (readable_payload v h bs Hsz Hl) as (Hlen & Hmax & Hmod & Hdiv).
  destruct (ctor_Reader_ok h' _ bs _ rest (frame_framed bs Hmax Hmod))
    as (s' & Hrd & Hwf' & Hsz' & Hpl').
  exists (frame bs), s'.
  split; [apply write_ok; assumption |].
  split; [unfold frame; rewrite <- !app_assoc; exact Hrd |].
  unfold size. rewrite Hsz', Hdiv. split; [reflexivity |].
  intros i Hi.
  rewrite (nth_payload v h bs i Hl Hsz Hi).
  rewrite (nth_owned s' i Hwf') by (rewrite Hsz', Hdiv; assumption).
  rewrite Hpl'. split; [eexists; reflexivity | reflexivity].
Qed.

Lemma liftIO_inv {IO A} (m : M IO A) (st st' : vstate * IO) (a : A) :
  liftIO m st = (Ok a, st') ->
  m (snd st) = (Ok a, snd st') /\ fst st' = fst st.
Proof.
  unfold liftIO. destruct (m (snd st)) as [r io'].
  intros [= -> <-]. auto.
Qed.

Lemma liftV_inv {IO A} (m : M vstate A) (st st' : vstate * IO) (a : A) :
  liftV m st = (Ok a, st') ->
  m (fst st) = (Ok a, fst st') /\ snd st' = snd st.
Proof.
  unfold liftV. destruct (m (fst st)) as [r s'].
  intros [= -> <-]. auto.
Qed.

Lemma map_data_inv (n : N) (m m' : Mapper) (p : pointer) :
  Mapper_.map_data n m = (Ok p, m') ->
  n <= avail_ m /\ p = ptr_ m /\ is_Some (ptr_ m) /\
  m' = mkMapper (ptr_add (ptr_ m) n) (avail_ m - n).
Proof.
  unfold Mapper_.map_data. destruct (ptr_ m) as [a |]; [| discriminate].
  destruct (N.leb_spec n (avail_ m)); [| discriminate].
  intros [= <- <-]. repeat split; [assumption | eexists; reflexivity].
Qed.

Lemma construct_with_inv {IO} (body : M (vstate * IO) unit) h io x :
  construct_with body h io = (Ok tt, x) ->
  body (mkState Vector_default h, io) = (Ok tt, x).
Proof.
  unfold construct_with.
  destruct (body _) as [[[] | e | |] [s io']]; try discriminate; auto.
Qed.

(** A region of [avail] bytes cut in four: [n1] bytes, [n2] bytes, [n3]
    bytes and the rest. *)
Lemma take_split4 (R : list byte) (n1 n2 n3 : nat) :
  (n1 + n2 + n3 <= length R)%nat ->
  R = take n1 R ++ take n2 (drop n1 R) ++ take n3 (drop (n1 + n2) R)
      ++ drop (n1 + n2 + n3) R.
Proof.
  intros Hle.
  rewrite <- (take_drop n1 R) at 1. f_equal.
  rewrite <- (take_drop n2 (drop n1 R)) at 1. f_equal.
  rewrite drop_drop.
  rewrite <- (take_drop n3 (drop (n1 + n2) R)) at 1. f_equal.
  rewrite drop_drop. reflexivity.
Qed.

(** When the mapper constructor returns, the bytes it walked are a
    serialised vector. *)
Lemma ctor_Mapper_inv (h : heap) (b : nat) (region : list byte) (o avail : N)
    (x : vstate * Mapper) :
  h !! b = Some (Some region) ->
  o + avail <= N.of_nat (length region) ->
  Vector_of_Mapper h (Mapper_.open (Some (mkAddr b o)) avail) = (Ok tt, x) ->
  exists hdr bs pad rest,
    take (N.to_nat avail) (drop (N.to_nat o) region)
      = hdr ++ bs ++ pad ++ rest /\
    framed hdr bs pad.
Proof.
  intros Hb Hle Hc. apply construct_with_inv in Hc.
  unfold ctor_Mapper in Hc.
  apply bind_inv in Hc as (ts & st1 & H1 & Hc).
  apply bind_inv in Hc as (u2 & st2 & H2 & Hc).
  apply bind_inv in Hc as (u3 & st3 & H3 & Hc).
  apply bind_inv in Hc as (p & st4 & H4 & Hc).
  apply bind_inv in Hc as (u5 & st5 & H5 & Hc).
  apply bind_inv in Hc as (u6 & st6 & H6 & _).
  (* the header *)
  unfold map_u64 in H1; cbn [fst snd mem Mapper_.open] in H1.
  destruct (Mapper_.map_u64 h _) as [r1 m1] eqn:E1.
  injection H1 as -> <-.
  unfold Mapper_.map_u64 in E1.
  apply bind_inv in E1 as (p1 & m1' & Hd1 & E1).
  apply map_data_inv in Hd1 as (Ha8 & -> & _ & ->).
  unfold Mapper_.open in *. cbn [ptr_ avail_ ptr_add blk off] in *.
  erewrite load_block in E1; [| exact Hb | lia].
  injection E1 as <- <-.
  apply throw_if_inv in H2 as [H2 ->].
  apply throw_if_inv in H3 as [H3 ->].
  apply N.ltb_ge in H2. apply negb_false_iff, N.eqb_eq in H3.
  set (hdr := take (N.to_nat 8) (drop (N.to_nat o) region)) in *.
  set (ts := le_decode hdr) in *.
  pose proof sizeof_pos as Hpos. pose proof max_size_le as Hmax.
  assert (Hdiv : sizeof T * (ts / sizeof T) = ts).
  { pose proof (N.div_mod ts (sizeof T) ltac:(lia)) as Hdm.
    rewrite H3, N.add_0_r in Hdm. symmetry. exact Hdm. }
  assert (Hn : ts / sizeof T <= max_size)
    by (unfold max_size; apply N.Div0.div_le_mono; assumption).
  rewrite size_t_small in H4
    by (eapply N.le_trans; [exact Hn | exact Hmax]).
  rewrite bytes_of_small, Hdiv in H4 by assumption.
  apply liftIO_inv in H4 as [H4 Hs4]. cbn [fst snd] in H4, Hs4.
  apply map_data_inv in H4 as (Hats & _ & _ & Hm4).
  cbn [ptr_ avail_ ptr_add blk off] in *.
  apply liftV_inv in H5 as [_ Hs5].
  apply liftIO_inv in H6 as [H6 _].
  rewrite Hs5, Hm4, pad_size_t in H6.
  unfold Mapper_.seek in H6.
  apply bind_inv in H6 as (p6 & m6 & H6 & _).
  apply map_data_inv in H6 as (Hapad & _).
  cbn [avail_] in Hapad.
  (* the decomposition *)
  set (R := take (N.to_nat avail) (drop (N.to_nat o) region)).
  assert (HR : length R = N.to_nat avail).
  { subst R. rewrite length_take, length_drop. clear - Hle. lia. }
  assert (Hhdr : hdr = take 8 R).
  { subst hdr R. rewrite take_take. f_equal. clear - Ha8. lia. }
  set (pd := 8 - ts mod 8) in *.
  exists hdr, (take (N.to_nat ts) (drop 8 R)),
         (take (N.to_nat pd) (drop (8 + N.to_nat ts) R)),
         (drop (8 + N.to_nat ts + N.to_nat pd) R).
  split.
  { rewrite Hhdr. apply take_split4. rewrite HR.
    clearbody pd ts. clear - Ha8 Hats Hapad. lia. }
  assert (Hlbs : N.of_nat (length (take (N.to_nat ts) (drop 8 R))) = ts).
  { rewrite length_take, length_drop, HR. clearbody pd ts.
    clear - Ha8 Hats. lia. }
  unfold framed. rewrite Hlbs.
  split.
  { rewrite Hhdr, length_take, HR. clear - Ha8. lia. }
  split; [reflexivity |]. split; [assumption |].
  fold pd. rewrite length_take, length_drop, HR. clearbody pd ts.
  clear - Ha8 Hats Hapad. lia.
Qed.

Lemma read_data_inv (n : N) (r r' : Reader) (bs : list byte) :
  Reader_.read_data n r = (Ok bs, r') ->
  n <= N.of_nat (length (remaining r)) /\
  bs = take (N.to_nat n) (remaining r) /\
  r' = mkReader (drop (N.to_nat n) (remaining r)).
Proof.
  unfold Reader_.read_data.
  destruct (N.leb_spec n (N.of_nat (length (remaining r)))); [| discriminate].
  intros [= <- <-]. auto.
Qed.

(** When the reader constructor returns, the bytes it was given start
    with a serialised vector. *)
Lemma ctor_Reader_inv (h : heap) (R : list byte) (x : vstate * Reader) :
  Vector_of_Reader h (mkReader R) = (Ok tt, x) ->
  exists hdr bs pad rest,
    R = hdr ++ bs ++ pad ++ rest /\ framed hdr bs pad.
Proof.
  intros Hc. apply construct_with_inv in Hc.
  unfold ctor_Reader in Hc.
  apply bind_inv in Hc as (ts & st1 & H1 & Hc).
  apply bind_inv in Hc as (u2 & st2 & H2 & Hc).
  apply bind_inv in Hc as (u3 & st3 & H3 & Hc).
  apply bind_inv in Hc as (u4 & st4 & H4 & Hc).
  apply bind_inv in Hc as (p & st5 & H5 & Hc).
  apply bind_inv in Hc as (u6 & st6 & H6 & H7).
  apply liftIO_inv in H1 as [H1 _]. cbn [snd] in H1.
  unfold Reader_.read_u64 in H1.
  apply bind_inv in H1 as (hdr & r1 & Hd1 & E1).
  apply read_data_inv in Hd1 as (Ha8 & Hhdr & Hr1).
  cbn [remaining] in *. injection E1 as <- E1.
  apply throw_if_inv in H2 as [H2 ->].
  apply throw_if_inv in H3 as [H3 ->].
  apply N.ltb_ge in H2. apply negb_false_iff, N.eqb_eq in H3.
  set (ts := le_decode hdr) in *.
  pose proof sizeof_pos as Hpos. pose proof max_size_le as Hmax.
  assert (Hdiv : sizeof T * (ts / sizeof T) = ts).
  { pose proof (N.div_mod ts (sizeof T) ltac:(lia)) as Hdm.
    rewrite H3, N.add_0_r in Hdm. symmetry. exact Hdm. }
  assert (Hn : ts / sizeof T <= max_size)
    by (unfold max_size; apply N.Div0.div_le_mono; assumption).
  apply liftV_inv in H4 as [_ Hs4].
  apply liftV_inv in H5 as [_ Hs5].
  rewrite size_t_small in H6
    by (eapply N.le_trans; [exact Hn | exact Hmax]).
  rewrite bytes_of_small, Hdiv in H6 by assumption.
  unfold read_objs in H6.
  apply bind_inv in H6 as (bs & st7 & H6 & H6').
  apply liftIO_inv in H6 as [H6 _].
  apply liftV_inv in H6' as [_ Hs6].
  rewrite Hs5, Hs4, <- E1 in H6. cbn [snd] in H6.
  apply read_data_inv in H6 as (Hats & Hbs & Hr7).
  rewrite Hr1 in Hats, Hbs, Hr7. cbn [remaining] in *.
  apply liftIO_inv in H7 as [H7 _].
  rewrite pad_size_t, Hs6, Hr7 in H7. unfold Reader_.seek in H7.
  apply bind_inv in H7 as (pad & r8 & H7 & _).
  apply read_data_inv in H7 as (Hapad & Hpad & _).
  cbn [remaining] in *. rewrite drop_drop in Hapad, Hpad.
  rewrite length_drop in Hats. rewrite length_drop in Hapad.
  set (pd := 8 - ts mod 8) in *.
  change (N.to_nat 8) with 8%nat in *.
  exists hdr, bs, pad, (drop (8 + N.to_nat ts + N.to_nat pd) R).
  split.
  { rewrite Hhdr, Hbs, Hpad. apply take_split4.
    clearbody pd ts. clear - Ha8 Hats Hapad. lia. }
  assert (Hlbs : N.of_nat (length bs) = ts).
  { rewrite Hbs, length_take, length_drop. clearbody pd ts.
    clear - Ha8 Hats. lia. }
  unfold framed. rewrite Hlbs. fold ts. fold pd.
  split.
  { rewrite Hhdr, length_take. clear - Ha8. lia. }
  split; [reflexivity |]. split; [assumption |].
  rewrite Hpad, length_take, length_drop. clearbody pd ts.
  clear - Ha8 Hats Hapad. lia.
Qed.

(** From a serialised vector lying in a block of the store, the mapper
    constructor and the reader constructor both return, with vectors
    that agree. *)
Lemma framed_mapped_equals_read (h h' : heap) (b : nat)
    (pre hdr bs pad rest post : list byte) :
  framed hdr bs pad ->
  h !! b = Some (Some (pre ++ hdr ++ bs ++ pad ++ rest ++ post)) ->
  exists sm m' sr r',
    Vector_of_Mapper h
      (Mapper_.open (Some (mkAddr b (N.of_nat (length pre))))
                    (N.of_nat (length (hdr ++ bs ++ pad ++ rest))))
      = (Ok tt, (sm, m')) /\
    Vector_of_Reader h' (mkReader (hdr ++ bs ++ pad ++ rest))
      = (Ok tt, (sr, r')) /\
    size (this sm) = size (this sr) /\
    total_size (this sm) = total_size (this sr) /\
    (forall i, i < size (this sm) ->
       is_Some (nth (this sm) (mem sm) i) /\
       nth (this sm) (mem sm) i = nth (this sr) (mem sr) i) /\
    fixed (this sm) = true /\ fixed (this sr) = false /\
    mem sm = h /\
    const_objs_ (this sm) = Some (mkAddr b (N.of_nat (length pre) + 8)) /\
    buf_ (this sm) = None.
Proof.
  intros Hfr Hb.
  destruct (framed_bounds _ _ _ Hfr) as (Hmax & Hn & Hmul).
  destruct (ctor_Mapper_ok h b pre hdr bs pad rest post Hfr Hb)
    as (m' & Hmap & _ & Hl).
  destruct (ctor_Reader_ok h' hdr bs pad rest Hfr)
    as (sr & Hrd & Hwf & Hsz & Hpl).
  eexists _, m', sr, _. split; [exact Hmap |]. split; [exact Hrd |].
  unfold size, total_size; cbn [this mem size_ const_objs_ buf_ fixed].
  rewrite Hsz. split; [reflexivity |]. split; [reflexivity |].
  split.
  - intros i Hi.
    rewrite (nth_payload _ h bs i)
      by (cbn [this size_ const_objs_]; assumption).
    rewrite (nth_owned sr i Hwf) by (rewrite Hsz; assumption).
    rewrite Hpl. split; [eexists; reflexivity | reflexivity].
  - split; [reflexivity |].
    split; [apply owned_not_fixed; assumption |]. auto.
Qed.

(** The bytes a mapper walks, cut out of the block they lie in. *)
Lemma region_split (region : list byte) (o avail : N) :
  o + avail <= N.of_nat (length region) ->
  region = take (N.to_nat o) region
           ++ take (N.to_nat avail) (drop (N.to_nat o) region)
           ++ drop (N.to_nat o + N.to_nat avail) region /\
  N.of_nat (length (take (N.to_nat o) region)) = o /\
  N.of_nat (length (take (N.to_nat avail) (drop (N.to_nat o) region)))
    = avail.
Proof.
  intros Hle. split; [| split].
  - rewrite <- drop_drop, !take_drop. reflexivity.
  - rewrite length_take. lia.
  - rewrite length_take, length_drop. lia.
Qed.

(** C6: let [avail] bytes at offset [o] of a block of the store be
    mapped, and let a reader be given the same bytes.  The mapper
    constructor returns exactly when the reader constructor does, and
    the two vectors then have the same [size()], the same [total_size()]
    and the same element at every index.  The mapped one is fixed: it
    has no buffer, its [const_objs_] points into the mapped block just
    after the header, and the store is left as it was, so nothing was
    copied.  The read one is not fixed. *)
Theorem mapped_equals_read (h h' : heap) (b : nat) (region : list byte)
    (o avail : N) :
  h !! b = Some (Some region) ->
  o + avail <= N.of_nat (length region) ->
  let mapped :=
    Vector_of_Mapper h (Mapper_.open (Some (mkAddr b o)) avail) in
  let read :=
    Vector_of_Reader h'
      (mkReader (take (N.to_nat avail) (drop (N.to_nat o) region))) in
  let sm := fst (snd mapped) in
  let sr := fst (snd read) in
  (fst mapped = Ok tt <-> fst read = Ok tt) /\
  (fst mapped = Ok tt ->
   size (this sm) = size (this sr) /\
   total_size (this sm) = total_size (this sr) /\
   (forall i, i < size (this sm) ->
      is_Some (nth (this sm) (mem sm) i) /\
      nth (this sm) (mem sm) i = nth (this sr) (mem sr) i) /\
   fixed (this sm) = true /\ fixed (this sr) = false /\
   mem sm = h /\
   const_objs_ (this sm) = Some (mkAddr b (o + 8)) /\
   buf_ (this sm) = None).
Proof.
  intros Hb Hle. cbv zeta.
  destruct (region_split region o avail Hle) as (Hreg & Hpre & Hlen).
  set (bytes := take (N.to_nat avail) (drop (N.to_nat o) region)) in *.
  assert (Hboth : forall hdr bs pad rest,
    bytes = hdr ++ bs ++ pad ++ rest -> framed hdr bs pad ->
    exists sm m' sr r',
      Vector_of_Mapper h (Mapper_.open (Some (mkAddr b o)) avail)
        = (Ok tt, (sm, m')) /\
      Vector_of_Reader h' (mkReader bytes) = (Ok tt, (sr, r')) /\
      size (this sm) = size (this sr) /\
      total_size (this sm) = total_size (this sr) /\
      (forall i, i < size (this sm) ->
         is_Some (nth (this sm) (mem sm) i) /\
         nth (this sm) (mem sm) i = nth (this sr) (mem sr) i) /\
      fixed (this sm) = true /\ fixed (this sr) = false /\
      mem sm = h /\
      const_objs_ (this sm) = Some (mkAddr b (o + 8)) /\
      buf_ (this sm) = None).
  { intros hdr bs pad rest Hbytes Hfr.
    rewrite <- Hpre, <- Hlen, Hbytes.
    apply framed_mapped_equals_read
      with (post := drop (N.to_nat o + N.to_nat avail) region);
      [assumption |].
    rewrite Hb. do 2 f_equal. rewrite Hreg at 1. rewrite Hbytes.
    rewrite <- !app_assoc. reflexivity. }
  split; [split |].
  - intros Hm.
    destruct (Vector_of_Mapper h _) as [r x] eqn:E. cbn [fst] in Hm. subst r.
    destruct (ctor_Mapper_inv h b region o avail x Hb Hle E)
      as (hdr & bs & pad & rest & Hbytes & Hfr).
    destruct (Hboth hdr bs pad rest Hbytes Hfr)
      as (sm & m' & sr & r' & _ & -> & _). reflexivity.
  - intros Hr.
    destruct (Vector_of_Reader h' _) as [r x] eqn:E. cbn [fst] in Hr. subst r.
    destruct (ctor_Reader_inv h' bytes x E)
      as (hdr & bs & pad & rest & Hbytes & Hfr).
    destruct (Hboth hdr bs pad rest Hbytes Hfr)
      as (sm & m' & sr & r' & -> & _). reflexivity.
  - intros Hm.
    destruct (Vector_of_Mapper h _) as [r x] eqn:E. cbn [fst] in Hm. subst r.
    destruct (ctor_Mapper_inv h b region o avail x Hb Hle E)
      as (hdr & bs & pad & rest & Hbytes & Hfr).
    destruct (Hboth hdr bs pad rest Hbytes Hfr)
      as (sm & m' & sr & r' & Em & -> & Hrest).
    injection Em as ->. exact Hrest.
Qed.

(** C7 (amended): on a fixed vector, [shrink] throws [std::logic_error]
    and leaves the vector and the store as they were; [push_back],
    [pop_back], both [resize], [reserve] and the non-const [begin],
    [end], [operator[]], [front] and [back] fail their
    [assert(!fixed())] instead, which is no exception, and leave the
    vector and the store as they were too. *)
Theorem mutation_of_fixed (s : vstate) :
  fixed (this s) = true ->
  shrink s = (Throw logic_error, s) /\
  (forall x, push_back x s = (AssertFail, s)) /\
  pop_back s = (AssertFail, s) /\
  (forall n, resize n s = (AssertFail, s)) /\
  (forall n x, resize_fill n x s = (AssertFail, s)) /\
  (forall n, reserve n s = (AssertFail, s)) /\
  begin_ s = (AssertFail, s) /\
  end_ s = (AssertFail, s) /\
  (forall i, at_ i s = (AssertFail, s)) /\
  front s = (AssertFail, s) /\
  back s = (AssertFail, s).
Proof.
  intros Hf.
  unfold shrink, push_back, pop_back, resize, resize_fill, reserve, begin_,
    end_, at_, front, back, bind, get, assert, MARISA_THROW_IF, throw.
  rewrite Hf. cbn. repeat split; reflexivity.
Qed.

(** C8: starting from an owned vector, after any sequence of [push_back],
    [pop_back], [resize], [reserve] and [shrink] calls that all return,
    [size() <= capacity() <= max_size()]; and a [reserve] or a [shrink]
    that follows keeps [size()] and, at every index below it, the
    element. *)
Theorem mutators_keep_invariant (os : list op) (s s' : vstate) :
  owned_wf s -> run_ops os s = (Ok tt, s') ->
  size (this s') <= capacity (this s') /\
  capacity (this s') <= max_size /\
  (forall n s'', reserve n s' = (Ok tt, s'') ->
     size (this s'') = size (this s') /\
     forall i, i < size (this s') ->
       is_Some (nth (this s') (mem s') i) /\
       nth (this s'') (mem s'') i = nth (this s') (mem s') i) /\
  (forall s'', shrink s' = (Ok tt, s'') ->
     size (this s'') = size (this s') /\
     forall i, i < size (this s') ->
       is_Some (nth (this s') (mem s') i) /\
       nth (this s'') (mem s'') i = nth (this s') (mem s') i).
Proof.
  intros Hwf Hrun. pose proof (run_ops_wf os s s' Hwf Hrun) as Hwf'.
  pose proof Hwf' as (Hs & Hm & _). unfold size, capacity.
  split; [assumption |]. split; [assumption |]. split.
  - intros n s'' Hr.
    destruct (reserve_cases n s' Hwf')
      as [[_ E] | (_ & s1 & E & Hw1 & Hsz1 & Hpl1 & _)];
      rewrite E in Hr; [discriminate |]. injection Hr as <-.
    split; [assumption |]. intros i Hi.
    apply same_payload_same_elements; assumption.
  - intros s'' Hr.
    destruct (shrink_ok s' Hwf') as (s1 & E & Hw1 & Hsz1 & Hpl1 & _).
    rewrite E in Hr. injection Hr as <-.
    split; [assumption |]. intros i Hi.
    apply same_payload_same_elements; assumption.
Qed.

End WithT.

(** C4: for the empty vector of bytes [io_size()] is 8, while [write]
    emits 16 bytes, the header and 8 bytes of padding; for the vector
    [sample8] of 8 bytes [io_size()] is 16 and [write] emits 24. *)
Theorem io_size_differs_from_write :
  io_size (T := byte) Vector_default = 8 /\
  write (T := byte) Vector_default [] (mkWriter [])
    = (Ok tt, mkWriter (replicate 16 x00)) /\
  io_size (T := byte) (this sample8) = 16 /\
  (exists out,
     write (T := byte) (this sample8) (mem sample8) (mkWriter [])
       = (Ok tt, mkWriter out) /\ length out = 24%nat).
Proof.
  split; [reflexivity |]. split; [reflexivity |]. split; [reflexivity |].
  eexists. split; vm_compute; reflexivity.
Qed.

(** [io_size()] keeps only the low 32 bits of the rounded size: for a
    mapped vector of [2^32] bytes it is 8. *)
Lemma io_size_truncates (p : pointer) :
  io_size (T := byte) (mkVector None p (2 ^ 32) 0) = 8.
Proof. reflexivity. Qed.

(** C9: the owned vector [sample3] holds 1, 2, 3; its copy has size 3
    and a buffer of its own, and the source is as it was, but the copy
    holds 0, 0, 0. *)
Theorem copy_of_owned_loses_elements :
  exists c,
    Vector_copy (T := byte) (this sample3) (mem sample3) = (Ok tt, c) /\
    size (this c) = 3 /\
    fixed (this c) = false /\
    buf_ (this c) <> buf_ (this sample3) /\
    List.map (nth (T := byte) (this sample3) (mem c)) [0; 1; 2]
      = [Some x01; Some x02; Some x03] /\
    List.map (nth (T := byte) (this c) (mem c)) [0; 1; 2]
      = [Some x00; Some x00; Some x00].
Proof.
  eexists. split; [vm_compute; reflexivity |].
  repeat split; try reflexivity. vm_compute. discriminate.
Qed.

(** C5 at [mapped3]: the three bytes of a mapped vector, written and read
    back from a source that goes on after them. *)
Lemma write_then_read_witness :
  exists out s',
    write (T := byte) (this mapped3) (mem mapped3) (mkWriter [])
      = (Ok tt, mkWriter ([] ++ out)) /\
    Vector_of_Reader (T := byte) [] (mkReader (out ++ [xee]))
      = (Ok tt, (s', mkReader [xee])) /\
    size (this s') = size (this mapped3) /\
    forall i, i < size (this mapped3) ->
      is_Some (nth (T := byte) (this mapped3) (mem mapped3) i) /\
      nth (T := byte) (this s') (mem s') i
      = nth (T := byte) (this mapped3) (mem mapped3) i.
Proof.
  apply (write_then_read (T := byte)).
  split; [vm_compute; discriminate | eexists; vm_compute; reflexivity].
Defined.

(** C6 at the region of [mapped3]: seventeen bytes from offset 1 of
    block 0. *)
Lemma mapped_equals_read_witness :
  let region := [xff] ++ le_encode 8 3 ++ [x01; x02; x03]
                ++ replicate 5 x00 ++ [xee] in
  let mapped :=
    Vector_of_Mapper (T := byte) (mem mapped3)
      (Mapper_.open (Some (mkAddr 0 1)) 17) in
  let read :=
    Vector_of_Reader (T := byte) []
      (mkReader (take (N.to_nat 17) (drop (N.to_nat 1) region))) in
  let sm := fst (snd mapped) in
  let sr := fst (snd read) in
  fst mapped = Ok tt /\ fst read = Ok tt /\
  size (this sm) = size (this sr) /\
  total_size (T := byte) (this sm) = total_size (T := byte) (this sr) /\
  (forall i, i < size (this sm) ->
     is_Some (nth (T := byte) (this sm) (mem sm) i) /\
     nth (T := byte) (this sm) (mem sm) i
     = nth (T := byte) (this sr) (mem sr) i) /\
  fixed (this sm) = true /\ fixed (this sr) = false /\
  mem sm = mem mapped3 /\
  const_objs_ (this sm) = Some (mkAddr 0 (1 + 8)) /\
  buf_ (this sm) = None.
Proof.
  split; [reflexivity |]. split; [reflexivity |].
  apply (mapped_equals_read (T := byte) (mem mapped3) [] 0
           ([xff] ++ le_encode 8 3 ++ [x01; x02; x03]
            ++ replicate 5 x00 ++ [xee]) 1 17).
  - reflexivity.
  - vm_compute. discriminate.
  - reflexivity.
Defined.

(** C7 (amended) at [mapped3]. *)
Lemma mutation_of_fixed_witness :
  shrink (T := byte) mapped3 = (Throw logic_error, mapped3) /\
  push_back x09 mapped3 = (AssertFail, mapped3) /\
  pop_back mapped3 = (AssertFail, mapped3) /\
  reserve (T := byte) 10 mapped3 = (AssertFail, mapped3).
Proof.
  destruct (mutation_of_fixed (T := byte) mapped3 ltac:(reflexivity))
    as (H1 & H2 & H3 & _ & _ & H6 & _).
  split; [exact H1 |]. split; [exact (H2 x09) |].
  split; [exact H3 | exact (H6 10)].
Defined.

(** C7, as stated, fails at [mapped3], the vector a mapper constructs on
    a region holding three bytes: it is fixed, and [pop_back] on it does
    not end with [std::logic_error]. *)
Lemma pop_back_of_mapped_is_no_logic_error :
  ~ (forall s : vstate,
       fixed (this s) = true ->
       fst (pop_back s) = Throw logic_error /\ snd (pop_back s) = s).
Proof.
  intros Hall.
  destruct (Hall mapped3 ltac:(reflexivity)) as [Hthrow _].
  vm_compute in Hthrow. discriminate Hthrow.
Qed.

(** [mapped3] is what the mapper constructor returns. *)
Lemma mapped3_is_mapped :
  exists m',
    Vector_of_Mapper (T := byte) (mem mapped3)
      (Mapper_.open (Some (mkAddr 0 1)) 17) = (Ok tt, (mapped3, m')).
Proof. eexists. vm_compute. reflexivity. Qed.

(** C8 on a new vector of bytes. *)
Lemma mutators_keep_invariant_witness :
  let s := mkState Vector_default [] in
  let os := [PushBack x01; PushBack x02; Reserve 10; PopBack; Shrink;
             ResizeFill 3 x07; Resize 2] in
  exists s', run_ops os s = (Ok tt, s') /\
    size (this s') <= capacity (this s') /\
    capacity (this s') <= max_size (T := byte) /\
    nth (this s') (mem s') 0 = Some x01.
Proof.
  eexists. split; [vm_compute; reflexivity |].
  destruct (mutators_keep_invariant (T := byte)
    [PushBack x01; PushBack x02; Reserve 10; PopBack; Shrink;
     ResizeFill 3 x07; Resize 2]
    (mkState Vector_default []) _
    ltac:(unfold owned_wf; cbn; repeat split; lia)
    ltac:(vm_compute; reflexivity)) as (H1 & H2 & _).
  split; [exact H1 | split; [exact H2 | reflexivity]].
Defined.

End VectorProps.

(** ** More about [Vector<T>]: elements, capacity, storage, I/O *)

Module VectorLaws.
Import Vector VectorProps.

Section WithT.
Context {T : Type} `{Trivial T}.

(** *** What a vector does to the store *)

Lemma confined_refl (s : vstate) : owned_wf s -> confined s s.
Proof.
  intros Hwf. unfold confined, foreign. split; [lia |]. split; [auto |].
  split.
  - intros b bs Hl. pose proof (lookup_lt_Some _ _ _ Hl).
    destruct (decide (buf_ (this s) = Some b)); auto.
  - intros b Hb [_ Hn]. contradiction.
Qed.

Lemma confined_realloc (n : N) (s0 s : vstate) :
  owned_wf s -> confined s0 s -> confined s0 (realloc_state n s).
Proof.
  intros Hwf (Hlen & Hfr & Hlive & Hbuf).
  unfold confined, realloc_state; cbn [this mem buf_].
  assert (Hrel : forall b, buf_ (this s) <> Some b ->
            release (mem s ++ [Some (payload s ++ replicate
              (N.to_nat (sizeof T * (n - size_ (this s)))) x00)])
              (buf_ (this s)) !! b
            = (mem s ++ [Some (payload s ++ replicate
              (N.to_nat (sizeof T * (n - size_ (this s)))) x00)]) !! b).
  { intros b Hb. destruct (buf_ (this s)) as [b0 |]; [| reflexivity].
    cbn. apply list_lookup_insert_ne. congruence. }
  split.
  { destruct (buf_ (this s)); cbn; rewrite ?length_insert, length_app; lia. }
  split.
  { intros b Hb. pose proof Hb as [Hlt _].
    rewrite Hrel by (intros E; exact (Hbuf b E Hb)).
    rewrite lookup_app_l by lia. auto. }
  split.
  { intros b bs Hl.
    destruct (decide (b = length (mem s))) as [-> | Hne]; [auto |].
    left.
    destruct (decide (buf_ (this s) = Some b)) as [E | E].
    - rewrite E in Hl. cbn in Hl.
      pose proof (owned_buf_lt s b Hwf E).
      rewrite list_lookup_insert_eq in Hl by (rewrite length_app; lia).
      discriminate.
    - rewrite Hrel in Hl by assumption.
      pose proof (lookup_lt_Some _ _ _ Hl) as Hlt.
      rewrite length_app in Hlt; cbn in Hlt.
      rewrite lookup_app_l in Hl by lia.
      destruct (Hlive b bs Hl); [assumption | contradiction]. }
  intros b [= <-] [Hlt _]. lia.
Qed.

Lemma confined_insert (s0 s : vstate) (v : Vector) (b : nat)
    (x : option (list byte)) :
  confined s0 s -> buf_ (this s) = Some b -> buf_ v = Some b ->
  confined s0 (mkState v (<[b := x]> (mem s))).
Proof.
  intros (Hlen & Hfr & Hlive & Hbuf) Hb Hv.
  unfold confined; cbn [this mem]. rewrite Hv.
  split; [rewrite length_insert; assumption |]. split.
  { intros b' Hb'. rewrite list_lookup_insert_ne; [auto |].
    intros <-. exact (Hbuf b Hb Hb'). }
  split.
  { intros b' bs Hl. destruct (decide (b' = b)) as [-> | Hne]; [auto |].
    rewrite list_lookup_insert_ne in Hl by congruence.
    destruct (Hlive b' bs Hl) as [? | E]; [auto | congruence]. }
  intros b' [= <-]. apply Hbuf. assumption.
Qed.

Lemma confined_this (s0 s : vstate) (v : Vector) :
  confined s0 s -> buf_ v = buf_ (this s) -> confined s0 (mkState v (mem s)).
Proof. unfold confined; cbn [this mem]. intros ? ->. assumption. Qed.

Lemma poke_inv (p : pointer) (bs : list byte) (s s' : vstate) (u : unit) :
  poke p bs s = (Ok u, s') ->
  this s' = this s /\
  (mem s' = mem s \/
   exists a x, p = Some a /\ mem s' = <[blk a := x]> (mem s)).
Proof.
  unfold poke, store. destruct bs as [| c bs].
  - intros [= _ <-]. auto.
  - destruct p as [a |]; [| discriminate].
    destruct (mem s !! blk a) as [[old |] |]; try discriminate.
    destruct (_ <=? _); [| discriminate].
    intros [= _ <-]. cbn. split; [reflexivity |]. right. eauto.
Qed.

(** A write through a pointer into the vector's own array. *)
Lemma poke_own_confined (s0 s s' : vstate) (i : N) (bs : list byte) :
  confined s0 s ->
  poke (index (match buf_ (this s) with
               | Some b => Some (mkAddr b 0)
               | None => None
               end) i) bs s = (Ok tt, s') ->
  this s' = this s /\ confined s0 s'.
Proof.
  intros Hc Hp. apply poke_inv in Hp as (Ht & Hm).
  split; [assumption |].
  destruct Hm as [Hm | (a & x & Hp & Hm)].
  - destruct s' as [v' m']; cbn in *; subst. destruct s; assumption.
  - destruct (buf_ (this s)) as [b |] eqn:Hb; [| discriminate].
    injection Hp as <-. cbn [blk] in Hm.
    destruct s' as [v' m']; cbn in *; subst.
    apply confined_insert; assumption.
Qed.

Lemma for_loop_pres {S} (P : S -> Prop) (body : N -> M S unit)
    (k : nat) (i : N) (s s' : S) :
  P s ->
  (forall j s0 s1, P s0 -> body j s0 = (Ok tt, s1) -> P s1) ->
  for_loop k i body s = (Ok tt, s') -> P s'.
Proof.
  intros HP Hbody. revert i s HP. induction k as [| k IH]; intros i s HP.
  - intros [= <-]. assumption.
  - cbn [for_loop]. intros Hl. apply bind_inv in Hl as ([] & s1 & Hb & Hl).
    eapply IH; [| exact Hl]. eapply Hbody; eassumption.
Qed.

Lemma reserve_confined (n : N) (s0 s s' : vstate) :
  owned_wf s -> confined s0 s -> reserve n s = (Ok tt, s') -> confined s0 s'.
Proof.
  intros Hwf Hc. rewrite (reserve_unfold n s Hwf).
  destruct (n <=? capacity_ (this s)); [intros [= <-]; assumption |].
  destruct (n <=? max_size); [| discriminate].
  intros [= <-]. apply confined_realloc; assumption.
Qed.

Lemma get_inv {S} (s a s' : S) : get s = (Ok a, s') -> a = s /\ s' = s.
Proof. intros [= <- <-]. auto. Qed.

Lemma assert_inv {S} (c : bool) (s s' : S) (u : unit) :
  assert c s = (Ok u, s') -> c = true /\ s' = s.
Proof. unfold assert. destruct c; [| discriminate]. intros [= <-]. auto. Qed.

Lemma objs_inv (s s' : vstate) (p : pointer) :
  objs s = (Ok p, s') ->
  s' = s /\ p = match buf_ (this s) with
                | Some b => Some (mkAddr b 0)
                | None => None
                end.
Proof. intros [= <- <-]. auto. Qed.

Lemma run_op_confined (o : op) (s0 s s' : vstate) :
  owned_wf s -> confined s0 s -> run_op o s = (Ok tt, s') -> confined s0 s'.
Proof.
  intros Hwf Hc. destruct o as [x | | n | n x | n |]; cbn [run_op].
  - unfold push_back. intros Hr.
    apply bind_inv in Hr as (? & ? & [-> ->]%get_inv & Hr).
    apply bind_inv in Hr as (? & ? & [_ ->]%assert_inv & Hr).
    apply bind_inv in Hr as (? & ? & [_ ->]%assert_inv & Hr).
    apply bind_inv in Hr as ([] & s1 & Hres & Hr).
    apply bind_inv in Hr as (p & ? & [-> ->]%objs_inv & Hr).
    apply bind_inv in Hr as (? & ? & [-> ->]%get_inv & Hr).
    apply bind_inv in Hr as ([] & s2 & Hpk & Hr).
    injection Hr as <-.
    pose proof (reserve_confined _ _ _ _ Hwf Hc Hres) as Hc1.
    destruct (poke_own_confined s0 s1 s2 _ _ Hc1 Hpk) as [Ht Hc2].
    apply confined_this; [assumption | reflexivity].
  - rewrite (pop_back_unfold s Hwf).
    destruct (size_ (this s) =? 0); [discriminate |]. intros [= <-].
    apply confined_this; [assumption | reflexivity].
  - unfold resize. intros Hr.
    apply bind_inv in Hr as (? & ? & [-> ->]%get_inv & Hr).
    apply bind_inv in Hr as (? & ? & [_ ->]%assert_inv & Hr).
    apply bind_inv in Hr as ([] & s1 & Hres & Hr).
    apply bind_inv in Hr as (p & ? & [-> ->]%objs_inv & Hr).
    apply bind_inv in Hr as (? & ? & [-> ->]%get_inv & Hr).
    apply bind_inv in Hr as ([] & s2 & Hloop & Hr).
    injection Hr as <-.
    pose proof (reserve_confined _ _ _ _ Hwf Hc Hres) as Hc1.
    apply confined_this; [| reflexivity].
    apply (for_loop_pres (fun s2 => this s2 = this s1 /\ confined s0 s2)
             _ _ _ _ _ (conj eq_refl Hc1)) in Hloop; [apply Hloop |].
    intros j sa sb [Hta Hca] Hb. unfold construct_default in Hb.
    destruct (default_init T) as [d |].
    + rewrite <- Hta in Hb.
      destruct (poke_own_confined s0 sa sb _ _ Hca Hb) as [Htb Hcb].
      split; [congruence | assumption].
    + injection Hb as <-. auto.
  - unfold resize_fill. intros Hr.
    apply bind_inv in Hr as (? & ? & [-> ->]%get_inv & Hr).
    apply bind_inv in Hr as (? & ? & [_ ->]%assert_inv & Hr).
    apply bind_inv in Hr as ([] & s1 & Hres & Hr).
    apply bind_inv in Hr as (p & ? & [-> ->]%objs_inv & Hr).
    apply bind_inv in Hr as (? & ? & [-> ->]%get_inv & Hr).
    apply bind_inv in Hr as ([] & s2 & Hfill & Hr).
    injection Hr as <-.
    pose proof (reserve_confined _ _ _ _ Hwf Hc Hres) as Hc1.
    apply confined_this; [| reflexivity].
    destruct (size_ (this s1) <? n).
    + apply (poke_own_confined s0 s1 s2 _ _ Hc1 Hfill).
    + injection Hfill as <-. assumption.
  - apply reserve_confined; assumption.
  - rewrite (shrink_unfold s Hwf). intros [= <-].
    destruct (size_ (this s) =? capacity_ (this s)); [assumption |].
    apply confined_realloc; assumption.
Qed.

(** *** How a mutator ends *)

Lemma run_op_outcome (o : op) (s : vstate) :
  owned_wf s ->
  (within_limits o (this s) /\
   exists s', run_op o s = (Ok tt, s') /\ owned_wf s') \/
  (~ within_limits o (this s) /\ run_op o s = (AssertFail, s)).
Proof.
  intros Hwf. destruct o as [x | | n | n x | n |]; cbn [run_op within_limits].
  - destruct (push_back_cases x s Hwf) as [[? E] | (? & s' & E & Hw & _)];
      [right; split; [lia | assumption] | left; eauto].
  - rewrite (pop_back_unfold s Hwf).
    destruct (N.eqb_spec (size_ (this s)) 0) as [E | E];
      [right; split; [lia | reflexivity] | left].
    split; [lia |]. eexists. split; [reflexivity |].
    eapply pop_back_wf; [exact Hwf |]. rewrite (pop_back_unfold s Hwf).
    destruct (N.eqb_spec (size_ (this s)) 0); [lia | reflexivity].
  - destruct (resize_cases n s Hwf) as [[? E] | (? & s' & E & Hw & _)];
      [right; split; [lia | assumption] | left; eauto].
  - destruct (resize_fill_cases n x s Hwf) as [[? E] | (? & s' & E & Hw & _)];
      [right; split; [lia | assumption] | left; eauto].
  - destruct (reserve_cases n s Hwf) as [[? E] | (? & s' & E & Hw & _)];
      [right; split; [lia | assumption] | left; eauto].
  - left. split; [exact I |].
    destruct (shrink_ok s Hwf) as (s' & E & Hw & _). eauto.
Qed.

(** *** Elements across a change of size *)

(** Changing [size_] inside the capacity keeps the representation, and
    the bytes of the elements below both sizes. *)
Lemma with_size_wf (n : N) (s : vstate) :
  owned_wf s -> n <= capacity_ (this s) -> owned_wf (with_size n s).
Proof.
  intros (Hs & Hm & Hb) Hn. unfold owned_wf, with_size; cbn.
  repeat split; assumption.
Qed.

Lemma with_size_payload (n m : N) (s : vstate) :
  owned_wf s -> n <= capacity_ (this s) -> m <= n -> m <= size_ (this s) ->
  take (N.to_nat (sizeof T * m)) (payload (with_size n s))
  = take (N.to_nat (sizeof T * m)) (payload s).
Proof.
  intros Hwf Hn Hmn Hms.
  destruct (N.eq_dec m 0) as [-> | Hm0].
  { rewrite N.mul_0_r. change (N.to_nat 0) with 0%nat. rewrite !take_0.
    reflexivity. }
  pose proof (with_size_wf n s Hwf Hn) as Hwf'.
  destruct (owned_block s Hwf ltac:(lia))
    as (b & old & Hbuf & Hp & Hl & Hlen & Hpay).
  destruct (owned_block (with_size n s) Hwf' ltac:(cbn; lia))
    as (b' & old' & Hbuf' & Hp' & Hl' & Hlen' & Hpay').
  cbn in Hbuf', Hl'. assert (b' = b) by congruence. subst b'.
  assert (old' = old) by congruence. subst old'.
  rewrite Hpay, Hpay'. cbn [with_size this size_].
  rewrite !take_take. f_equal.
  assert (sizeof T * m <= sizeof T * n) by (apply N.mul_le_mono_l; lia).
  assert (sizeof T * m <= sizeof T * size_ (this s))
    by (apply N.mul_le_mono_l; lia).
  lia.
Qed.

(** Elements are read off the payload: vectors whose payloads agree on
    the first [m] elements hold the same elements below [m]. *)
Lemma same_prefix_same_elements (s s' : vstate) (m i : N) :
  owned_wf s -> owned_wf s' ->
  m <= size_ (this s) -> m <= size_ (this s') ->
  take (N.to_nat (sizeof T * m)) (payload s')
  = take (N.to_nat (sizeof T * m)) (payload s) ->
  i < m ->
  is_Some (nth (this s) (mem s) i) /\
  nth (this s') (mem s') i = nth (this s) (mem s) i.
Proof.
  intros Hwf Hwf' Hm Hm' Hpre Hi.
  rewrite (nth_owned s i Hwf), (nth_owned s' i Hwf') by lia.
  split; [eexists; reflexivity |]. do 2 f_equal.
  assert (Hin : sizeof T * (i + 1) <= sizeof T * m)
    by (apply N.mul_le_mono_l; lia).
  assert (Hcut : forall P : list byte,
            take (N.to_nat (sizeof T)) (drop (N.to_nat (sizeof T * i)) P)
            = take (N.to_nat (sizeof T))
                (drop (N.to_nat (sizeof T * i))
                   (take (N.to_nat (sizeof T * m)) P))).
  { intros P. rewrite skipn_firstn_comm, take_take. f_equal. lia. }
  rewrite (Hcut (payload s')), (Hcut (payload s)), Hpre. reflexivity.
Qed.

(** Writing [k] more elements just after the last one. *)
Lemma poke_extend (s : vstate) (b : nat) (bs : list byte) (k : N) :
  owned_wf s -> buf_ (this s) = Some b ->
  N.of_nat (length bs) = sizeof T * k ->
  size_ (this s) + k <= capacity_ (this s) ->
  exists s', poke (Some (mkAddr b (sizeof T * size_ (this s)))) bs s
             = (Ok tt, s') /\
    this s' = this s /\
    owned_wf (with_size (size_ (this s) + k) s') /\
    payload (with_size (size_ (this s) + k) s') = payload s ++ bs.
Proof.
  intros Hwf Hbuf Hlen Hk. pose proof Hwf as (Hs & Hm & _).
  pose proof max_size_le as Hmax.
  destruct (N.eq_dec k 0) as [-> | Hk0].
  { rewrite N.mul_0_r in Hlen. destruct bs; [| discriminate].
    exists s. split; [destruct s; reflexivity |]. split; [reflexivity |].
    rewrite N.add_0_r, app_nil_r.
    replace (with_size (size_ (this s)) s) with s
      by (destruct s as [[] ?]; reflexivity).
    auto. }
  assert (Hsk : sizeof T * (size_ (this s) + k)
                <= sizeof T * capacity_ (this s))
    by (apply N.mul_le_mono_l; assumption).
  destruct (owned_block s Hwf ltac:(lia))
    as (b' & old & Hbuf' & Hp & Hl & Hlo & Hpay).
  assert (b' = b) by congruence. subst b'.
  destruct (poke_tail s b (sizeof T * size_ (this s)) bs Hwf Hbuf)
    as (s' & Hpoke & Hthis & Hwf' & Hpay' & _ & old' & Hold' & Hblk');
    [lia | lia |].
  assert (old' = old) by congruence. subst old'.
  exists s'. split; [assumption |]. split; [assumption |].
  assert (Hw : owned_wf (with_size (size_ (this s) + k) s'))
    by (apply with_size_wf; [assumption | rewrite Hthis; assumption]).
  split; [assumption |].
  rewrite Hpay. unfold payload, with_size; cbn [this mem const_objs_ size_].
  rewrite Hthis, Hp, bytes_of_small by lia.
  erewrite load_block; [| exact Hblk' |].
  2:{ rewrite !length_app, length_take, length_drop. lia. }
  change (N.to_nat 0) with 0%nat. rewrite drop_0.
  rewrite app_assoc, take_app_length'; [reflexivity |].
  rewrite length_app, length_take. lia.
Qed.

(** *** [resize] and [push_back], element by element *)

Lemma payload_take_all (s : vstate) :
  owned_wf s ->
  take (N.to_nat (sizeof T * size_ (this s))) (payload s) = payload s.
Proof.
  intros Hwf. pose proof (payload_length s Hwf). apply take_ge. lia.
Qed.

(** [resize(n)] is [size_ = n] on a state that holds the elements the
    vector had. *)
Lemma resize_keeps (n : N) (s : vstate) :
  owned_wf s -> n <= max_size ->
  exists s2, resize n s = (Ok tt, with_size n s2) /\ owned_wf s2 /\
    size_ (this s2) = size_ (this s) /\ payload s2 = payload s /\
    n <= capacity_ (this s2).
Proof.
  intros Hwf Hn. unfold resize.
  erewrite bind_ok by reflexivity.
  erewrite bind_ok by (apply assert_true; rewrite owned_not_fixed; auto).
  destruct (reserve_cases n s Hwf)
    as [[? _] | (_ & s1 & Hr & Hwf1 & Hsz1 & Hpl1 & Hcap1)]; [lia |].
  erewrite bind_ok by exact Hr.
  erewrite bind_ok by apply objs_owned.
  erewrite bind_ok by reflexivity.
  destruct (for_loop_inv
              (fun s' => this s' = this s1 /\ owned_wf s' /\
                         payload s' = payload s1)
              (fun i => construct_default
                 (index (match buf_ (this s1) with
                         | Some b => Some (mkAddr b 0)
                         | None => None
                         end) i))
              (N.to_nat (n - size_ (this s1))) (size_ (this s1)) s1)
    as (s2 & Hloop & Hthis & Hwf2 & Hpl2); [auto | |].
  { intros j s0 Hj (Ht0 & Hw0 & Hp0). rewrite <- Ht0.
    destruct (construct_default_tail s0 j Hw0) as (s3 & Hc & Ht3 & Hw3 & Hp3);
      [rewrite Ht0; lia | rewrite Ht0; lia |].
    exists s3. rewrite Ht3. split; [assumption |].
    split; [reflexivity |]. split; [assumption | congruence]. }
  erewrite bind_ok by exact Hloop.
  exists s2. split; [reflexivity |]. split; [assumption |].
  rewrite Hthis. split; [assumption |]. split; [congruence | assumption].
Qed.

(** [resize(n, x)]: the elements that stay, then copies of [x]. *)
Lemma resize_fill_payload (n : N) (x : T) (s : vstate) :
  owned_wf s -> n <= max_size ->
  exists s', resize_fill n x s = (Ok tt, s') /\ owned_wf s' /\
    size_ (this s') = n /\
    payload s'
    = take (N.to_nat (sizeof T * n))
        (payload s ++ mjoin (replicate (N.to_nat (n - size_ (this s)))
                                       (to_bytes x))).
Proof.
  intros Hwf Hn. unfold resize_fill. pose proof max_size_le as Hmax.
  erewrite bind_ok by reflexivity.
  erewrite bind_ok by (apply assert_true; rewrite owned_not_fixed; auto).
  destruct (reserve_cases n s Hwf)
    as [[? _] | (_ & s1 & Hr & Hwf1 & Hsz1 & Hpl1 & Hcap1)]; [lia |].
  erewrite bind_ok by exact Hr.
  erewrite bind_ok by apply objs_owned.
  erewrite bind_ok by reflexivity.
  pose proof (payload_length s Hwf) as Hlen.
  destruct (N.ltb_spec (size_ (this s1)) n) as [Hlt | Hge].
  - destruct (owned_block s1 Hwf1 ltac:(lia)) as (b & old & Hbuf & _).
    rewrite Hbuf. unfold fill_n, index, ptr_add; cbn [blk off].
    pose proof Hwf1 as (Hs1 & Hm1 & _). pose proof (to_bytes_length x) as Hx.
    rewrite bytes_of_small, N.add_0_l, size_sub_small by lia.
    destruct (poke_extend s1 b
                (mjoin (replicate (N.to_nat (n - size_ (this s1)))
                                  (to_bytes x)))
                (n - size_ (this s1)) Hwf1 Hbuf)
      as (s2 & Hp & Ht & Hw & Hpl); [| lia |].
    { rewrite length_mjoin_replicate. nia. }
    erewrite bind_ok by exact Hp.
    replace (size_ (this s1) + (n - size_ (this s1))) with n in * by lia.
    exists (with_size n s2). split; [reflexivity |].
    split; [assumption |]. split; [reflexivity |].
    rewrite Hpl, Hpl1, Hsz1. symmetry. apply take_ge.
    rewrite length_app, length_mjoin_replicate. nia.
  - erewrite bind_ok by reflexivity.
    exists (with_size n s1). split; [reflexivity |].
    pose proof (with_size_wf n s1 Hwf1 Hcap1) as Hw.
    split; [assumption |]. split; [reflexivity |].
    replace (N.to_nat (n - size_ (this s))) with 0%nat by lia.
    cbn [replicate mjoin]. rewrite app_nil_r, <- Hpl1.
    rewrite <- (with_size_payload n n s1) by (assumption || lia).
    symmetry. apply (payload_take_all (with_size n s1) Hw).
Qed.



(** X2: a mutator of an owned vector that returns leaves the size its
    name promises ([push_back] one more, [pop_back] one less, [resize]
    the size asked for, [reserve] and [shrink] the same), and every
    element whose index is below both the old and the new size is the
    element it was. *)
Theorem mutators_keep_elements (o : op) (s s' : vstate) :
  owned_wf s -> run_op o s = (Ok tt, s') ->
  size (this s') = size_after o (size (this s)) /\
  forall i, i < size (this s) -> i < size (this s') ->
    is_Some (nth (this s) (mem s) i) /\
    nth (this s') (mem s') i = nth (this s) (mem s) i.
Proof.
  intros Hwf Hr. unfold size.
  pose proof (run_op_wf o s s' Hwf Hr) as Hwf'.
  pose proof (payload_length s Hwf) as Hlen.
  assert (Hgoal : size_ (this s') = size_after o (size_ (this s)) /\
            forall m, m <= size_ (this s) -> m <= size_ (this s') ->
              take (N.to_nat (sizeof T * m)) (payload s')
              = take (N.to_nat (sizeof T * m)) (payload s)).
  { destruct o as [x | | n | n x | n |]; cbn [run_op size_after] in *.
    - destruct (push_back_cases x s Hwf)
        as [[_ E] | (_ & s1 & E & _ & Hsz & Hpl)];
        rewrite E in Hr; [discriminate |]. injection Hr as ->.
      split; [assumption |]. intros m Hm _. rewrite Hpl.
      apply take_app_le.
      assert (sizeof T * m <= sizeof T * size_ (this s))
        by (apply N.mul_le_mono_l; assumption). lia.
    - rewrite (pop_back_unfold s Hwf) in Hr.
      destruct (N.eqb_spec (size_ (this s)) 0); [discriminate |].
      injection Hr as <-. split; [reflexivity |]. cbn [this size_].
      intros m Hm Hm'. destruct Hwf as (? & ? & ?).
      apply (with_size_payload (size_ (this s) - 1) m s);
        [repeat split; assumption | lia | lia | lia].
    - destruct (resize_cases n s Hwf) as [[_ E] | (Hn & _)];
        [rewrite E in Hr; discriminate |].
      destruct (resize_keeps n s Hwf Hn) as (s2 & E & Hw2 & Hsz2 & Hpl2 & Hc2).
      rewrite E in Hr. injection Hr as <-. split; [reflexivity |].
      cbn [with_size this size_]. intros m Hm Hm'.
      rewrite <- Hpl2. apply with_size_payload; [assumption | lia | lia | lia].
    - destruct (resize_fill_cases n x s Hwf) as [[_ E] | (Hn & _)];
        [rewrite E in Hr; discriminate |].
      destruct (resize_fill_payload n x s Hwf Hn)
        as (s1 & E & Hw1 & Hsz1 & Hpl1).
      rewrite E in Hr. injection Hr as <-. split; [assumption |].
      intros m Hm Hm'. rewrite Hpl1, take_take.
      assert (sizeof T * m <= sizeof T * size_ (this s))
        by (apply N.mul_le_mono_l; assumption).
      assert (sizeof T * m <= sizeof T * n)
        by (apply N.mul_le_mono_l; lia).
      replace (N.to_nat (sizeof T * m) `min` N.to_nat (sizeof T * n))%nat
        with (N.to_nat (sizeof T * m)) by lia.
      apply take_app_le. lia.
    - destruct (reserve_cases n s Hwf)
        as [[_ E] | (_ & s1 & E & _ & Hsz & Hpl & _)];
        rewrite E in Hr; [discriminate |]. injection Hr as ->.
      split; [assumption |]. intros. rewrite Hpl. reflexivity.
    - destruct (shrink_ok s Hwf) as (s1 & E & _ & Hsz & Hpl & _).
      rewrite E in Hr. injection Hr as ->.
      split; [assumption |]. intros. rewrite Hpl. reflexivity. }
  destruct Hgoal as [Hsz Hpre]. split; [assumption |].
  intros i Hi Hi'.
  apply (same_prefix_same_elements s s'
           (N.min (size_ (this s)) (size_ (this s'))));
    [assumption | assumption | lia | lia | apply Hpre; lia | lia].
Qed.


(** X4: on an owned vector below [max_size()], [push_back(x)] followed
    by [pop_back()] gives back the size and the elements the vector had;
    [pop_back] itself touches neither the capacity nor the store, so a
    capacity [push_back] has grown stays grown. *)
Theorem pop_back_undoes_push_back (x : T) (s : vstate) :
  owned_wf s -> size (this s) < max_size ->
  exists s1 s2,
    push_back x s = (Ok tt, s1) /\ pop_back s1 = (Ok tt, s2) /\
    size (this s2) = size (this s) /\
    capacity (this s2) = capacity (this s1) /\
    mem s2 = mem s1 /\
    forall i, i < size (this s) ->
      nth (this s2) (mem s2) i = nth (this s) (mem s) i.
Proof.
  intros Hwf Hlt. unfold size, capacity in *.
  destruct (push_back_cases x s Hwf)
    as [[? _] | (_ & s1 & E1 & Hw1 & Hsz1 & Hpl1)]; [lia |].
  exists s1. eexists. split; [assumption |].
  rewrite (pop_back_unfold s1 Hw1).
  destruct (N.eqb_spec (size_ (this s1)) 0); [lia |].
  split; [reflexivity |]. cbn [this mem size_ capacity_].
  split; [lia |]. split; [reflexivity |]. split; [reflexivity |].
  intros i Hi.
  pose proof (payload_length s Hwf) as Hlen.
  assert (Hw2 : owned_wf (with_size (size_ (this s1) - 1) s1))
    by (apply with_size_wf; [assumption | destruct Hw1; lia]).
  apply (same_prefix_same_elements s (with_size (size_ (this s1) - 1) s1)
           (size_ (this s)));
    [assumption | assumption | lia | cbn; lia | | assumption].
  rewrite with_size_payload by (assumption || destruct Hw1; lia).
  rewrite Hpl1. apply take_app_le. lia.
Qed.


Lemma run_ops_confined (os : list op) (s0 s s' : vstate) (r : res unit) :
  owned_wf s -> confined s0 s -> run_ops os s = (r, s') ->
  owned_wf s' /\ confined s0 s'.
Proof.
  revert s. induction os as [| o os IH]; intros s Hwf Hc; cbn [run_ops].
  - intros [= _ <-]. auto.
  - unfold bind.
    destruct (run_op_outcome o s Hwf) as [(_ & s1 & E & Hw1) | [_ E]];
      rewrite E.
    + apply IH; [assumption |]. exact (run_op_confined o s0 s s1 Hwf Hc E).
    + intros [= _ <-]. auto.
Qed.

(** X6: whatever sequence of mutators runs on an owned vector, and
    however it ends, the blocks of the store other than the vector's
    buffer are as they were; a block that is live afterwards is one of
    those or the buffer the vector owns now; and a buffer the vector has
    replaced has been released. *)
Theorem mutators_stay_in_their_buffer (os : list op) (s s' : vstate)
    (r : res unit) :
  owned_wf s -> run_ops os s = (r, s') ->
  (forall b, foreign s b -> mem s' !! b = mem s !! b) /\
  (forall b bs, mem s' !! b = Some (Some bs) ->
     foreign s b \/ buf_ (this s') = Some b) /\
  (forall b, buf_ (this s) = Some b -> buf_ (this s') <> Some b ->
     mem s' !! b = Some None).
Proof.
  intros Hwf Hr.
  destruct (run_ops_confined os s s s' r Hwf (confined_refl s Hwf) Hr)
    as (Hwf' & Hlen & Hfr & Hlive & Hbuf).
  split; [assumption |]. split; [assumption |].
  intros b Hb Hb'. pose proof (owned_buf_lt s b Hwf Hb) as Hlt.
  destruct (mem s' !! b) as [[bs |] |] eqn:E.
  - destruct (Hlive b bs E) as [[_ Hf] | ?]; contradiction.
  - reflexivity.
  - apply lookup_ge_None in E. lia.
Qed.

(** *** Capacity *)


(** X8: [shrink()] on an owned vector returns with the same [size()] and
    [capacity() == size()], the array being exactly [total_size()] bytes
    long; it changes nothing when the capacity was the size already, and
    a second [shrink()] changes nothing. *)
Theorem shrink_to_fit (s : vstate) :
  owned_wf s ->
  exists s', shrink s = (Ok tt, s') /\
    size (this s') = size (this s) /\
    capacity (this s') = size (this s) /\
    (forall b, buf_ (this s') = Some b ->
       exists bs, mem s' !! b = Some (Some bs) /\
                  N.of_nat (length bs) = total_size (this s)) /\
    (size (this s) = capacity (this s) -> s' = s) /\
    shrink s' = (Ok tt, s').
Proof.
  intros Hwf. unfold size, capacity, total_size.
  destruct (shrink_ok s Hwf) as (s' & E & Hw & Hsz & _ & Hcap).
  exists s'. split; [assumption |]. split; [assumption |].
  split; [assumption |]. split; [| split].
  - intros b Hb. destruct Hw as (_ & Hm & Hbuf). rewrite Hb in Hbuf.
    destruct Hbuf as (_ & bs & Hl & Hlen). exists bs. split; [assumption |].
    rewrite Hlen, Hcap. symmetry. apply bytes_of_small. lia.
  - intros Heq. rewrite (shrink_unfold s Hwf) in E.
    apply N.eqb_eq in Heq. rewrite Heq in E. congruence.
  - rewrite (shrink_unfold s' Hw).
    replace (size_ (this s') =? capacity_ (this s')) with true
      by (symmetry; apply N.eqb_eq; lia).
    reflexivity.
Qed.



(** *** The reader constructor on any input *)

Lemma bind_throw {S A B} (m : M S A) (k : A -> M S B) s e s' :
  m s = (Throw e, s') -> bind m k s = (Throw e, s').
Proof. unfold bind. intros ->. reflexivity. Qed.


Lemma liftIO_throw {IO A} (m : M IO A) (s : vstate) (io io' : IO) e :
  m io = (Throw e, io') -> liftIO (A := A) m (s, io) = (Throw e, (s, io')).
Proof. unfold liftIO; cbn. intros ->. reflexivity. Qed.








(** *** Reading, then writing *)

Lemma byte_of_N_to_N (b : byte) (d : N) :
  byte_of_N (Byte.to_N b + 256 * d) = b.
Proof.
  unfold byte_of_N. pose proof (Byte.to_N_bounded b) as Hb.
  replace ((Byte.to_N b + 256 * d) mod 256) with (Byte.to_N b).
  - rewrite Byte.of_to_N. reflexivity.
  - replace (Byte.to_N b + 256 * d) with (Byte.to_N b + d * 256) by lia.
    rewrite N.Div0.mod_add. symmetry. apply N.mod_small. lia.
Qed.

Lemma le_encode_decode (bs : list byte) :
  le_encode (length bs) (le_decode bs) = bs.
Proof.
  induction bs as [| b bs IH]; [reflexivity |].
  cbn [length le_decode le_encode]. rewrite byte_of_N_to_N. f_equal.
  pose proof (Byte.to_N_bounded b) as Hb.
  replace ((Byte.to_N b + 256 * le_decode bs) / 256) with (le_decode bs);
    [exact IH |].
  replace (Byte.to_N b + 256 * le_decode bs)
    with (Byte.to_N b + le_decode bs * 256) by lia.
  rewrite N.div_add by lia.
  rewrite (N.div_small (Byte.to_N b)) by lia. reflexivity.
Qed.



(** The block [write] emits for the payload of a serialised vector is
    that vector, with zeros for its padding. *)
Lemma frame_of_framed (hdr bs pad : list byte) :
  framed hdr bs pad ->
  frame bs = hdr ++ bs ++ replicate (length pad) x00.
Proof.
  intros (Hh & Hd & _ & Hp). unfold frame.
  rewrite <- Hp, <- Hd, Nat2N.id.
  replace 8%nat with (length hdr) by (rewrite Hh; reflexivity).
  rewrite le_encode_decode. reflexivity.
Qed.

(** X12: a vector constructed from a serialised vector writes out the
    very header and payload it was read from, followed by zero bytes in
    the place of the padding: serialisation is stable, up to the
    contents of the padding. *)
Theorem read_then_write (h : heap) (hdr bs pad rest : list byte)
    (w : Writer) :
  framed hdr bs pad ->
  exists s',
    Vector_of_Reader h (mkReader (hdr ++ bs ++ pad ++ rest))
      = (Ok tt, (s', mkReader rest)) /\
    write (this s') (mem s') w
      = (Ok tt, mkWriter (emitted w ++ hdr ++ bs
                            ++ replicate (length pad) x00)).
Proof.
  intros Hfm.
  destruct (ctor_Reader_ok h hdr bs pad rest Hfm)
    as (s' & E & Hwf & Hsz & Hpl).
  exists s'. split; [assumption |].
  destruct (owned_payload s' Hwf) as [Hl _].
  pose proof Hwf as (Hs & Hm & _).
  rewrite (write_ok (this s') (mem s') w (payload s')) by (lia || assumption).
  rewrite Hpl, (frame_of_framed hdr bs pad Hfm). reflexivity.
Qed.

(** X13: what [write] emits for a vector whose elements can be read:
    [total_size()] as eight little-endian bytes, the elements, and
    between one and eight zero bytes, never none, bringing the block to
    a multiple of eight bytes; what the writer had emitted before
    stays. *)
Theorem write_layout (v : Vector) (h : heap) (w : Writer) :
  readable v h ->
  exists bs pad,
    write v h w
      = (Ok tt, mkWriter (emitted w ++ le_encode 8 (total_size v)
                            ++ bs ++ pad)) /\
    load h (const_objs_ v) (total_size v) = Some bs /\
    N.of_nat (length bs) = total_size v /\
    pad = replicate (length pad) x00 /\
    (1 <= length pad <= 8)%nat /\
    N.of_nat (length (le_encode 8 (total_size v) ++ bs ++ pad)) mod 8 = 0.
Proof.
  intros (Hsz & bs & Hl). pose proof (load_length _ _ _ _ Hl) as Hlen.
  exists bs, (replicate (N.to_nat (8 - N.of_nat (length bs) mod 8)) x00).
  split; [rewrite (write_ok v h w bs Hsz Hl); unfold frame, total_size;
          rewrite Hlen; reflexivity |].
  split; [exact Hl |]. split; [exact Hlen |].
  rewrite length_replicate. split; [reflexivity |].
  pose proof (N.mod_upper_bound (N.of_nat (length bs)) 8 ltac:(lia)) as Hb.
  split.
  { generalize dependent (N.of_nat (length bs) mod 8). intros. lia. }
  pose proof (length_frame_mod8 bs) as Hm. unfold frame in Hm.
  unfold total_size. rewrite <- Hlen. exact Hm.
Qed.

(** X14: [io_size()] is 8 plus the low 32 bits of [total_size() + 7]
    rounded down to a multiple of 8.  It is always a multiple of 8
    between 8 and [2^32]; below [2^32 - 7] bytes it is 8 plus
    [total_size()] rounded up to a multiple of 8, and from [2^32] bytes on
    it is less than [total_size()] itself. *)
Theorem io_size_formula (v : Vector) :
  io_size v = 8 + 8 * (((total_size v + 7) mod 2 ^ 32) / 8) /\
  io_size v mod 8 = 0 /\
  8 <= io_size v <= 2 ^ 32 /\
  (total_size v + 7 < 2 ^ 32 ->
   io_size v = 8 + 8 * ((total_size v + 7) / 8) /\
   total_size v <= io_size v - 8 < total_size v + 8) /\
  (2 ^ 32 <= total_size v -> io_size v < total_size v).
Proof.
  unfold io_size. set (x := total_size v + 7).
  assert (Hland : N.land (size_t x) 0xFFFFFFF8 = 8 * ((x mod 2 ^ 32) / 8)).
  { rewrite <- land_mask32 by (apply N.mod_upper_bound; lia).
    change (2 ^ 32) with (2 ^ 32) at 1.
    rewrite <- (N.land_ones x 32).
    unfold size_t. rewrite <- (N.land_ones x 64).
    rewrite <- !N.land_assoc. f_equal. }
  rewrite Hland.
  pose proof (N.mod_upper_bound x (2 ^ 32) ltac:(lia)) as Hx.
  pose proof (N.Div0.mul_div_le (x mod 2 ^ 32) 8) as Hd.
  set (q := (x mod 2 ^ 32) / 8) in *.
  assert (Hq : 8 * q <= 2 ^ 32 - 8).
  { assert (q <= (2 ^ 32 - 1) / 8)
      by (apply N.Div0.div_le_mono; generalize dependent (x mod 2 ^ 32);
          intros; lia).
    change ((2 ^ 32 - 1) / 8) with 536870911 in *. lia. }
  assert (Hst : size_t (8 + 8 * q) = 8 + 8 * q).
  { apply size_t_small. unfold SIZE_MAX. clearbody q. clear - Hq. lia. }
  rewrite Hst. split; [reflexivity |]. split.
  { replace (8 + 8 * q) with ((1 + q) * 8) by lia. apply N.Div0.mod_mul. }
  split; [clearbody q; clear - Hq; lia |]. split.
  - intros Hsmall. subst q. rewrite (N.mod_small x) by assumption.
    split; [reflexivity |].
    pose proof (N.div_mod x 8 ltac:(lia)) as Hdm.
    pose proof (N.mod_upper_bound x 8 ltac:(lia)) as Hm8.
    subst x. generalize dependent ((total_size v + 7) / 8).
    generalize dependent ((total_size v + 7) mod 8). intros. lia.
  - intros Hbig. destruct (N.eq_dec (total_size v) (2 ^ 32)) as [E | E].
    + subst q x. rewrite E. vm_compute. reflexivity.
    + clearbody q. clear - Hq Hbig E. lia.
Qed.

(** *** The mapper constructor on any region *)

Lemma map_data_cases (n : N) (a : addr) (avail : N) :
  (n <= avail /\
   Mapper_.map_data n (mkMapper (Some a) avail)
   = (Ok (Some a), mkMapper (Some (mkAddr (blk a) (off a + n))) (avail - n)))
  \/
  (avail < n /\
   Mapper_.map_data n (mkMapper (Some a) avail)
   = (Throw runtime_error, mkMapper (Some a) avail)).
Proof.
  unfold Mapper_.map_data; cbn [ptr_ avail_ ptr_add].
  destruct (N.leb_spec n avail); [left | right]; auto.
Qed.

Lemma Vector_of_Mapper_cases (h : heap) (b : nat) (region : list byte)
    (o avail : N) :
  h !! b = Some (Some region) ->
  o + avail <= N.of_nat (length region) ->
  exists r s' m',
    Vector_of_Mapper h (Mapper_.open (Some (mkAddr b o)) avail)
      = (r, (s', m')) /\
    mem s' = h /\
    ((r = Ok tt /\
      buf_ (this s') = None /\
      const_objs_ (this s') = Some (mkAddr b (o + 8)) /\
      capacity_ (this s') = 0 /\
      size_ (this s') <= max_size /\
      o + 8 + sizeof T * size_ (this s') <= o + avail) \/
     (r = Throw runtime_error /\ this s' = Vector_default)).
Proof.
  intros Hb Hle. pose proof max_size_le as Hmax. pose proof sizeof_pos as Hpos.
  unfold Vector_of_Mapper, construct_with, ctor_Mapper, Mapper_.open.
  destruct (map_data_cases 8 (mkAddr b o) avail) as [[H8 E] | [H8 E]].
  2:{ erewrite bind_throw.
      2:{ unfold map_u64, Mapper_.map_u64; cbn [fst snd mem].
          erewrite bind_throw by exact E. reflexivity. }
      do 3 eexists. split; [reflexivity |]. cbn. auto. }
  erewrite bind_ok.
  2:{ unfold map_u64, Mapper_.map_u64; cbn [fst snd mem].
      erewrite bind_ok by exact E.
      rewrite (load_block h b o 8 region) by (assumption || lia).
      reflexivity. }
  cbn [blk off].
  set (ts := le_decode (take (N.to_nat 8) (drop (N.to_nat o) region))).
  unfold MARISA_THROW_IF at 1.
  destruct (N.ltb_spec SIZE_MAX ts) as [Hbig | Hts].
  { do 3 eexists. split; [reflexivity |]. cbn. auto. }
  erewrite bind_ok by reflexivity.
  unfold MARISA_THROW_IF at 1.
  destruct (N.eqb_spec (ts mod sizeof T) 0) as [Hmod | Hmod]; cbn [negb].
  2:{ do 3 eexists. split; [reflexivity |]. cbn. auto. }
  erewrite bind_ok by reflexivity.
  assert (Hn : ts / sizeof T <= max_size)
    by (unfold max_size; apply N.Div0.div_le_mono; assumption).
  assert (Hdiv : sizeof T * (ts / sizeof T) = ts).
  { pose proof (N.div_mod ts (sizeof T) ltac:(lia)) as Hdm.
    rewrite Hmod, N.add_0_r in Hdm. symmetry. exact Hdm. }
  rewrite size_t_small by (eapply N.le_trans; [exact Hn | exact Hmax]).
  rewrite bytes_of_small, Hdiv by assumption.
  clear Hmod. set (n := ts / sizeof T) in *. clearbody n.
  rewrite pad_size_t.
  destruct (map_data_cases ts (mkAddr b (o + 8)) (avail - 8))
    as [[Hts' E2] | [Hts' E2]].
  2:{ erewrite bind_throw by (apply liftIO_throw; exact E2).
      do 3 eexists. split; [reflexivity |]. cbn. auto. }
  erewrite bind_ok by (apply liftIO_ok; exact E2).
  erewrite bind_ok by (apply liftV_ok; reflexivity).
  cbn [blk off]. unfold Mapper_.seek.
  destruct (map_data_cases (8 - ts mod 8) (mkAddr b (o + 8 + ts))
              (avail - 8 - ts)) as [[Hp E3] | [Hp E3]].
  - erewrite bind_ok
      by (apply liftIO_ok; erewrite bind_ok by exact E3; reflexivity).
    do 3 eexists. split; [reflexivity |]. cbn. split; [reflexivity |].
    left. repeat (split; [reflexivity || assumption |]).
    clear - H8 Hts' Hdiv. lia.
  - erewrite bind_throw
      by (apply liftIO_throw; erewrite bind_throw by exact E3; reflexivity).
    do 3 eexists. split; [reflexivity |]. cbn. auto.
Qed.

(** X15: the constructor from a [Mapper] walking bytes of a live block
    either returns or throws [std::runtime_error], and leaves the store
    as it was in both cases.  The vector it returns is fixed, reports
    [capacity() == 0] whatever its size, begins just after the header,
    lies inside the mapped bytes, and can be read. *)
Theorem mapper_constructor_outcomes (h : heap) (b : nat)
    (region : list byte) (o avail : N) :
  h !! b = Some (Some region) ->
  o + avail <= N.of_nat (length region) ->
  exists r s' m',
    Vector_of_Mapper h (Mapper_.open (Some (mkAddr b o)) avail)
      = (r, (s', m')) /\
    mem s' = h /\
    ((r = Ok tt /\
      fixed (this s') = true /\ capacity (this s') = 0 /\
      begin_const (this s') = Some (mkAddr b (o + 8)) /\
      8 + total_size (this s') <= avail /\
      readable (this s') h) \/
     (r = Throw runtime_error /\ this s' = Vector_default)).
Proof.
  intros Hb Hle.
  destruct (Vector_of_Mapper_cases h b region o avail Hb Hle)
    as (r & s' & m' & E & Hm & Hcase).
  exists r, s', m'. split; [assumption |]. split; [assumption |].
  destruct Hcase as [(-> & Hbuf & Hp & Hcap & Hsz & Hin) | ?];
    [left | right; assumption].
  split; [reflexivity |].
  unfold fixed, capacity, begin_const, total_size, readable.
  rewrite Hbuf, Hp, bytes_of_small by assumption.
  repeat (split; [reflexivity || assumption || lia |]).
  erewrite load_block; [eexists; reflexivity | exact Hb | lia].
Qed.

(** X26: a vector mapped from a serialised vector lying in a block of
    the store writes out the very header and payload it was mapped
    from, followed by zero bytes in the place of the padding; mapping
    left the store as it was. *)
Theorem map_then_write (h : heap) (b : nat)
    (pre hdr bs pad rest post : list byte) (w : Writer) :
  framed hdr bs pad ->
  h !! b = Some (Some (pre ++ hdr ++ bs ++ pad ++ rest ++ post)) ->
  exists s' m',
    Vector_of_Mapper h
      (Mapper_.open (Some (mkAddr b (N.of_nat (length pre))))
                    (N.of_nat (length (hdr ++ bs ++ pad ++ rest))))
      = (Ok tt, (s', m')) /\
    mem s' = h /\
    write (this s') (mem s') w
      = (Ok tt, mkWriter (emitted w ++ hdr ++ bs
                            ++ replicate (length pad) x00)).
Proof.
  intros Hfm Hb.
  destruct (framed_bounds _ _ _ Hfm) as (_ & Hn & _).
  destruct (ctor_Mapper_ok h b pre hdr bs pad rest post Hfm Hb)
    as (m' & E & _ & Hl).
  eexists _, m'. split; [exact E |]. cbn [this mem].
  split; [reflexivity |].
  rewrite (write_ok _ h w bs) by (cbn [size_ const_objs_]; assumption).
  rewrite (frame_of_framed hdr bs pad Hfm). reflexivity.
Qed.

(** X16: [map(mapper)], with a mapper walking bytes of a live block
    other than the vector's own buffer, is all or nothing: either it
    returns, the vector is then fixed and readable, begins just after
    the header, and the array it owned before has been released; or it
    throws [std::runtime_error] and the vector and the store are as they
    were. *)
Theorem map_replaces_or_keeps (s : vstate) (b : nat) (region : list byte)
    (o avail : N) :
  mem s !! b = Some (Some region) ->
  o + avail <= N.of_nat (length region) ->
  buf_ (this s) <> Some b ->
  exists r s' m',
    map (s, Mapper_.open (Some (mkAddr b o)) avail) = (r, (s', m')) /\
    ((r = Ok tt /\
      fixed (this s') = true /\
      begin_const (this s') = Some (mkAddr b (o + 8)) /\
      mem s' = release (mem s) (buf_ (this s)) /\
      readable (this s') (mem s')) \/
     (r = Throw runtime_error /\ s' = s)).
Proof.
  intros Hb Hle Hne. unfold map, construct_and_swap. cbn [fst snd].
  fold (Vector_of_Mapper (mem s) (Mapper_.open (Some (mkAddr b o)) avail)).
  destruct (Vector_of_Mapper_cases (mem s) b region o avail Hb Hle)
    as (r & t & m' & E & Hm & Hcase).
  rewrite E.
  destruct Hcase as [(-> & Hbuf & Hp & Hcap & Hsz & Hin) | (-> & Ht)].
  - do 3 eexists. split; [reflexivity |]. left. split; [reflexivity |].
    cbn [this mem]. unfold fixed, begin_const, readable.
    rewrite Hbuf, Hp, Hm, bytes_of_small by assumption.
    repeat (split; [reflexivity || assumption |]).
    assert (Hb' : release (mem s) (buf_ (this s)) !! b = Some (Some region)).
    { destruct (buf_ (this s)) as [b0 |]; [| exact Hb]. cbn.
      rewrite list_lookup_insert_ne by congruence. exact Hb. }
    erewrite load_block; [eexists; reflexivity | exact Hb' | lia].
  - do 3 eexists. split; [reflexivity |]. right. split; [reflexivity |].
    rewrite Hm. destruct s; reflexivity.
Qed.

(** *** Copies, moves, [clear] and the accessors *)

Lemma max_size_pos : 0 < max_size.
Proof.
  unfold max_size. pose proof sizeof_pos. pose proof sizeof_max.
  apply N.div_str_pos. lia.
Qed.

(** X17: the copy constructor applied to an owned vector with a buffer
    returns a vector of the same size and capacity whose array is a new
    block of [sizeof(T) * capacity] bytes; the blocks that were in the
    store, the source's buffer among them, are as they were.  As
    [copyInit] zeroes its array from index 0 on, every element of the
    copy is the object whose bytes are all zero. *)
Theorem copy_of_owned_vector (s : vstate) (b : nat) :
  owned_wf s -> buf_ (this s) = Some b ->
  exists c,
    Vector_copy (this s) (mem s) = (Ok tt, c) /\
    size (this c) = size (this s) /\
    capacity (this c) = capacity (this s) /\
    buf_ (this c) = Some (length (mem s)) /\
    (forall b', (b' < length (mem s))%nat -> mem c !! b' = mem s !! b') /\
    (exists bs, mem c !! length (mem s) = Some (Some bs) /\
       N.of_nat (length bs) = sizeof T * capacity (this s)) /\
    forall i, i < size (this s) ->
      nth (this c) (mem c) i
      = Some (of_bytes (replicate (N.to_nat (sizeof T)) x00)).
Proof.
  intros Hwf Hb. destruct (copy_of_owned s b Hwf Hb) as [E Hpl].
  pose proof Hwf as (Hs & Hm & _).
  assert (Hwfc : owned_wf (copied_state (this s) (mem s))).
  { unfold owned_wf; cbn [copied_state this mem size_ capacity_ buf_
                          const_objs_].
    repeat split; try assumption.
    eexists. split; [apply list_lookup_middle; reflexivity |].
    rewrite length_replicate. lia. }
  assert (Hnth : forall i, i < size_ (this s) ->
            nth (this (copied_state (this s) (mem s)))
                (mem (copied_state (this s) (mem s))) i
            = Some (of_bytes (replicate (N.to_nat (sizeof T)) x00))).
  { intros i Hi. rewrite (nth_owned _ i Hwfc) by assumption. rewrite Hpl.
    assert (sizeof T * (i + 1) <= sizeof T * size_ (this s))
      by (apply N.mul_le_mono_l; lia).
    rewrite drop_replicate, take_replicate. do 3 f_equal. lia. }
  exists (copied_state (this s) (mem s)). split; [assumption |].
  split; [reflexivity |]. split; [reflexivity |]. split; [reflexivity |].
  split; [intros b' Hb'; apply lookup_app_l; assumption |].
  split; [| exact Hnth].
  eexists. split; [apply list_lookup_middle; reflexivity |].
  rewrite length_replicate. unfold capacity. lia.
Qed.

(** X27: copying a vector that has no buffer of its own, a mapped one
    for instance, copies its three members and nothing else: the copy
    constructor returns the same pointer, size and capacity with the
    store untouched, so the copy reads the very elements of the source;
    copy assignment of such a vector to another one does the same after
    releasing the array the target owned. *)
Theorem copy_of_fixed_shares (other : Vector) (s : vstate) :
  buf_ other = None ->
  Vector_copy other (mem s) = (Ok tt, mkState other (mem s)) /\
  assign other s
  = (Ok tt, mkState other (release (mem s) (buf_ (this s)))) /\
  forall c, Vector_copy other (mem s) = (Ok tt, c) ->
    fixed (this c) = fixed other /\
    begin_const (this c) = begin_const other /\
    size (this c) = size other /\
    forall i, nth (this c) (mem c) i = nth other (mem s) i.
Proof.
  intros Hb.
  assert (E : mkVector None (const_objs_ other) (size_ other)
                (capacity_ other) = other)
    by (destruct other; cbn in Hb; subst; reflexivity).
  rewrite (copy_of_borrowed other (mem s) Hb),
    (assign_of_borrowed other s Hb), E.
  split; [reflexivity |]. split; [reflexivity |].
  intros c [= <-]. cbn [this mem]. auto.
Qed.

(** X18: copy assignment of a vector to itself empties it: [clear()]
    runs first, so the members then read from [other] are those of the
    cleared object.  The vector ends default-initialised, the array it
    owned is released, and no index can be read. *)
Theorem self_assignment_clears (s : vstate) :
  (forall b, buf_ (this s) = Some b -> (b < length (mem s))%nat) ->
  exists s',
    assign_self s = (Ok tt, s') /\
    this s' = Vector_default /\
    size (this s') = 0 /\
    (forall b, buf_ (this s) = Some b -> mem s' !! b = Some None) /\
    forall i, nth (this s') (mem s') i = None.
Proof.
  intros Hb. eexists. split; [reflexivity |]. cbn [this mem].
  split; [reflexivity |]. split; [reflexivity |]. split.
  - intros b E. rewrite E. cbn. apply list_lookup_insert_eq. auto.
  - intros i. unfold nth, at_const, bind, get, assert; cbn.
    destruct (i <? 0) eqn:E; [| reflexivity].
    apply N.ltb_lt in E. lia.
Qed.

(** X19: the defaulted move constructor applied to an owned vector with
    a buffer gives the new object the members of the source, and leaves
    the source with a null [buf_] and its pointer and size: the source
    is then a fixed vector of the same size whose elements are read from
    the array the new object owns.  Once the new object reallocates,
    that array is released and no index of the source can be read. *)
Theorem moved_from_vector_aliases (s : vstate) (b : nat) :
  owned_wf s -> buf_ (this s) = Some b ->
  let target := fst (Vector_move (this s)) in
  let source := snd (Vector_move (this s)) in
  target = this s /\
  fixed source = true /\
  size source = size (this s) /\
  (forall i, nth source (mem s) i = nth (this s) (mem s) i) /\
  (forall n s1, capacity (this s) < n ->
     reserve n (mkState target (mem s)) = (Ok tt, s1) ->
     forall i, nth source (mem s1) i = None).
Proof.
  intros Hwf Hb. cbv zeta. cbn [Vector_move fst snd].
  pose proof Hwf as (Hs & Hm & Hbuf). rewrite Hb in Hbuf.
  destruct Hbuf as (Hp & bs & Hl & Hlen).
  split; [reflexivity |].
  split; [unfold fixed; cbn; rewrite Hp; reflexivity |].
  split; [reflexivity |].
  split.
  { intros i. unfold nth, at_const, bind, get, assert, peek.
    cbn [this mem size_ const_objs_].
    destruct (i <? size_ (this s)); [| reflexivity].
    destruct (load _ _ _); reflexivity. }
  intros n s1 Hn Hr i.
  replace (mkState (this s) (mem s)) with s in Hr by (destruct s; reflexivity).
  rewrite (reserve_unfold n s Hwf) in Hr. unfold capacity in Hn.
  destruct (N.leb_spec n (capacity_ (this s))); [lia |].
  destruct (n <=? max_size); [| discriminate]. injection Hr as <-.
  unfold nth, at_const. cbn [this mem size_ const_objs_].
  unfold bind, get, assert. cbn [this mem size_ const_objs_].
  destruct (i <? size_ (this s)); [| reflexivity].
  unfold peek, load. cbn [mem realloc_state].
  pose proof sizeof_pos as Hpos.
  destruct (N.eqb_spec (sizeof T) 0) as [E | _]; [lia |].
  rewrite Hp. cbn [index ptr_add blk off]. rewrite Hb. cbn [release].
  rewrite list_lookup_insert_eq
    by (rewrite length_app; apply lookup_lt_Some in Hl; lia).
  reflexivity.
Qed.

(** X20: [clear()] always returns and leaves a default-initialised
    vector, whatever the vector was, a mapped one included; when the
    vector had no buffer the store is untouched.  The cleared vector is
    not fixed: [push_back(x)] on it returns and makes [x] its only
    element. *)
Theorem clear_then_push_back (s : vstate) (x : T) :
  exists s1 s2,
    clear s = (Ok tt, s1) /\
    this s1 = Vector_default /\
    (buf_ (this s) = None -> mem s1 = mem s) /\
    push_back x s1 = (Ok tt, s2) /\
    size (this s2) = 1 /\
    nth (this s2) (mem s2) 0 = Some x.
Proof.
  set (s1 := mkState Vector_default (release (mem s) (buf_ (this s)))).
  pose proof (default_wf (release (mem s) (buf_ (this s)))) as Hwf1.
  fold s1 in Hwf1.
  destruct (push_back_cases x s1 Hwf1)
    as [[Hge _] | (_ & s2 & E & Hwf2 & Hsz & Hpl)].
  { pose proof max_size_pos. cbn in Hge. lia. }
  exists s1, s2. split; [reflexivity |]. split; [reflexivity |].
  split; [intros Hn; unfold s1; cbn [mem]; rewrite Hn; reflexivity |].
  split; [exact E |]. unfold size. split; [exact Hsz |].
  pose proof (payload_length s1 Hwf1) as Hl1. cbn [s1 this size_] in Hl1.
  rewrite N.mul_0_r in Hl1. destruct (payload s1); [| discriminate].
  rewrite (nth_owned s2 0 Hwf2) by (rewrite Hsz; cbn; lia).
  rewrite Hpl, N.mul_0_r. change (N.to_nat 0) with 0%nat.
  rewrite drop_0, app_nil_l.
  pose proof (to_bytes_length x) as Hx.
  replace (N.to_nat (sizeof T)) with (length (to_bytes x)) by lia.
  rewrite firstn_all, of_to_bytes. reflexivity.
Qed.

(** X21: on an owned vector the non-const accessors designate what the
    const ones read: [begin()] and [end()] return the pointers of
    [begin() const] and [end() const]; for [i < size()] the address
    [operator[](i)] returns holds the bytes of the element
    [operator[](i) const] reads; and on such a vector, which is not
    empty, [front()] and [back()] are [operator[]] at 0 and at
    [size() - 1], const or not. *)
Theorem accessors_coincide (s : vstate) (i : N) :
  owned_wf s -> i < size (this s) ->
  begin_ s = (Ok (begin_const (this s)), s) /\
  end_ s = (Ok (end_const (this s)), s) /\
  (exists bs,
     at_ i s = (Ok (index (begin_const (this s)) i), s) /\
     load (mem s) (index (begin_const (this s)) i) (sizeof T) = Some bs /\
     at_const i s = (Ok (of_bytes bs), s)) /\
  front s = at_ 0 s /\
  back s = at_ (size (this s) - 1) s /\
  front_const s = at_const 0 s /\
  back_const s = at_const (size (this s) - 1) s.
Proof.
  intros Hwf Hi. unfold size in *. pose proof Hwf as (Hs & Hm & Hbuf).
  pose proof (owned_not_fixed s Hwf) as Hnf. pose proof max_size_le as Hmax.
  destruct (owned_block s Hwf ltac:(lia))
    as (b & old & Hb & Hp & Hl & Hlen & _).
  assert (Hin : sizeof T * (i + 1) <= sizeof T * capacity_ (this s))
    by (apply N.mul_le_mono_l; lia).
  assert (Hload : load (mem s) (index (Some (mkAddr b 0)) i) (sizeof T)
            = Some (take (N.to_nat (sizeof T))
                      (drop (N.to_nat (0 + sizeof T * i)) old))).
  { unfold index, ptr_add; cbn [blk off]. rewrite bytes_of_small by lia.
    apply load_block; [assumption | lia]. }
  assert (Hne : negb (size_ (this s) =? 0) = true)
    by (apply negb_true_iff, N.eqb_neq; lia).
  assert (H0 : (0 <? size_ (this s)) = true) by (apply N.ltb_lt; lia).
  assert (Hlast : (size_ (this s) - 1 <? size_ (this s)) = true)
    by (apply N.ltb_lt; lia).
  assert (Hsub : size_sub (size_ (this s)) 1 = size_ (this s) - 1)
    by (apply size_sub_small; lia).
  unfold begin_const, end_const. rewrite Hp.
  split; [| split; [| split; [| split; [| split; [| split]]]]].
  - unfold begin_. erewrite bind_ok by reflexivity.
    erewrite bind_ok by (apply assert_true; rewrite Hnf; reflexivity).
    rewrite objs_owned, Hb. reflexivity.
  - unfold end_. erewrite bind_ok by reflexivity.
    erewrite bind_ok by (apply assert_true; rewrite Hnf; reflexivity).
    erewrite bind_ok by apply objs_owned. rewrite Hb. reflexivity.
  - eexists. split; [| split; [exact Hload |]].
    + unfold at_. erewrite bind_ok by reflexivity.
      erewrite bind_ok by (apply assert_true; rewrite Hnf; reflexivity).
      erewrite bind_ok by (apply assert_true, N.ltb_lt; assumption).
      erewrite bind_ok by apply objs_owned. rewrite Hb. reflexivity.
    + unfold at_const. erewrite bind_ok by reflexivity.
      erewrite bind_ok by (apply assert_true, N.ltb_lt; assumption).
      rewrite Hp. erewrite bind_ok by (apply peek_ok; exact Hload).
      reflexivity.
  - unfold front, at_, bind, get, assert. rewrite Hnf, Hne, H0. reflexivity.
  - unfold back, at_, bind, get, assert.
    rewrite Hnf, Hne, Hlast, Hsub. reflexivity.
  - unfold front_const, at_const, bind, get, assert. rewrite Hne, H0.
    reflexivity.
  - unfold back_const, at_const, bind, get, assert.
    rewrite Hne, Hlast, Hsub. reflexivity.
Qed.

End WithT.

(** *** The laws at sample vectors *)

(** The representation invariant of a concrete state, by evaluation. *)
Ltac owned_by_evaluation :=
  vm_compute; repeat split; try discriminate; eexists; split; reflexivity.


(** X2 at [sample3]: [resize(2)] keeps the elements 1 and 2. *)
Lemma mutators_keep_elements_witness :
  let s' := snd (run_op (T := byte) (Resize 2) sample3) in
  size (this s') = 2 /\
  forall i, i < size (this sample3) -> i < size (this s') ->
    is_Some (nth (T := byte) (this sample3) (mem sample3) i) /\
    nth (T := byte) (this s') (mem s') i
    = nth (T := byte) (this sample3) (mem sample3) i.
Proof.
  apply (mutators_keep_elements (T := byte) (Resize 2) sample3);
    [owned_by_evaluation | vm_compute; reflexivity].
Defined.


(** X4 at [sample3]. *)
Lemma pop_back_undoes_push_back_witness :
  exists s1 s2,
    push_back x04 sample3 = (Ok tt, s1) /\
    pop_back s1 = (Ok tt, s2) /\
    size (this s2) = size (this sample3) /\
    capacity (this s2) = capacity (this s1) /\
    mem s2 = mem s1 /\
    forall i, i < size (this sample3) ->
      nth (T := byte) (this s2) (mem s2) i
      = nth (T := byte) (this sample3) (mem sample3) i.
Proof.
  apply (pop_back_undoes_push_back (T := byte) x04 sample3);
    [owned_by_evaluation | vm_compute; reflexivity].
Defined.


(** X6 on a new vector of bytes in a store that holds one other block:
    three [push_back] calls, each of which reallocates. *)
Lemma mutators_stay_in_their_buffer_witness :
  let s := mkState Vector_default [Some [xaa; xbb]] in
  let s' := snd (run_ops (T := byte)
                   [PushBack x01; PushBack x02; PushBack x03] s) in
  (forall b, foreign s b -> mem s' !! b = mem s !! b) /\
  (forall b bs, mem s' !! b = Some (Some bs) ->
     foreign s b \/ buf_ (this s') = Some b) /\
  (forall b, buf_ (this s) = Some b -> buf_ (this s') <> Some b ->
     mem s' !! b = Some None).
Proof.
  apply (mutators_stay_in_their_buffer (T := byte)
           [PushBack x01; PushBack x02; PushBack x03]
           (mkState Vector_default [Some [xaa; xbb]]) _ (Ok tt));
    [owned_by_evaluation | vm_compute; reflexivity].
Defined.


(** X8 at [sample3], of size 3 and capacity 4. *)
Lemma shrink_to_fit_witness :
  exists s', shrink (T := byte) sample3 = (Ok tt, s') /\
    size (this s') = size (this sample3) /\
    capacity (this s') = size (this sample3) /\
    (forall b, buf_ (this s') = Some b ->
       exists bs, mem s' !! b = Some (Some bs) /\
                  N.of_nat (length bs)
                  = total_size (T := byte) (this sample3)) /\
    (size (this sample3) = capacity (this sample3) -> s' = sample3) /\
    shrink (T := byte) s' = (Ok tt, s').
Proof.
  apply (shrink_to_fit (T := byte) sample3). owned_by_evaluation.
Defined.



(** X12 on the serialised vector of 1, 2, 3 with a padding of five
    bytes [0xff], followed by one more byte. *)
Lemma read_then_write_witness :
  exists s',
    Vector_of_Reader (T := byte) []
      (mkReader (le_encode 8 3 ++ [x01; x02; x03] ++ replicate 5 xff
                 ++ [xee]))
      = (Ok tt, (s', mkReader [xee])) /\
    write (T := byte) (this s') (mem s') (mkWriter [])
      = (Ok tt, mkWriter ([] ++ le_encode 8 3 ++ [x01; x02; x03]
                            ++ replicate (length (replicate 5 xff)) x00)).
Proof.
  apply (read_then_write (T := byte) [] (le_encode 8 3) [x01; x02; x03]
           (replicate 5 xff) [xee] (mkWriter [])).
  repeat split; vm_compute; reflexivity.
Defined.

(** X13 at [mapped3]. *)
Lemma write_layout_witness :
  exists bs pad,
    write (T := byte) (this mapped3) (mem mapped3) (mkWriter [xee])
      = (Ok tt, mkWriter ([xee] ++ le_encode 8 (total_size (T := byte)
                                                  (this mapped3))
                            ++ bs ++ pad)) /\
    load (mem mapped3) (const_objs_ (this mapped3))
         (total_size (T := byte) (this mapped3)) = Some bs /\
    N.of_nat (length bs) = total_size (T := byte) (this mapped3) /\
    pad = replicate (length pad) x00 /\
    (1 <= length pad <= 8)%nat /\
    N.of_nat (length (le_encode 8 (total_size (T := byte) (this mapped3))
                      ++ bs ++ pad)) mod 8 = 0.
Proof.
  apply (write_layout (T := byte) (this mapped3) (mem mapped3)
           (mkWriter [xee])).
  split; [vm_compute; discriminate | eexists; vm_compute; reflexivity].
Defined.

(** X15 on the region of [mapped3]. *)
Lemma mapper_constructor_outcomes_witness :
  exists r s' m',
    Vector_of_Mapper (T := byte) (mem mapped3)
      (Mapper_.open (Some (mkAddr 0 1)) 17) = (r, (s', m')) /\
    mem s' = mem mapped3 /\
    ((r = Ok tt /\
      fixed (this s') = true /\ capacity (this s') = 0 /\
      begin_const (this s') = Some (mkAddr 0 (1 + 8)) /\
      8 + total_size (T := byte) (this s') <= 17 /\
      readable (T := byte) (this s') (mem mapped3)) \/
     (r = Throw runtime_error /\ this s' = Vector_default)).
Proof.
  apply (mapper_constructor_outcomes (T := byte) (mem mapped3) 0
           ([xff] ++ le_encode 8 3 ++ [x01; x02; x03]
            ++ replicate 5 x00 ++ [xee]) 1 17);
    [reflexivity | vm_compute; discriminate].
Defined.

(** X16: [sample3] maps the region of [mapped3], put in the store next
    to its buffer. *)
Lemma map_replaces_or_keeps_witness :
  let region := [xff] ++ le_encode 8 3 ++ [x01; x02; x03]
                ++ replicate 5 x00 ++ [xee] in
  let s := mkState (this sample3) (mem sample3 ++ [Some region]) in
  exists r s' m',
    map (T := byte) (s, Mapper_.open (Some (mkAddr 3 1)) 17)
      = (r, (s', m')) /\
    ((r = Ok tt /\
      fixed (this s') = true /\
      begin_const (this s') = Some (mkAddr 3 (1 + 8)) /\
      mem s' = release (mem s) (buf_ (this s)) /\
      readable (T := byte) (this s') (mem s')) \/
     (r = Throw runtime_error /\ s' = s)).
Proof.
  apply (map_replaces_or_keeps (T := byte)
           (mkState (this sample3)
              (mem sample3 ++ [Some ([xff] ++ le_encode 8 3
                 ++ [x01; x02; x03] ++ replicate 5 x00 ++ [xee])]))
           3 ([xff] ++ le_encode 8 3 ++ [x01; x02; x03]
              ++ replicate 5 x00 ++ [xee]) 1 17);
    [reflexivity | vm_compute; discriminate | vm_compute; discriminate].
Defined.

(** X17 at [sample3], whose buffer is block 2. *)
Lemma copy_of_owned_vector_witness :
  exists c,
    Vector_copy (T := byte) (this sample3) (mem sample3) = (Ok tt, c) /\
    size (this c) = size (this sample3) /\
    capacity (this c) = capacity (this sample3) /\
    buf_ (this c) = Some (length (mem sample3)) /\
    (forall b', (b' < length (mem sample3))%nat ->
       mem c !! b' = mem sample3 !! b') /\
    (exists bs, mem c !! length (mem sample3) = Some (Some bs) /\
       N.of_nat (length bs)
       = sizeof byte * capacity (this sample3)) /\
    forall i, i < size (this sample3) ->
      nth (T := byte) (this c) (mem c) i
      = Some (of_bytes (replicate (N.to_nat (sizeof byte)) x00)).
Proof.
  apply (copy_of_owned_vector (T := byte) sample3 2);
    [owned_by_evaluation | reflexivity].
Defined.

(** X27: the copy of [mapped3], and its assignment to [sample8]. *)
Lemma copy_of_fixed_shares_witness :
  Vector_copy (T := byte) (this mapped3) (mem sample8)
  = (Ok tt, mkState (this mapped3) (mem sample8)) /\
  assign (T := byte) (this mapped3) sample8
  = (Ok tt, mkState (this mapped3)
              (release (mem sample8) (buf_ (this sample8)))) /\
  forall c,
    Vector_copy (T := byte) (this mapped3) (mem sample8) = (Ok tt, c) ->
    fixed (this c) = fixed (this mapped3) /\
    begin_const (this c) = begin_const (this mapped3) /\
    size (this c) = size (this mapped3) /\
    forall i, nth (T := byte) (this c) (mem c) i
              = nth (T := byte) (this mapped3) (mem sample8) i.
Proof.
  apply (copy_of_fixed_shares (T := byte) (this mapped3) sample8).
  reflexivity.
Defined.

(** X18 at [sample3]. *)
Lemma self_assignment_clears_witness :
  exists s',
    assign_self (T := byte) sample3 = (Ok tt, s') /\
    this s' = Vector_default /\
    size (this s') = 0 /\
    (forall b, buf_ (this sample3) = Some b -> mem s' !! b = Some None) /\
    forall i, nth (T := byte) (this s') (mem s') i = None.
Proof.
  apply (self_assignment_clears (T := byte) sample3).
  intros b E. vm_compute in E. injection E as <-. vm_compute. lia.
Defined.

(** X19 at [sample3], whose buffer is block 2. *)
Lemma moved_from_vector_aliases_witness :
  let target := fst (Vector_move (this sample3)) in
  let source := snd (Vector_move (this sample3)) in
  target = this sample3 /\
  fixed source = true /\
  size source = size (this sample3) /\
  (forall i, nth (T := byte) source (mem sample3) i
             = nth (T := byte) (this sample3) (mem sample3) i) /\
  (forall n s1, capacity (this sample3) < n ->
     reserve (T := byte) n (mkState target (mem sample3)) = (Ok tt, s1) ->
     forall i, nth (T := byte) source (mem s1) i = None).
Proof.
  apply (moved_from_vector_aliases (T := byte) sample3 2);
    [owned_by_evaluation | reflexivity].
Defined.

(** X21 at index 1 of [sample3]. *)
Lemma accessors_coincide_witness :
  begin_ sample3 = (Ok (begin_const (this sample3)), sample3) /\
  end_ (T := byte) sample3
  = (Ok (end_const (T := byte) (this sample3)), sample3) /\
  (exists bs,
     at_ (T := byte) 1 sample3
     = (Ok (index (T := byte) (begin_const (this sample3)) 1), sample3) /\
     load (mem sample3) (index (T := byte) (begin_const (this sample3)) 1)
          (sizeof byte) = Some bs /\
     at_const (T := byte) 1 sample3 = (Ok (of_bytes bs), sample3)) /\
  front (T := byte) sample3 = at_ (T := byte) 0 sample3 /\
  back (T := byte) sample3
  = at_ (T := byte) (size (this sample3) - 1) sample3 /\
  front_const (T := byte) sample3 = at_const (T := byte) 0 sample3 /\
  back_const (T := byte) sample3
  = at_const (T := byte) (size (this sample3) - 1) sample3.
Proof.
  apply (accessors_coincide (T := byte) sample3 1);
    [owned_by_evaluation | vm_compute; reflexivity].
Defined.

(** X26 on the region of [mapped3]. *)
Lemma map_then_write_witness :
  exists s' m',
    Vector_of_Mapper (T := byte) (mem mapped3)
      (Mapper_.open (Some (mkAddr 0 (N.of_nat (length [xff]))))
         (N.of_nat (length (le_encode 8 3 ++ [x01; x02; x03]
                            ++ replicate 5 x00 ++ [xee]))))
      = (Ok tt, (s', m')) /\
    mem s' = mem mapped3 /\
    write (T := byte) (this s') (mem s') (mkWriter [])
      = (Ok tt, mkWriter ([] ++ le_encode 8 3 ++ [x01; x02; x03]
                            ++ replicate (length (replicate 5 x00)) x00)).
Proof.
  apply (map_then_write (T := byte) (mem mapped3) 0 [xff] (le_encode 8 3)
           [x01; x02; x03] (replicate 5 x00) [xee] [] (mkWriter []));
    [repeat split; vm_compute; reflexivity | reflexivity].
Defined.

End VectorLaws.

(** ** [Trie], [TrieIO], [TrieSerializer] *)

Module TrieProps.
Import Trie.

(** Case analysis on a scrutinee of the goal that contains no other. *)
Ltac break_inner :=
  match goal with
  | |- context [match ?x with _ => _ end] =>
      lazymatch x with
      | context [match _ with _ => _ end] => fail
      | _ => destruct x eqn:?
      end
  end.

Section WithLoudsTrie.
Context {G : Grimoire}.

(** A call either returns normally with a fresh [LoudsTrie] swapped in,
    or leaves the trie it was given. *)
Lemma run_cases (c : call) (t : Trie) :
  (fst (run c t) = Ok tt /\ exists temp, snd (run c t) = mkTrie (Some temp))
  \/ (fst (run c t) <> Ok tt /\ snd (run c t) = t).
Proof.
  destruct c; cbn [run];
    unfold build, at_address, extract, fread, read, TrieIO_fread,
      TrieIO_read, mmap, map, map_check, map_body, load, read_fd, swap_in,
      swap_in_ptr, on_temp, pure_res, MARISA_THROW_IF, bind, get, put,
      throw, ret, is_null; cbn;
    repeat (break_inner; cbn);
    first [ left; split; [reflexivity | eexists; reflexivity]
          | right; split; [discriminate | reflexivity] ].
Qed.

(** C3: when a call that replaces the contents of a trie ([build], [fread],
    [read], [>>], [mmap], [map], [load], [read(fd)]) does not return
    normally, the trie is the object it was before the call, so
    [num_keys] and every [lookup] answer as before; the trie changes only
    when the call succeeds. *)
Theorem failed_call_leaves_trie (c : call) (t : Trie) :
  fst (run c t) <> Ok tt ->
  snd (run c t) = t /\
  num_keys (snd (run c t)) = num_keys t /\
  (forall agent, lookup (snd (run c t)) agent = lookup t agent).
Proof.
  intros Hfail.
  destruct (run_cases c t) as [[Hok _] | [_ Hsame]]; [contradiction |].
  rewrite Hsame. auto.
Qed.


End WithLoudsTrie.

(** A run of C3: on the key-list tries, [build] with flags that have a
    bit outside the reserved mask throws, and the trie keeps its key. *)
Lemma failed_call_leaves_trie_witness :
  let t := @mkTrie ToyTrie.toy (Some [[x61]]) in
  let c := @Build ToyTrie.toy [[x62]; [x63]] (-1) in
  fst (run c t) = Throw invalid_argument /\
  snd (run c t) = t /\
  num_keys (snd (run c t)) = Ok 1 /\
  (forall agent, lookup (snd (run c t)) agent = lookup t agent).
Proof.
  split; [reflexivity |].
  destruct (failed_call_leaves_trie
              (@Build ToyTrie.toy [[x62]; [x63]] (-1))
              (@mkTrie ToyTrie.toy (Some [[x61]])))
    as (H1 & H2 & H3); [vm_compute; discriminate |].
  split; [exact H1 | split; [exact H2 | exact H3]].
Defined.

End TrieProps.

(** ** More about [Trie]: replacement, argument checks, moved-from tries *)

Module TrieLaws.
Import Trie TrieOut TrieProps.
Section WithLoudsTrie.
Context {G : Grimoire} {GO : GrimoireOut G}.

(** X23: a call that replaces the contents of a trie ends the same way
    whatever the trie held before, and when it returns the new contents
    do not depend on the old ones either: nothing of the old trie is
    merged into the new one.  The two runs differ only when the call
    fails, each then keeping the trie it was given. *)
Theorem replacing_call_ignores_old_trie (c : call) (t1 t2 : Trie) :
  fst (run c t1) = fst (run c t2) /\
  (run c t1 = run c t2 \/
   (fst (run c t1) <> Ok tt /\ snd (run c t1) = t1 /\ snd (run c t2) = t2)).
Proof.
  destruct c; cbn [run];
    unfold build, at_address, extract, fread, read, TrieIO_fread,
      TrieIO_read, mmap, map, map_check, map_body, load, read_fd, swap_in,
      swap_in_ptr, on_temp, pure_res, MARISA_THROW_IF, bind, get, put,
      throw, ret, is_null; cbn;
    repeat (break_inner; cbn);
    (split; [reflexivity |]);
    first [ left; reflexivity
          | right; split; [discriminate | split; reflexivity] ].
Qed.

(** X24: a null [FILE], a null [Trie] pointer, a null file name and the
    descriptor -1 are rejected with [std::invalid_argument] before a
    [LoudsTrie] is allocated or a reader or mapper opened, so that is
    how the call ends whatever those would have done, and the trie is
    untouched. *)
Theorem null_arguments_are_rejected_first (t : Trie) (p : option Trie)
    (file : option FILE) (stream : istream) (flags : Z) :
  fread None p = (Throw invalid_argument, p) /\
  fread file None = (Throw invalid_argument, None) /\
  TrieIO_fread file None = (Throw invalid_argument, None) /\
  read stream None = (Throw invalid_argument, None) /\
  TrieIO_read stream None = (Throw invalid_argument, None) /\
  mmap None flags t = (Throw invalid_argument, t) /\
  load None t = (Throw invalid_argument, t) /\
  read_fd (-1) t = (Throw invalid_argument, t).
Proof.
  unfold fread, read, TrieIO_fread, TrieIO_read, mmap, load, read_fd,
    MARISA_THROW_IF, bind, get, throw, ret, is_null; cbn.
  destruct file; repeat split; reflexivity.
Qed.

(** X25: the defaulted move constructor gives the new [Trie] the
    [LoudsTrie] of the source and leaves the source with a null [trie_].
    On the moved-from trie [num_keys] and [lookup] dereference the null
    pointer; [fwrite], [write], [<<], [save] and [write(fd)] throw
    [std::logic_error], except that [fwrite] checks for a null [FILE]
    first, while [save] and [write(fd)] check the trie before their
    argument.  No writer changes the trie it writes. *)
Theorem moved_from_trie (t : Trie) (c : out_call) (agent : Agent) :
  let source := snd (Trie_move t) in
  fst (Trie_move t) = t /\
  num_keys source = Undefined /\
  lookup source agent = Undefined /\
  run_out c source
  = (match c with
     | Fwrite None => Throw invalid_argument
     | _ => Throw logic_error
     end, source) /\
  snd (run_out c t) = t.
Proof.
  cbv zeta. cbn [Trie_move fst snd].
  split; [reflexivity |]. split; [reflexivity |]. split; [reflexivity |].
  split.
  - destruct c as [[f |] | s | s | [fn |] | fd]; reflexivity.
  - destruct t as [[l |]]; destruct c as [[f |] | s | s | [fn |] | fd];
      cbn [run_out];
      unfold fwrite, write, insert, save, write_fd, TrieIO_fwrite,
        TrieIO_write, write_to, pure_res, MARISA_THROW_IF, bind, get, throw,
        ret, is_null; cbn;
      repeat (break_inner; cbn); reflexivity.
Qed.

End WithLoudsTrie.
End TrieLaws.
